(** * logic-gate-sim: the circuit evaluation engine and the synthesis engine

    A shallow embedding of [core/engine.ts] (node model, circuit
    mutation, Kahn ordering, evaluation, truth-table enumeration), of
    [core/synthesis.ts] (sum-of-products synthesis) and of the parts of
    [ui/modal.ts] and [ui/canvas.ts] that decide what happens to the
    circuit and what the dialogs show, followed by the properties of
    the specification and by further properties of the code.

    Node objects live in a store indexed by reference; the two edge
    lists of a node hold references, so that the aliasing of the
    TypeScript object graph is kept.  A [Circuit] is its [nodes] map,
    an insertion-ordered association list from identifier to
    reference. *)

From Stdlib Require Import ZArith Lia Ascii DecimalString DecimalNat.
From stdpp Require Import base option list strings gmap relations sorting.

Local Open Scope Z_scope.

(** ** 32-bit integer operators of JavaScript *)

Definition to_int32 (z : Z) : Z := (z + 2 ^ 31) mod 2 ^ 32 - 2 ^ 31.

(** [a << b]: both operands are converted, the count is taken modulo 32. *)
Definition js_shl (a b : Z) : Z := to_int32 (Z.shiftl (to_int32 a) (b mod 32)).

(** [a >> b]: sign-propagating shift of the 32-bit value. *)
Definition js_sar (a b : Z) : Z := Z.shiftr (to_int32 a) (b mod 32).

(** [a & b]. *)
Definition js_and (a b : Z) : Z := to_int32 (Z.land (to_int32 a) (to_int32 b)).

(** Truthiness of a number, as in [!!n] and [if (n)]. *)
Definition js_truthy (z : Z) : bool := negb (z =? 0).

(** Template-literal rendering of a non-negative integer. *)
Definition nat_to_string (n : nat) : string :=
  NilEmpty.string_of_uint (Nat.to_uint n).

(** ** The [Map] class: insertion-ordered, unique keys *)

Abbreviation JsMap V := (list (string * V)) (only parsing).

Fixpoint map_get {V} (m : JsMap V) (k : string) : option V :=
  match m with
  | [] => None
  | (k', v) :: m' => if String.eqb k' k then Some v else map_get m' k
  end.

(** [set] on a present key keeps the position of the entry. *)
Fixpoint map_set {V} (m : JsMap V) (k : string) (v : V) : JsMap V :=
  match m with
  | [] => [(k, v)]
  | (k', v') :: m' =>
      if String.eqb k' k then (k', v) :: m' else (k', v') :: map_set m' k v
  end.

Fixpoint map_delete {V} (m : JsMap V) (k : string) : JsMap V :=
  match m with
  | [] => []
  | (k', v') :: m' =>
      if String.eqb k' k then m' else (k', v') :: map_delete m' k
  end.

Definition map_values {V} (m : JsMap V) : list V := m.*2.
Definition map_keys {V} (m : JsMap V) : list string := m.*1.
Definition map_size {V} (m : JsMap V) : nat := length m.

(** ** Nodes *)

(** The source at hand declares the five tags ['AND' | 'OR' | 'NOT' |
    'INPUT' | 'OUTPUT']; [canvas.ts] imports [XorGate] from the engine
    and builds it for a sixth tag ['XOR'], which is added here (see
    [XorGate] and [xor_compute] below). *)
Inductive NodeType := AND | OR | NOT | XOR | INPUT | OUTPUT.

Global Instance NodeType_eq_dec : EqDecision NodeType.
Proof. solve_decision. Defined.

Definition typeName (t : NodeType) : string :=
  match t with
  | AND => "AND" | OR => "OR" | NOT => "NOT" | XOR => "XOR"
  | INPUT => "INPUT" | OUTPUT => "OUTPUT"
  end.

Abbreviation ref := nat (only parsing).

Record CircuitNode := mkCircuitNode {
  id : string;
  type : NodeType;
  inputs : list ref;
  outputs : list ref;
  value : bool;
  x : Z;
  y : Z;
  label : string
}.

(** The store of node objects; a reference is an index in it. *)
Abbreviation heap := (list CircuitNode) (only parsing).

(** The base constructor: [label || type]. *)
Definition newCircuitNode (i : string) (t : NodeType) (px py : Z) (l : string)
  : CircuitNode :=
  {| id := i; type := t; inputs := []; outputs := []; value := false;
     x := px; y := py;
     label := if String.eqb l EmptyString then typeName t else l |}.

Definition InputNode (i : string) (px py : Z) (l : string) : CircuitNode :=
  newCircuitNode i INPUT px py l.
Definition OutputNode (i : string) (px py : Z) : CircuitNode :=
  newCircuitNode i OUTPUT px py EmptyString.
Definition AndGate (i : string) (px py : Z) : CircuitNode :=
  newCircuitNode i AND px py EmptyString.
Definition OrGate (i : string) (px py : Z) : CircuitNode :=
  newCircuitNode i OR px py EmptyString.
Definition NotGate (i : string) (px py : Z) : CircuitNode :=
  newCircuitNode i NOT px py EmptyString.
(** Modelled from the spec: the constructor of [XorGate], called by the
    canvas as [new XorGate(id, x, y)] like its sibling gates; the class
    text is not in the source at hand. *)
Definition XorGate (i : string) (px py : Z) : CircuitNode :=
  newCircuitNode i XOR px py EmptyString.

(** [new C(...)]: the object is placed at the next free reference. *)
Definition alloc (h : heap) (n : CircuitNode) : heap * ref :=
  (h ++ [n], length h).

Definition set_inputs (n : CircuitNode) (l : list ref) : CircuitNode :=
  {| id := id n; type := type n; inputs := l; outputs := outputs n;
     value := value n; x := x n; y := y n; label := label n |}.
Definition set_outputs (n : CircuitNode) (l : list ref) : CircuitNode :=
  {| id := id n; type := type n; inputs := inputs n; outputs := l;
     value := value n; x := x n; y := y n; label := label n |}.
Definition set_value (n : CircuitNode) (b : bool) : CircuitNode :=
  {| id := id n; type := type n; inputs := inputs n; outputs := outputs n;
     value := b; x := x n; y := y n; label := label n |}.

(** Field reads through a reference.  A reference held by a live object
    always designates an object, so the defaults are never observed on
    a store that the operations below have built. *)
Definition idOf (h : heap) (r : ref) : string :=
  match h !! r with Some n => id n | None => EmptyString end.
Definition typeOf (h : heap) (r : ref) : option NodeType :=
  type <$> h !! r.
Definition inputsOf (h : heap) (r : ref) : list ref :=
  match h !! r with Some n => inputs n | None => [] end.
Definition outputsOf (h : heap) (r : ref) : list ref :=
  match h !! r with Some n => outputs n | None => [] end.
Definition valueOf (h : heap) (r : ref) : bool :=
  match h !! r with Some n => value n | None => false end.
Definition labelOf (h : heap) (r : ref) : string :=
  match h !! r with Some n => label n | None => EmptyString end.

(** [Array.prototype.includes] and [indexOf] on references. *)
Definition includes (l : list ref) (r : ref) : bool :=
  existsb (Nat.eqb r) l.

Fixpoint indexOf (l : list ref) (r : ref) : option nat :=
  match l with
  | [] => None
  | a :: l' => if Nat.eqb a r then Some 0%nat else S <$> indexOf l' r
  end.

(** [l.splice(i, 1)]. *)
Definition splice1 (l : list ref) (i : nat) : list ref :=
  take i l ++ drop (S i) l.

Definition addInput (h : heap) (this node : ref) : heap :=
  match h !! this with
  | None => h
  | Some t =>
      if includes (inputs t) node then h
      else
        let h1 := <[this := set_inputs t (inputs t ++ [node])]> h in
        match h1 !! node with
        | None => h1
        | Some n => <[node := set_outputs n (outputs n ++ [this])]> h1
        end
  end.

Definition removeInput (h : heap) (this node : ref) : heap :=
  match h !! this with
  | None => h
  | Some t =>
      match indexOf (inputs t) node with
      | None => h
      | Some index =>
          let h1 := <[this := set_inputs t (splice1 (inputs t) index)]> h in
          match h1 !! node with
          | None => h1
          | Some n =>
              match indexOf (outputs n) this with
              | None => h1
              | Some outIndex =>
                  <[node := set_outputs n (splice1 (outputs n) outIndex)]> h1
              end
          end
      end
  end.

Definition setValue (h : heap) (r : ref) (b : bool) : heap :=
  match h !! r with
  | None => h
  | Some n => <[r := set_value n b]> h
  end.

(** Modelled from the spec: the [compute] of [XorGate], a class that the
    canvas imports from the engine but whose text is not in the source
    at hand.  Section 4.1: true iff an odd number of its input nodes are
    true. *)
Definition xor_compute (h : heap) (n : CircuitNode) : bool :=
  Nat.odd (length (filter (λ r, valueOf h r = true) (inputs n))).

(** [compute()], dispatched on the class of the node. *)
Definition compute (h : heap) (n : CircuitNode) : bool :=
  match type n with
  | INPUT => value n
  | OUTPUT =>
      match inputs n with
      | i0 :: _ => valueOf h i0
      | [] => false
      end
  | AND => forallb (valueOf h) (inputs n)
  | OR => existsb (valueOf h) (inputs n)
  | NOT =>
      match inputs n with
      | i0 :: _ => negb (valueOf h i0)
      | [] => false
      end
  | XOR => xor_compute h n
  end.

(** ** Circuits *)

Abbreviation Circuit := (JsMap ref) (only parsing).

Definition addNode (h : heap) (c : Circuit) (node : ref) : Circuit :=
  map_set c (idOf h node) node.

Definition removeNode (h : heap) (c : Circuit) (nodeId : string)
  : heap * Circuit :=
  match map_get c nodeId with
  | None => (h, c)
  | Some node =>
      let h1 := fold_left (λ h inp, removeInput h node inp) (inputsOf h node) h in
      let h2 := fold_left (λ h out, removeInput h out node) (outputsOf h1 node) h1 in
      (h2, map_delete c nodeId)
  end.

Definition addConnection (h : heap) (c : Circuit) (fromId toId : string)
  : heap :=
  match map_get c fromId, map_get c toId with
  | Some from, Some to => addInput h to from
  | _, _ => h
  end.

(** What a call can do: return, throw, or (for the bounded model of the
    [while] loop only) use up its iteration budget. *)
Inductive exn := CycleDetectedError.

Inductive outcome (A : Type) :=
  | Ret (a : A)
  | Throw (e : exn)
  | OutOfFuel.
Arguments Ret {A} a.
Arguments Throw {A} e.
Arguments OutOfFuel {A}.

(** Step 1 of Kahn's algorithm: every node of the circuit at 0, then one
    increment per entry of every output list.  [inDegree] is looked up
    only by key, hence a [gmap]. *)
Definition initInDegree (h : heap) (ns : list ref) : gmap string Z :=
  fold_left (λ m node, <[idOf h node := 0]> m) ns ∅.

Definition bump (h : heap) (m : gmap string Z) (out : ref) : gmap string Z :=
  <[idOf h out := default 0 (m !! idOf h out) + 1]> m.

Definition countInDegree (h : heap) (ns : list ref) (m : gmap string Z)
  : gmap string Z :=
  fold_left (λ m node, fold_left (bump h) (outputsOf h node) m) ns m.

(** Step 3, the body of [u.outputs.forEach]: decrement, and enqueue on
    reaching 0.  On a key that is absent the source stores
    [undefined - 1], a NaN, which never compares equal to 0 and stays a
    NaN under further decrements: the entry is left absent here, which
    no later read distinguishes. *)
Definition relax (h : heap) (st : gmap string Z * list ref) (v : ref)
  : gmap string Z * list ref :=
  match st.1 !! idOf h v with
  | None => st
  | Some d =>
      let m' := <[idOf h v := d - 1]> st.1 in
      if d - 1 =? 0 then (m', st.2 ++ [v]) else (m', st.2)
  end.

Fixpoint processQueue (fuel : nat) (h : heap) (inDegree : gmap string Z)
    (queue sorted : list ref) : option (list ref) :=
  match queue with
  | [] => Some sorted
  | u :: q =>
      match fuel with
      | O => None
      | S fuel' =>
          let st := fold_left (relax h) (outputsOf h u) (inDegree, q) in
          processQueue fuel' h st.1 st.2 (sorted ++ [u])
      end
  end.

Definition initialQueue (h : heap) (ns : list ref) (m : gmap string Z)
  : list ref :=
  filter (λ node, m !! idOf h node = Some 0) ns.

(** Every enqueue is either initial or brings one key from 1 to 0, so
    the loop runs at most this many times ([getEvaluationOrder_total]). *)
Definition kahnFuel (c : Circuit) (m : gmap string Z) : nat :=
  (length c + size m)%nat.

Definition getEvaluationOrder (h : heap) (c : Circuit) : outcome (list ref) :=
  let ns := map_values c in
  let inDegree := countInDegree h ns (initInDegree h ns) in
  let queue := initialQueue h ns inDegree in
  match processQueue (kahnFuel c inDegree) h inDegree queue [] with
  | None => OutOfFuel
  | Some sorted =>
      if Nat.eqb (length sorted) (map_size c) then Ret sorted
      else Throw CycleDetectedError
  end.

(** [node instanceof InputNode]: each subclass constructor fixes the tag,
    so the class of an object is read off its [type]. *)
Definition isInputNode (h : heap) (r : ref) : bool :=
  bool_decide (typeOf h r = Some INPUT).

Definition evalNode (h : heap) (node : ref) : heap :=
  if isInputNode h node then h
  else match h !! node with
       | None => h
       | Some n => <[node := set_value n (compute h n)]> h
       end.

(** [evaluate()]: the store after the call and how the call ended.  The
    order is obtained before any node is written. *)
Definition evaluate (h : heap) (c : Circuit) : heap * outcome unit :=
  match getEvaluationOrder h c with
  | Ret order => (fold_left evalNode order h, Ret tt)
  | Throw e => (h, Throw e)
  | OutOfFuel => (h, OutOfFuel)
  end.

Definition getNodesByType (h : heap) (c : Circuit) (t : NodeType) : list ref :=
  filter (λ n, typeOf h n = Some t) (map_values c).

Record Row := mkRow {
  row_inputs : gmap string bool;
  row_outputs : gmap string bool;
  row_inputLabels : gmap string string
}.

Definition setInputs (h : heap) (ins : list ref) (i : Z) : heap :=
  fold_left (λ h p, setValue h p.2 (js_truthy (js_and (js_sar i (Z.of_nat p.1)) 1)))
            (imap pair ins) h.

(** [o[k] = v] on an object literal [{}], for a boolean or a string
    [v].  The key [__proto__] is not stored: it reaches the accessor
    of [Object.prototype], whose setter ignores a value that is neither
    an object nor [null].  Every other key becomes (or stays) an own
    property of [o]. *)
Definition js_assign {V} (o : gmap string V) (k : string) (v : V) : gmap string V :=
  if String.eqb k "__proto__" then o else <[k := v]> o.

Definition recordRow (h : heap) (ins outs : list ref) : Row :=
  {| row_inputs := fold_left (λ m inp, js_assign m (idOf h inp) (valueOf h inp)) ins ∅;
     row_outputs := fold_left (λ m out, js_assign m (idOf h out) (valueOf h out)) outs ∅;
     row_inputLabels := fold_left (λ m inp, js_assign m (idOf h inp) (labelOf h inp)) ins ∅ |}.

(** The [for] loop of [getTruthTable]: [todo] iterations remain, the
    next one for the assignment [i]. *)
Fixpoint truthTableLoop (todo : nat) (i : Z) (h : heap) (c : Circuit)
    (ins outs : list ref) (results : list Row) : heap * outcome (list Row) :=
  match todo with
  | O => (h, Ret results)
  | S todo' =>
      let h1 := setInputs h ins i in
      match evaluate h1 c with
      | (h2, Ret _) =>
          truthTableLoop todo' (i + 1) h2 c ins outs
                         (results ++ [recordRow h2 ins outs])
      | (h2, Throw _) => (h2, Ret [])
      | (h2, OutOfFuel) => (h2, OutOfFuel)
      end
  end.

Definition getTruthTable (h : heap) (c : Circuit) : heap * outcome (list Row) :=
  let ins := getNodesByType h c INPUT in
  let outs := getNodesByType h c OUTPUT in
  let permutations := js_shl 1 (Z.of_nat (length ins)) in
  truthTableLoop (Z.to_nat permutations) 0 h c ins outs [].

(** ** Synthesis *)

Definition startX : Z := 100.
Definition startY : Z := 100.

(** State of the builder: the store, the circuit and the array being
    filled ([inputs], then [andGates]). *)
Abbreviation builder := (heap * Circuit * list ref)%type (only parsing).

Definition createInput (st : builder) (i : nat) : builder :=
  let '(h, c, ins) := st in
  let '(h1, node) :=
    alloc h (InputNode ("INPUT_" +:+ nat_to_string i) startX
                       (startY + Z.of_nat i * 120) "INPUT") in
  (h1, addNode h1 c node, ins ++ [node]).

Fixpoint mintermsFrom (outs : list bool) (idx : nat) : list nat :=
  match outs with
  | [] => []
  | out :: outs' =>
      if out then idx :: mintermsFrom outs' (S idx)
      else mintermsFrom outs' (S idx)
  end.

Definition connectBit (inputCount : nat) (ins : list ref) (rowIdx mIdx : nat)
    (andGate : ref) (st : heap * Circuit) (bit : nat) : heap * Circuit :=
  let '(h, c) := st in
  let isOne :=
    js_and (js_sar (Z.of_nat rowIdx)
                   (Z.of_nat inputCount - 1 - Z.of_nat bit)) 1 in
  match ins !! bit with
  | None => st
  | Some inputNode =>
      if js_truthy isOne then
        (addConnection h c (idOf h inputNode) (idOf h andGate), c)
      else
        let notId := "NOT_" +:+ nat_to_string mIdx +:+ "_" +:+ nat_to_string bit in
        let '(h1, notGate) :=
          alloc h (NotGate notId (startX + 200)
                           (match h !! andGate with
                            | Some a => y a | None => 0 end
                            + Z.of_nat bit * 10 - 20)) in
        let c1 := addNode h1 c notGate in
        let h2 := addConnection h1 c1 (idOf h1 inputNode) notId in
        let h3 := addConnection h2 c1 notId (idOf h2 andGate) in
        (h3, c1)
  end.

Definition createMinterm (inputCount : nat) (ins : list ref) (st : builder)
    (p : nat * nat) : builder :=
  let '(h, c, andGates) := st in
  let '(mIdx, rowIdx) := p in
  let '(h1, andGate) :=
    alloc h (AndGate ("AND_" +:+ nat_to_string mIdx) (startX + 300)
                     (startY + Z.of_nat mIdx * 80)) in
  let c1 := addNode h1 c andGate in
  let '(h2, c2) :=
    fold_left (connectBit inputCount ins rowIdx mIdx andGate)
              (seq 0 inputCount) (h1, c1) in
  (h2, c2, andGates ++ [andGate]).

Definition generateCircuit (inputCount : nat) (outs : list bool)
  : heap * Circuit :=
  let '(h0, c0, ins) := fold_left createInput (seq 0 inputCount) ([], [], []) in
  let minterms := mintermsFrom outs 0 in
  if Nat.eqb (length minterms) 0 then
    let '(h1, out) := alloc h0 (OutputNode "OUTPUT_FINAL" (startX + 600) (startY + 200)) in
    (h1, addNode h1 c0 out)
  else
    let '(h1, c1, andGates) :=
      fold_left (createMinterm inputCount ins) (imap pair minterms) (h0, c0, []) in
    let '(h2, orGate) := alloc h1 (OrGate "OR_FINAL" (startX + 500) (startY + 200)) in
    let c2 := addNode h2 c1 orGate in
    let h3 :=
      fold_left (λ h g, addConnection h c2 (idOf h g) (idOf h orGate)) andGates h2 in
    let '(h4, finalOut) :=
      alloc h3 (OutputNode "OUTPUT" (startX + 600)
                           (match h3 !! orGate with Some o => y o | None => 0 end)) in
    let c3 := addNode h4 c2 finalOut in
    let h5 := addConnection h4 c3 (idOf h4 orGate) (idOf h4 finalOut) in
    (h5, c3).

(** ** Vocabulary of the specification *)

(** The edge A → B as each endpoint records it. *)
Definition edge (h : heap) (a b : ref) : Prop := b ∈ outputsOf h a.

(** Section 3: the two lists are inverse views of one another, and no
    ordered pair is recorded twice. *)
Definition edges_symmetric (h : heap) : Prop :=
  ∀ a b, a ∈ inputsOf h b ↔ b ∈ outputsOf h a.

Definition edges_unique (h : heap) : Prop :=
  ∀ r, NoDup (inputsOf h r) ∧ NoDup (outputsOf h r).

Definition edge_inv (h : heap) : Prop :=
  edges_symmetric h ∧ edges_unique h.

(** A script over the public mutation operations.  The script names
    objects by reference; naming an object that was never created is
    not something a caller can do, and such a step does nothing. *)
Inductive op :=
  | OpNew (i : string) (t : NodeType) (px py : Z) (l : string)
  | OpAddInput (this node : ref)
  | OpRemoveInput (this node : ref)
  | OpAddNode (node : ref)
  | OpRemoveNode (nodeId : string)
  | OpAddConnection (fromId toId : string).

Definition live (h : heap) (r : ref) : bool := Nat.ltb r (length h).

Definition run_op (st : heap * Circuit) (o : op) : heap * Circuit :=
  let '(h, c) := st in
  match o with
  | OpNew i t px py l => ((alloc h (newCircuitNode i t px py l)).1, c)
  | OpAddInput this node =>
      if live h this && live h node then (addInput h this node, c) else st
  | OpRemoveInput this node =>
      if live h this && live h node then (removeInput h this node, c) else st
  | OpAddNode node =>
      if live h node then (h, addNode h c node) else st
  | OpRemoveNode nodeId => removeNode h c nodeId
  | OpAddConnection fromId toId => (addConnection h c fromId toId, c)
  end.

Definition run_ops (ops : list op) : heap * Circuit :=
  fold_left run_op ops ([], []).

(** Sections 3 and 4.2: what makes a store and a node mapping a circuit.
    The mapping has one entry per key and keys each node by its own id;
    an edge that touches a member has both endpoints among the members;
    the edge lists are symmetric and duplicate-free. *)
Record wf_circuit (h : heap) (c : Circuit) : Prop := {
  wf_keys : NoDup (map_keys c);
  wf_ids : ∀ k r, (k, r) ∈ c → ∃ n, h !! r = Some n ∧ id n = k;
  wf_closed : ∀ a b, edge h a b →
                a ∈ map_values c ∨ b ∈ map_values c →
                a ∈ map_values c ∧ b ∈ map_values c;
  wf_edges : edge_inv h
}.

Definition has_cycle (h : heap) (c : Circuit) : Prop :=
  ∃ r, r ∈ map_values c ∧ tc (edge h) r r.

Definition acyclic (h : heap) (c : Circuit) : Prop := ¬ has_cycle h c.

(** [a] stands strictly before [b] in the sequence [l]. *)
Definition before (l : list ref) (a b : ref) : Prop :=
  ∃ i j, l !! i = Some a ∧ l !! j = Some b ∧ (i < j)%nat.

(** The number of inputs of a node that currently hold true. *)
Definition trueInputs (h : heap) (n : CircuitNode) : nat :=
  length (filter (λ r, valueOf h r = true) (inputs n)).

(** The bit that [getTruthTable] gives to the input at position [j] for
    the assignment [i]: [!!((i >> j) & 1)]. *)
Definition jsBit (i : Z) (j : nat) : bool :=
  js_truthy (js_and (js_sar i (Z.of_nat j)) 1).

(** Which bit of the row index the [j]-th of [n] INPUT nodes gets. *)
Definition msb_first (n j : nat) : nat := (n - 1 - j)%nat.
Definition lsb_first (n j : nat) : nat := j.

(** The table of a circuit has one row per assignment, in ascending
    order of the assignment integer, and row [i] records for the
    [j]-th INPUT node (in the iteration order of the circuit) the bit
    [bitpos n j] of [i]. *)
Definition table_enumerates (bitpos : nat → nat → nat) (h : heap) (c : Circuit)
  : Prop :=
  let ins := getNodesByType h c INPUT in
  ∃ rows, (getTruthTable h c).2 = Ret rows ∧
    length rows = (2 ^ length ins)%nat ∧
    ∀ i j inp row, rows !! i = Some row → ins !! j = Some inp →
      row_inputs row !! idOf h inp =
        Some (Z.testbit (Z.of_nat i) (Z.of_nat (bitpos (length ins) j))).

(** The index obtained by reading the [n] low bits of [i] in the other
    direction: bit [b] of [i] becomes bit [n - 1 - b]. *)
Fixpoint reverse_bits (n : nat) (i : Z) : Z :=
  match n with
  | O => 0
  | S n' => 2 * reverse_bits n' i + Z.b2z (Z.testbit i (Z.of_nat n'))
  end.

(** The column of output values of a table: per row, the values
    recorded for the OUTPUT nodes. *)
Definition output_column (rows : list Row) : list (list bool) :=
  (λ row, (map_to_list (row_outputs row)).*2) <$> rows.

(** The table of the synthesized circuit, when [getTruthTable] returns
    one. *)
Definition synthesized_table (n : nat) (outs : list bool) : option (list Row) :=
  match (getTruthTable (generateCircuit n outs).1 (generateCircuit n outs).2).2 with
  | Ret rows => Some rows
  | _ => None
  end.

(** What row [i] of the table records for the input with id [k]. *)
Definition table_bit (h : heap) (c : Circuit) (i : nat) (k : string)
  : option bool :=
  match (getTruthTable h c).2 with
  | Ret rows => rows !! i ≫= λ row, row_inputs row !! k
  | _ => None
  end.

(** The test [isOne] of the synthesis loop, for variable [b] of [n] and
    the minterm [row]. *)
Definition isOne (n row b : nat) : bool :=
  js_truthy (js_and (js_sar (Z.of_nat row) (Z.of_nat n - 1 - Z.of_nat b)) 1).

(** The sum of products over the minterms [ms] at the assignment [v]
    of the variables, each minterm read with the test of the synthesis
    loop. *)
Definition minterm_matches (n row : nat) (v : nat → bool) : bool :=
  forallb (λ b, Bool.eqb (v b) (isOne n row b)) (seq 0 n).

Definition sum_of_products (n : nat) (ms : list nat) (v : nat → bool) : bool :=
  existsb (λ row, minterm_matches n row v) ms.

(** Round trip as the specification has it: the output column of the
    table is the vector that was synthesized. *)
Definition round_trip (n : nat) (outs : list bool) : Prop :=
  ∃ rows, synthesized_table n outs = Some rows ∧
          output_column rows = (λ b, [b]) <$> outs.

(** The table of the synthesized circuit holds in row [i] the entry of
    the vector at the bit reversal of [i]. *)
Definition round_trip_reversed (n : nat) (outs : list bool) : Prop :=
  ∃ rows, synthesized_table n outs = Some rows ∧
          output_column rows =
            (λ i, [default false (outs !! Z.to_nat (reverse_bits n (Z.of_nat i)))])
              <$> seq 0 (2 ^ n).

(** Section 4.3, step 3, as the specification has it: the circuit holds
    a single node, an OUTPUT without edges. *)
Definition only_an_output (h : heap) (c : Circuit) : Prop :=
  ∃ o, map_values c = [o] ∧ typeOf h o = Some OUTPUT ∧
       inputsOf h o = [] ∧ outputsOf h o = [].

(** Number of variables of [n] at which the minterm [row] has a zero
    bit; variable [b] reads bit [n - 1 - b]. *)
Definition zero_bits (n row : nat) : nat :=
  length (filter (λ b, Z.testbit (Z.of_nat row) (Z.of_nat (n - 1 - b)) = false)
                 (seq 0 n)).

(** A circuit of two INPUT nodes and nothing else. *)
Definition two_inputs_ops : list op :=
  [ OpNew "a" INPUT 0 0 "INPUT"; OpNew "b" INPUT 0 0 "INPUT";
    OpAddNode 0; OpAddNode 1 ].

(** A checker for [wf_circuit] on a concrete store. *)
Definition memberb (c : Circuit) (r : ref) : bool :=
  bool_decide (r ∈ map_values c).

Definition wf_circuitb (h : heap) (c : Circuit) : bool :=
  bool_decide (NoDup (map_keys c)) &&
  forallb (λ p, match h !! p.2 with
                | Some n => String.eqb (id n) p.1
                | None => false
                end) c &&
  forallb (λ a,
    forallb (λ b, Bool.eqb (memberb c a) (memberb c b) &&
                  bool_decide (a ∈ inputsOf h b)) (outputsOf h a) &&
    forallb (λ b, bool_decide (a ∈ outputsOf h b)) (inputsOf h a) &&
    bool_decide (NoDup (inputsOf h a)) &&
    bool_decide (NoDup (outputsOf h a))) (seq 0 (length h)).

(** Two small circuits built by scripts: an input feeding an inverter
    feeding an output, and an inverter wired back to itself through an
    AND gate. *)
Definition chain_ops : list op :=
  [ OpNew "i" INPUT 0 0 "INPUT"; OpNew "n" NOT 0 0 EmptyString; OpNew "o" OUTPUT 0 0 EmptyString;
    OpAddNode 0; OpAddNode 1; OpAddNode 2;
    OpAddConnection "i" "n"; OpAddConnection "n" "o" ].

Definition ring_ops : list op :=
  [ OpNew "n" NOT 0 0 EmptyString; OpNew "a" AND 0 0 EmptyString;
    OpAddNode 0; OpAddNode 1;
    OpAddConnection "n" "a"; OpAddConnection "a" "n" ].

(** ** Auxiliary notions of the proofs *)

(** Every write of the engine replaces one object by a copy that
    differs in one field. *)
Definition upd (h : heap) (r : ref) (f : CircuitNode → CircuitNode) : heap :=
  match h !! r with Some n => <[r := f n]> h | None => h end.

(** What a write leaves alone, field by field. *)
Definition same_but_edges (h h' : heap) : Prop :=
  length h' = length h ∧
  ∀ r, idOf h' r = idOf h r ∧ typeOf h' r = typeOf h r ∧
       valueOf h' r = valueOf h r ∧ labelOf h' r = labelOf h r.

Definition same_but_values (h h' : heap) : Prop :=
  length h' = length h ∧
  ∀ r, idOf h' r = idOf h r ∧ typeOf h' r = typeOf h r ∧
       inputsOf h' r = inputsOf h r ∧ outputsOf h' r = outputsOf h r ∧
       labelOf h' r = labelOf h r.

(** What a script maintains: the edge invariant, and a node mapping
    that only holds objects of the store. *)
Definition script_inv (st : heap * Circuit) : Prop :=
  edge_inv st.1 ∧ ∀ k r, (k, r) ∈ st.2 → (r < length st.1)%nat.

(** Number of occurrences of [v] in [l]. *)
Definition mult (v : ref) (l : list ref) : nat :=
  length (filter (λ a, a = v) l).

(** The store right after [evaluate] for the assignment [i]: same
    objects as [h], inputs set to the bits of [i], every other node of
    the circuit at the value of its [compute]. *)
Definition evaluated_at (h : heap) (c : Circuit) (ins : list ref) (i : Z)
    (hk : heap) : Prop :=
  same_but_values h hk ∧
  (∀ j inp, ins !! j = Some inp → valueOf hk inp = jsBit i j) ∧
  (∀ r n', r ∈ map_values c → hk !! r = Some n' →
           type n' ≠ INPUT → value n' = compute hk n').

(** The identifiers that synthesis hands out. *)
Definition inputId (i : nat) : string := "INPUT_" +:+ nat_to_string i.
Definition andId (m : nat) : string := "AND_" +:+ nat_to_string m.
Definition notId (m b : nat) : string :=
  "NOT_" +:+ nat_to_string m +:+ "_" +:+ nat_to_string b.

Fixpoint has_underscore (s : string) : bool :=
  match s with
  | EmptyString => false
  | String a s' => Ascii.eqb a "_"%char || has_underscore s'
  end.

(** The node mapping of a store every object of which was added, in
    order of creation, under an id of its own. *)
Definition circuit_of (h : heap) : Circuit := imap (λ r n, (id n, r)) h.

(** The store after step 1 of synthesis. *)
Definition inputNodes (n : nat) : heap :=
  (λ i, InputNode (inputId i) startX (startY + Z.of_nat i * 120) "INPUT") <$> seq 0 n.

(** The store that synthesis returns for a vector without a true
    entry. *)
Definition constantCircuit (n : nat) : heap :=
  inputNodes n ++ [OutputNode "OUTPUT_FINAL" (startX + 600) (startY + 200)].

(** The layer of a node in a synthesized circuit. *)
Definition layer (h : heap) (r : ref) : nat :=
  match typeOf h r with
  | Some NOT => 1
  | Some AND => 2
  | Some OR => 3
  | Some OUTPUT => 4
  | _ => 0
  end.

Definition layered (h : heap) : Prop :=
  ∀ a b, edge h a b → (layer h a < layer h b)%nat.

(** Invariant of the builder: all objects are in the mapping, ids are
    distinct, edges are symmetric and go up the layers. *)
Record built (h : heap) (c : Circuit) : Prop := {
  b_circuit : c = circuit_of h;
  b_ids : NoDup (id <$> h);
  b_edges : edge_inv h;
  b_layers : layered h
}.

(** A literal of variable [b]: the INPUT node itself, or an inverter
    fed by it alone. *)
Definition lit_ok (h : heap) (one : bool) (b l : ref) : Prop :=
  if one then l = b else typeOf h l = Some NOT ∧ inputsOf h l = [b].

(** The AND gate of the minterm [row]: one literal per variable, in
    order. *)
Definition and_ok (h : heap) (n row : nat) (g : ref) : Prop :=
  typeOf h g = Some AND ∧ length (inputsOf h g) = n ∧
  ∀ b l, inputsOf h g !! b = Some l → lit_ok h (isOne n row b) b l.

(** Number of variables among the first [k] that the minterm [row]
    takes negated. *)
Definition zerosUpTo (n row k : nat) : nat :=
  length (filter (λ b, isOne n row b = false) (seq 0 k)).

(** The kinds of the objects that one minterm contributes, in order of
    creation. *)
Definition mintermTypes (n row : nat) : list NodeType :=
  AND :: replicate (zerosUpTo n row n) NOT.

(** An identifier handed out before minterm [M] is started. *)
Definition early_id (M : nat) (k : string) : Prop :=
  (∃ i, k = inputId i) ∨ (∃ m, (m < M)%nat ∧ k = andId m) ∨
  (∃ m b, (m < M)%nat ∧ k = notId m b).

(** Invariant of the loop over the minterms, [M] of them done. *)
Record minterms_inv (n : nat) (ms : list nat) (M : nat)
    (h : heap) (c : Circuit) (andGates : list ref) : Prop := {
  mi_built : built h c;
  mi_len : (n ≤ length h)%nat;
  mi_inputs : ∀ b, (b < n)%nat → typeOf h b = Some INPUT;
  mi_gates_len : length andGates = M;
  mi_gates_nodup : NoDup andGates;
  mi_gates : ∀ m g, andGates !! m = Some g →
      (g < length h)%nat ∧ ∃ row, ms !! m = Some row ∧ and_ok h n row g;
  mi_types : type <$> h =
      replicate n INPUT ++ concat (mintermTypes n <$> take M ms);
  mi_ids : ∀ k, k ∈ id <$> h → early_id M k
}.

(** What step 3 to 6 of synthesis leave behind for the minterms [ms]:
    the OUTPUT node is the last object, fed by the OR gate before it,
    which is fed by the AND gates of the minterms in order. *)
Record synthesized (n : nat) (ms : list nat) (h : heap) (c : Circuit) : Prop := {
  sy_built : built h c;
  sy_types : type <$> h =
      replicate n INPUT ++ concat (mintermTypes n <$> ms) ++ [OR; OUTPUT];
  sy_gates : ∃ andGates, length andGates = length ms ∧
      (∀ m g, andGates !! m = Some g →
         ∃ row, ms !! m = Some row ∧ and_ok h n row g) ∧
      inputsOf h (length h - 2) = andGates;
  sy_output : inputsOf h (length h - 1) = [(length h - 2)%nat];
  sy_output_id : idOf h (length h - 1) = "OUTPUT"
}.

(** Where a kind occurs in a list of kinds, counted from [s]. *)
Fixpoint positions (t : NodeType) (T : list NodeType) (s : nat) : list nat :=
  match T with
  | [] => []
  | x :: T' =>
      if decide (x = t) then s :: positions t T' (S s) else positions t T' (S s)
  end.

Definition countType (t : NodeType) (T : list NodeType) : nat :=
  length (filter (λ x, x = t) T).

(** Number of keys whose count is still positive: with the length of the
    queue, what the [while] loop of [getEvaluationOrder] uses up. *)
Definition positives (m : gmap string Z) : nat :=
  size (filter (λ kv, 0 < kv.2) m).

(** Targets of the edges that leave nodes not yet sorted. *)
Definition pending (h : heap) (c : Circuit) (sorted : list ref) : list ref :=
  filter (λ u, u ∉ sorted) (map_values c) ≫= outputsOf h.

(** Invariant of the [while] loop of [getEvaluationOrder]. *)
Record kahn_inv (h : heap) (c : Circuit) (m : gmap string Z)
    (queue sorted : list ref) : Prop := {
  ki_nodup : NoDup (sorted ++ queue);
  ki_members : ∀ v, v ∈ sorted ++ queue → v ∈ map_values c;
  ki_count : ∀ v, v ∈ map_values c →
      m !! idOf h v = Some (Z.of_nat (mult v (pending h c sorted)));
  ki_zero : ∀ v, v ∈ map_values c →
      (v ∈ sorted ++ queue ↔ mult v (pending h c sorted) = 0%nat);
  ki_topo : ∀ j b, sorted !! j = Some b → ∀ a, a ∈ map_values c → edge h a b →
      ∃ i, (i < j)%nat ∧ sorted !! i = Some a
}.

(** What the loop has established when the queue is empty. *)
Record kahn_done (h : heap) (c : Circuit) (sorted : list ref) : Prop := {
  kd_nodup : NoDup sorted;
  kd_members : ∀ v, v ∈ sorted → v ∈ map_values c;
  kd_zero : ∀ v, v ∈ map_values c →
      (v ∈ sorted ↔ mult v (pending h c sorted) = 0%nat);
  kd_topo : ∀ j b, sorted !! j = Some b → ∀ a, a ∈ map_values c → edge h a b →
      ∃ i, (i < j)%nat ∧ sorted !! i = Some a
}.

(** ** A store at rest *)

(** Every node of the circuit that is not an INPUT node holds the
    value that its [compute] gives on the store as it is. *)
Definition settled (h : heap) (c : Circuit) : Prop :=
  ∀ r n', r ∈ map_values c → h !! r = Some n' →
          type n' ≠ INPUT → value n' = compute h n'.

(** ** The dialogs ([ui/modal.ts]) *)

(** [modal.ts], the table of the synthesis dialog: the digit shown in
    row [i] for variable [j] of [count], [(i >> (count - 1 - j)) & 1]. *)
Definition synthesisCell (count i j : Z) : Z :=
  js_and (js_sar i (count - 1 - j)) 1.

(** A DOM element as far as the generators fill it: tag, class names in
    the order they are added, text, children; or an element whose
    content was given as markup. *)
#[warnings="-register-all"]
Inductive Element :=
  | Elem (tagName : string) (classes : list string) (innerText : string)
         (children : list Element)
  | Markup (tagName : string) (innerHTML : string).

(** Text.  A [string] holds the UTF-8 bytes of a JavaScript string (a
    surrogate that stands alone as the three bytes of its value);
    [substring] and the default comparator of [sort] count and compare
    UTF-16 code units.  [utf16_units] gives the code units of a text:
    one per character of one, two or three bytes, a surrogate pair for
    a character of four bytes.  A byte that starts no well-formed
    sequence belongs to no JavaScript string and is passed through. *)
Fixpoint utf16_units (s : string) : list N :=
  match s with
  | EmptyString => []
  | String a0 s1 =>
      let b0 := N_of_ascii a0 in
      if (b0 <? 192)%N then b0 :: utf16_units s1
      else if (b0 <? 224)%N then
        match s1 with
        | String a1 s2 =>
            ((b0 - 192) * 64 + (N_of_ascii a1 - 128))%N :: utf16_units s2
        | _ => b0 :: utf16_units s1
        end
      else if (b0 <? 240)%N then
        match s1 with
        | String a1 (String a2 s3) =>
            ((b0 - 224) * 4096 + (N_of_ascii a1 - 128) * 64
             + (N_of_ascii a2 - 128))%N :: utf16_units s3
        | _ => b0 :: utf16_units s1
        end
      else
        match s1 with
        | String a1 (String a2 (String a3 s4)) =>
            let cp := ((b0 - 240) * 262144 + (N_of_ascii a1 - 128) * 4096
                       + (N_of_ascii a2 - 128) * 64 + (N_of_ascii a3 - 128))%N in
            (55296 + (cp - 65536) / 1024)%N
              :: (56320 + (cp - 65536) mod 1024)%N :: utf16_units s4
        | _ => b0 :: utf16_units s1
        end
  end.

Definition three_bytes (u : N) (rest : string) : string :=
  String (ascii_of_N (224 + u / 4096))
    (String (ascii_of_N (128 + (u / 64) mod 64))
       (String (ascii_of_N (128 + u mod 64)) rest)).

(** The text with the given code units. *)
Fixpoint utf8_of_units (l : list N) : string :=
  match l with
  | [] => EmptyString
  | u :: l1 =>
      if (u <? 128)%N then String (ascii_of_N u) (utf8_of_units l1)
      else if (u <? 2048)%N then
        String (ascii_of_N (192 + u / 64))
          (String (ascii_of_N (128 + u mod 64)) (utf8_of_units l1))
      else
        match l1 with
        | v :: l2 =>
            if ((55296 <=? u) && (u <? 56320) && (56320 <=? v) && (v <? 57344))%N
            then
              let cp := (65536 + (u - 55296) * 1024 + (v - 56320))%N in
              String (ascii_of_N (240 + cp / 262144))
                (String (ascii_of_N (128 + (cp / 4096) mod 64))
                   (String (ascii_of_N (128 + (cp / 64) mod 64))
                      (String (ascii_of_N (128 + cp mod 64)) (utf8_of_units l2))))
            else three_bytes u (utf8_of_units l1)
        | [] => three_bytes u EmptyString
        end
  end.

(** [s.substring(a, b)]: the code units from the smaller index up to
    the larger one, either cut off at the length. *)
Definition js_substring (a b : nat) (s : string) : string :=
  utf8_of_units (take (Nat.max a b - Nat.min a b) (drop (Nat.min a b) (utf16_units s))).

(** The order of the default comparator of [Array.prototype.sort] on
    strings: code unit by code unit, a proper prefix first. *)
Fixpoint units_leb (u v : list N) : bool :=
  match u, v with
  | [], _ => true
  | _ :: _, [] => false
  | a :: u', b :: v' =>
      if (a <? b)%N then true else if (b <? a)%N then false else units_leb u' v'
  end.

Definition string_le (a b : string) : Prop :=
  units_leb (utf16_units a) (utf16_units b) = true.

Global Instance string_le_dec : RelDecision string_le.
Proof. intros a b. unfold string_le. apply _. Defined.

(** [Object.keys(o).sort()]: the own keys of [o], which are pairwise
    distinct, in ascending order. *)
Definition sortedKeys {V} (o : gmap string V) : list string :=
  merge_sort string_le (map_to_list o).*1.

(** The property names of [Object.prototype], the prototype of an
    object written as [{}]. *)
Definition objectPrototypeNames : list string :=
  [ "constructor"; "hasOwnProperty"; "isPrototypeOf"; "propertyIsEnumerable";
    "toLocaleString"; "toString"; "valueOf"; "__proto__";
    "__defineGetter__"; "__defineSetter__"; "__lookupGetter__"; "__lookupSetter__" ].

(** Whether [o[k]] is truthy: the value of the object's own key; for a
    key it does not have, what the prototype gives, a function or, for
    [__proto__], the prototype itself; [undefined] otherwise. *)
Definition js_read (o : gmap string bool) (k : string) : bool :=
  match o !! k with
  | Some v => v
  | None => bool_decide (k ∈ objectPrototypeNames)
  end.

(** A body cell: [o[k] ? '1' : '0']. *)
Definition valueCell (o : gmap string bool) (extra : list string) (k : string)
  : Element :=
  if js_read o k then Elem "td" ("val-1" :: extra) "1" []
  else Elem "td" ("val-0" :: extra) "0" [].

Definition generateTruthTableHTML (data : list Row) : Element :=
  match data with
  | [] => Markup "div" "<h3>No inputs/outputs found to generate a table.</h3>"
  | firstRow :: _ =>
      let inputKeys := sortedKeys (row_inputs firstRow) in
      let outputKeys := sortedKeys (row_outputs firstRow) in
      let trHead :=
        Elem "tr" [] EmptyString
             (((λ k, Elem "th" [] (js_substring 0 4 k) []) <$> inputKeys) ++
              ((λ k, Elem "th" ["output-col"] "OUT" []) <$> outputKeys)) in
      let thead := Elem "thead" [] EmptyString [trHead] in
      let tbody :=
        Elem "tbody" [] EmptyString
             ((λ row, Elem "tr" [] EmptyString
                           ((valueCell (row_inputs row) [] <$> inputKeys) ++
                            (valueCell (row_outputs row) ["output-col"] <$> outputKeys)))
                <$> data) in
      Elem "div" [] EmptyString [Elem "table" ["truth-table"] EmptyString [thead; tbody]]
  end.

(** ** The canvas ([ui/canvas.ts]) *)

(** The fields of [CanvasManager] that the handlers read or write to
    decide what happens to the circuit, and the text of the
    [#status-msg] element ([None] on a page without one).  What the
    handlers draw (gate elements, wires, CSS classes) is left out. *)
Record CanvasManager := mkCanvasManager {
  circuit : Circuit;
  draggedNodeId : option string;
  isDrawingWire : bool;
  wireStartNode : option ref;
  statusMsg : option string
}.

Definition set_status (cm : CanvasManager) (s : string) : CanvasManager :=
  {| circuit := circuit cm; draggedNodeId := draggedNodeId cm;
     isDrawingWire := isDrawingWire cm; wireStartNode := wireStartNode cm;
     statusMsg := (λ _, s) <$> statusMsg cm |}.

Definition set_circuit (cm : CanvasManager) (c : Circuit) : CanvasManager :=
  {| circuit := c; draggedNodeId := draggedNodeId cm;
     isDrawingWire := isDrawingWire cm; wireStartNode := wireStartNode cm;
     statusMsg := statusMsg cm |}.

Definition set_wire (cm : CanvasManager) (drawing : bool) (start : option ref)
  : CanvasManager :=
  {| circuit := circuit cm; draggedNodeId := draggedNodeId cm;
     isDrawingWire := drawing; wireStartNode := start;
     statusMsg := statusMsg cm |}.

(** [updateSimulation]: the status text is cleared, the circuit is
    evaluated, and a [CycleDetectedError] is reported in the status
    text; anything else that is caught is only logged. *)
Definition updateSimulation (st : heap * CanvasManager) : heap * CanvasManager :=
  let '(h, cm) := st in
  let cm0 := set_status cm EmptyString in
  match evaluate h (circuit cm) with
  | (h', Throw CycleDetectedError) => (h', set_status cm0 "Error: Feedback Loop Detected!")
  | (h', _) => (h', cm0)
  end.

Arguments updateSimulation : simpl never.

(** [createNode], with the identifier that [crypto.randomUUID()]
    returned.  The tag is the text that the drop carries; a text that
    is no tag creates nothing. *)
Definition createNode (st : heap * CanvasManager) (uuid : string)
    (type : string) (px py : Z) : heap * CanvasManager :=
  let '(h, cm) := st in
  let node :=
    match type with
    | "AND" => Some (AndGate uuid px py)
    | "OR" => Some (OrGate uuid px py)
    | "NOT" => Some (NotGate uuid px py)
    | "XOR" => Some (XorGate uuid px py)
    | "INPUT" => Some (InputNode uuid px py "INPUT")
    | "OUTPUT" => Some (OutputNode uuid px py)
    | _ => None
    end in
  match node with
  | None => st
  | Some n =>
      let '(h1, r) := alloc h n in
      (h1, set_circuit cm (addNode h1 (circuit cm) r))
  end.

(** Truthiness of [string | null]: [null] and the empty string are
    falsy. *)
Definition truthy_id (s : option string) : bool :=
  match s with
  | Some (String _ _) => true
  | _ => false
  end.

(** The [click] listener that [renderNode] gives to the element of an
    INPUT node. *)
Definition inputClick (st : heap * CanvasManager) (node : ref) : heap * CanvasManager :=
  let '(h, cm) := st in
  if truthy_id (draggedNodeId cm) then st
  else updateSimulation (setValue h node (negb (valueOf h node)), cm).

(** [handleWireStart]: the manager starts drawing from [node]. *)
Definition handleWireStart (st : heap * CanvasManager) (node : ref)
  : heap * CanvasManager :=
  (st.1, set_wire st.2 true (Some node)).

(** The [mouseup] listener that [handleWireStart] leaves on the window. *)
Definition wireUp (st : heap * CanvasManager) : heap * CanvasManager :=
  (st.1, set_wire st.2 false None).

(** [handleWireEnd]: the connection is made by the ids of the two
    nodes; the fields of the wire are not written. *)
Definition handleWireEnd (st : heap * CanvasManager) (targetNode : ref)
  : heap * CanvasManager :=
  let '(h, cm) := st in
  match wireStartNode cm with
  | Some start =>
      if isDrawingWire cm && negb (Nat.eqb start targetNode) then
        updateSimulation
          (addConnection h (circuit cm) (idOf h start) (idOf h targetNode), cm)
      else st
  | None => st
  end.

(** What the user does on the canvas: a drop from the sidebar (with
    the identifier drawn for it), a mouse-down on the output pin of a
    node, a mouse-up on the input pin of a node, a mouse-up that
    reaches the window, a click on a node. *)
Inductive event :=
  | Drop (uuid type : string) (px py : Z)
  | PinDown (node : ref)
  | PinUp (node : ref)
  | WindowUp
  | Click (node : ref).

Definition hasType (h : heap) (node : ref) (t : NodeType) : bool :=
  bool_decide (typeOf h node = Some t).

(** The listeners that [renderNode] and [setupSidebarEvents] have
    registered: an OUTPUT node has no output pin, an INPUT node has no
    input pin, and only INPUT nodes listen to clicks. *)
Definition handle (st : heap * CanvasManager) (e : event) : heap * CanvasManager :=
  match e with
  | Drop uuid type px py => createNode st uuid type px py
  | PinDown node =>
      if hasType st.1 node OUTPUT then st else handleWireStart st node
  | PinUp node =>
      if hasType st.1 node INPUT then st else handleWireEnd st node
  | WindowUp => wireUp st
  | Click node =>
      if hasType st.1 node INPUT then inputClick st node else st
  end.

(** The manager right after its constructor, on a page whose status
    element holds [status] (or that has none). *)
Definition newCanvas (status : option string) : heap * CanvasManager :=
  ([], {| circuit := []; draggedNodeId := None; isDrawingWire := false;
          wireStartNode := None; statusMsg := status |}).

(** The identifiers drawn during a session, one per drop. *)
Definition uuids (evs : list event) : list string :=
  evs ≫= λ e, match e with Drop uuid _ _ _ => [uuid] | _ => [] end.

(** ** More circuits and canvas sessions for the examples *)

(** A script that creates [k] INPUT nodes and adds them to the circuit. *)
Definition inputs_ops (k : nat) : list op :=
  ((λ i, OpNew (nat_to_string i) INPUT 0 0 "INPUT") <$> seq 0 k) ++ (OpAddNode <$> seq 0 k).


(** Two inverters in a row on the canvas, the second wire about to be
    drawn back from the second to the first. *)
Definition loop_events : list event :=
  [ Drop "a" "NOT" 0 0; Drop "b" "NOT" 100 0;
    PinDown 0; PinUp 1; WindowUp; PinDown 1 ].

(** Three gates dropped on the canvas, not yet wired. *)
Definition fan_events : list event :=
  [ Drop "a" "INPUT" 0 0; Drop "b" "NOT" 100 0; Drop "c" "OUTPUT" 100 100 ].

(** * Properties *)

(** ** Lists of references *)

Lemma includes_spec (l : list ref) (r : ref) : includes l r = true ↔ r ∈ l.
Proof.
  unfold includes. rewrite existsb_exists. split.
  - intros (a & Ha & E). apply Nat.eqb_eq in E. subst. by apply list_elem_of_In.
  - intros H. exists r. split; [by apply list_elem_of_In | apply Nat.eqb_refl].
Qed.

Lemma indexOf_None (l : list ref) (r : ref) : indexOf l r = None ↔ r ∉ l.
Proof.
  induction l as [|a l IH]; simpl.
  - split; [intros _; apply not_elem_of_nil | done].
  - rewrite not_elem_of_cons. destruct (Nat.eqb_spec a r) as [->|Hne].
    + split; [done | intros [? _]; done].
    + destruct (indexOf l r) eqn:E; simpl.
      * split; [done|]. intros [_ H]. by apply IH in H.
      * split; [|done]. intros _. split; [congruence | by apply IH].
Qed.

Lemma indexOf_split (l : list ref) (r : ref) (i : nat) :
  indexOf l r = Some i →
  ∃ l1 l2, l = l1 ++ (r :: l2) ∧ (r ∉ l1) ∧ splice1 l i = l1 ++ l2.
Proof.
  revert i. induction l as [|a l IH]; intros i; simpl; [done|].
  destruct (Nat.eqb_spec a r) as [->|Hne].
  - intros [= <-]. exists [], l. split; [done|]. split; [apply not_elem_of_nil|].
    unfold splice1. simpl. by rewrite drop_0.
  - destruct (indexOf l r) as [j|] eqn:E; simpl; [|done].
    intros [= <-]. destruct (IH j eq_refl) as (l1 & l2 & -> & Hn & Hs).
    exists (a :: l1), l2. split; [done|]. split.
    + rewrite not_elem_of_cons. split; [congruence | done].
    + unfold splice1 in *. simpl. by rewrite Hs.
Qed.

Lemma indexOf_head (l : list ref) (r : ref) :
  indexOf (r :: l) r = Some 0%nat ∧ splice1 (r :: l) 0 = l.
Proof.
  simpl. rewrite Nat.eqb_refl. split; [done|]. unfold splice1. simpl. by rewrite drop_0.
Qed.

Lemma splice1_elem_of (l : list ref) (r a : ref) (i : nat) :
  NoDup l → indexOf l r = Some i → (a ∈ splice1 l i ↔ a ∈ l ∧ a ≠ r).
Proof.
  intros Hnd Hi. destruct (indexOf_split _ _ _ Hi) as (l1 & l2 & -> & Hn & ->).
  apply NoDup_app in Hnd as (_ & Hd & Hnd2). apply NoDup_cons in Hnd2 as [Hr2 _].
  rewrite !elem_of_app, elem_of_cons. split.
  - intros [H|H]; (split; [tauto|]); intros ->; tauto.
  - intros [[H|[->|H]] Hne]; tauto.
Qed.

Lemma splice1_NoDup (l : list ref) (r : ref) (i : nat) :
  NoDup l → indexOf l r = Some i → NoDup (splice1 l i).
Proof.
  intros Hnd Hi. destruct (indexOf_split _ _ _ Hi) as (l1 & l2 & -> & Hn & ->).
  apply NoDup_app in Hnd as (H1 & Hd & Hnd2). apply NoDup_cons in Hnd2 as [Hr2 H2].
  apply NoDup_app. split; [done|]. split; [|done].
  intros a Ha Ha2. apply (Hd a Ha). by apply elem_of_cons; right.
Qed.

(** ** The [Map] model *)

Lemma map_get_set_eq {V} (m : JsMap V) k v : map_get (map_set m k v) k = Some v.
Proof.
  induction m as [|[k' v'] m IH]; simpl.
  - by rewrite String.eqb_refl.
  - destruct (String.eqb_spec k' k) as [->|Hne]; simpl.
    + by rewrite String.eqb_refl.
    + destruct (String.eqb_spec k' k); [done | apply IH].
Qed.

Lemma map_get_set_ne {V} (m : JsMap V) k k' v :
  k ≠ k' → map_get (map_set m k v) k' = map_get m k'.
Proof.
  intros Hne. induction m as [|[k0 v0] m IH]; simpl.
  - destruct (String.eqb_spec k k'); [done | done].
  - destruct (String.eqb_spec k0 k) as [->|Hne0]; simpl.
    + destruct (String.eqb_spec k k'); [done | done].
    + destruct (String.eqb_spec k0 k'); [done | apply IH].
Qed.

Lemma map_get_Some {V} (m : JsMap V) k v :
  map_get m k = Some v → (k, v) ∈ m.
Proof.
  induction m as [|[k0 v0] m IH]; simpl; [done|].
  destruct (String.eqb_spec k0 k) as [->|Hne].
  - intros [= ->]. apply elem_of_cons; by left.
  - intros H. apply elem_of_cons; right; by apply IH.
Qed.

Lemma map_get_None {V} (m : JsMap V) k :
  map_get m k = None ↔ k ∉ map_keys m.
Proof.
  unfold map_keys. induction m as [|[k0 v0] m IH]; simpl.
  - split; [intros _; apply not_elem_of_nil | done].
  - rewrite not_elem_of_cons. destruct (String.eqb_spec k0 k) as [->|Hne].
    + split; [done | intros [? _]; done].
    + rewrite IH. split; [intros H; split; [congruence | done] | tauto].
Qed.

Lemma map_get_elem_of {V} (m : JsMap V) k v :
  NoDup (map_keys m) → (k, v) ∈ m → map_get m k = Some v.
Proof.
  unfold map_keys. induction m as [|[k0 v0] m IH]; simpl; intros Hnd Hin.
  - by apply elem_of_nil in Hin.
  - apply NoDup_cons in Hnd as [Hk0 Hnd]. apply elem_of_cons in Hin as [[= <- <-]|Hin].
    + by rewrite String.eqb_refl.
    + destruct (String.eqb_spec k0 k) as [->|Hne]; [|by apply IH].
      exfalso. apply Hk0. apply list_elem_of_fmap. by exists (k, v).
Qed.

Lemma map_set_fresh {V} (m : JsMap V) k v :
  k ∉ map_keys m → map_set m k v = m ++ [(k, v)].
Proof.
  unfold map_keys. induction m as [|[k0 v0] m IH]; simpl; [done|].
  rewrite not_elem_of_cons. intros [Hne Hk].
  destruct (String.eqb_spec k0 k); [congruence|]. by rewrite IH.
Qed.

Lemma map_set_elem_of {V} (m : JsMap V) k v k' v' :
  (k', v') ∈ map_set m k v → (k', v') ∈ m ∨ (k' = k ∧ v' = v).
Proof.
  induction m as [|[k0 v0] m IH]; simpl.
  - intros H. apply list_elem_of_singleton in H as [= -> ->]. by right.
  - destruct (String.eqb_spec k0 k) as [->|Hne]; rewrite !elem_of_cons.
    + intros [[= -> ->]|H]; [by right | left; by right].
    + intros [E|H]; [left; by left|]. destruct (IH H); [left; by right | by right].
Qed.

Lemma map_delete_elem_of {V} (m : JsMap V) k k' v' :
  (k', v') ∈ map_delete m k → (k', v') ∈ m.
Proof.
  induction m as [|[k0 v0] m IH]; simpl; [done|].
  destruct (String.eqb_spec k0 k) as [->|Hne]; rewrite !elem_of_cons.
  - intros H. by right.
  - intros [E|H]; [by left | right; by apply IH].
Qed.

(** ** Writes to the store *)


Lemma lookup_upd (h : heap) r f r' :
  upd h r f !! r' = if decide (r' = r) then f <$> h !! r' else h !! r'.
Proof.
  unfold upd. destruct (h !! r) as [n|] eqn:E.
  - destruct (decide (r' = r)) as [->|Hne].
    + rewrite list_lookup_insert_eq by (by eapply lookup_lt_Some). by rewrite E.
    + by rewrite list_lookup_insert_ne.
  - destruct (decide (r' = r)) as [->|Hne]; [by rewrite E | done].
Qed.

Lemma length_upd (h : heap) r f : length (upd h r f) = length h.
Proof. unfold upd. destruct (h !! r); [apply length_insert | done]. Qed.

Lemma addInput_upd (h : heap) this node t :
  h !! this = Some t →
  addInput h this node =
    if includes (inputs t) node then h
    else upd (upd h this (λ t, set_inputs t (inputs t ++ [node])))
             node (λ n, set_outputs n (outputs n ++ [this])).
Proof. intros E. unfold addInput, upd. rewrite E. by destruct (includes _ _). Qed.

Lemma removeInput_upd (h : heap) this node t index :
  h !! this = Some t → indexOf (inputs t) node = Some index →
  removeInput h this node =
    upd (upd h this (λ t, set_inputs t (splice1 (inputs t) index)))
        node (λ n, match indexOf (outputs n) this with
                   | Some outIndex => set_outputs n (splice1 (outputs n) outIndex)
                   | None => n
                   end).
Proof.
  intros E Hi. unfold removeInput, upd. rewrite E, Hi. simpl.
  destruct (_ !! node) as [n|] eqn:En; [|done].
  destruct (indexOf (outputs n) this); [done|].
  symmetry. apply list_insert_id. done.
Qed.

Lemma removeInput_absent (h : heap) this node :
  indexOf (inputsOf h this) node = None → removeInput h this node = h.
Proof.
  unfold removeInput, inputsOf. destruct (h !! this); [|done]. by intros ->.
Qed.

Lemma setValue_upd (h : heap) r b : setValue h r b = upd h r (λ n, set_value n b).
Proof. done. Qed.


Lemma same_but_edges_refl h : same_but_edges h h.
Proof. by split. Qed.

Lemma same_but_edges_trans h1 h2 h3 :
  same_but_edges h1 h2 → same_but_edges h2 h3 → same_but_edges h1 h3.
Proof.
  intros [L1 F1] [L2 F2]. split; [congruence|]. intros r.
  destruct (F1 r) as (?&?&?&?), (F2 r) as (?&?&?&?). repeat split; congruence.
Qed.

Lemma upd_inputs_same_but_edges h r f :
  (∀ n, ∃ l, f n = set_inputs n l) → same_but_edges h (upd h r f).
Proof.
  intros Hf. split; [apply length_upd|]. intros r'.
  unfold idOf, typeOf, valueOf, labelOf. rewrite lookup_upd.
  case_decide; [|done]. destruct (h !! r') as [n|]; [|done]. simpl.
  by destruct (Hf n) as [l ->].
Qed.

Lemma upd_outputs_same_but_edges h r f :
  (∀ n, ∃ l, f n = set_outputs n l) → same_but_edges h (upd h r f).
Proof.
  intros Hf. split; [apply length_upd|]. intros r'.
  unfold idOf, typeOf, valueOf, labelOf. rewrite lookup_upd.
  case_decide; [|done]. destruct (h !! r') as [n|]; [|done]. simpl.
  by destruct (Hf n) as [l ->].
Qed.

Lemma addInput_same_but_edges h this node :
  same_but_edges h (addInput h this node).
Proof.
  destruct (h !! this) as [t|] eqn:E.
  - rewrite (addInput_upd _ _ _ _ E). destruct (includes _ _); [apply same_but_edges_refl|].
    eapply same_but_edges_trans; [apply upd_inputs_same_but_edges | apply upd_outputs_same_but_edges];
      intros n; eexists; done.
  - unfold addInput. rewrite E. apply same_but_edges_refl.
Qed.

Lemma removeInput_same_but_edges h this node :
  same_but_edges h (removeInput h this node).
Proof.
  destruct (h !! this) as [t|] eqn:E.
  - destruct (indexOf (inputs t) node) as [i|] eqn:Hi.
    + rewrite (removeInput_upd _ _ _ _ _ E Hi).
      eapply same_but_edges_trans; [apply upd_inputs_same_but_edges | apply upd_outputs_same_but_edges];
        intros n; [eexists; done|].
      destruct (indexOf (outputs n) this); [eexists; done|]. exists (outputs n). by destruct n.
    + rewrite removeInput_absent; [apply same_but_edges_refl|]. unfold inputsOf. by rewrite E.
  - unfold removeInput. rewrite E. apply same_but_edges_refl.
Qed.

Ltac heap_cases :=
  repeat case_decide; subst; simpl;
  repeat match goal with
         | H : ?h !! ?r = _ |- context [?h !! ?r] => rewrite H; simpl
         | |- context [?h !! ?r] => is_var h; destruct (h !! r) eqn:?; simpl
         end;
  try done.

Lemma addInput_inputsOf h this node r :
  (this < length h)%nat → (node < length h)%nat →
  includes (inputsOf h this) node = false →
  inputsOf (addInput h this node) r =
    if decide (r = this) then inputsOf h this ++ [node] else inputsOf h r.
Proof.
  intros Ht Hn Hinc. apply lookup_lt_is_Some_2 in Ht as [t Et].
  rewrite (addInput_upd _ _ _ _ Et). unfold inputsOf in Hinc. rewrite Et in Hinc.
  rewrite Hinc. unfold inputsOf. rewrite !lookup_upd. heap_cases.
Qed.

Lemma addInput_outputsOf h this node r :
  (this < length h)%nat → (node < length h)%nat →
  includes (inputsOf h this) node = false →
  outputsOf (addInput h this node) r =
    if decide (r = node) then outputsOf h node ++ [this] else outputsOf h r.
Proof.
  intros Ht Hn Hinc. apply lookup_lt_is_Some_2 in Ht as [t Et].
  apply lookup_lt_is_Some_2 in Hn as [n En].
  rewrite (addInput_upd _ _ _ _ Et). unfold inputsOf in Hinc. rewrite Et in Hinc.
  rewrite Hinc. unfold outputsOf. rewrite !lookup_upd. heap_cases.
Qed.

Lemma addInput_present h this node :
  includes (inputsOf h this) node = true → addInput h this node = h.
Proof.
  unfold addInput, inputsOf. destruct (h !! this); [|done]. by intros ->.
Qed.

Lemma removeInput_inputsOf h this node index r :
  indexOf (inputsOf h this) node = Some index →
  inputsOf (removeInput h this node) r =
    if decide (r = this) then splice1 (inputsOf h this) index else inputsOf h r.
Proof.
  intros Hi. unfold inputsOf in Hi. destruct (h !! this) as [t|] eqn:Et; [|done].
  rewrite (removeInput_upd _ _ _ _ _ Et Hi). unfold inputsOf. rewrite !lookup_upd.
  heap_cases;
    repeat match goal with |- context [indexOf ?l ?a] => destruct (indexOf l a) end; done.
Qed.

Lemma removeInput_outputsOf h this node index r :
  indexOf (inputsOf h this) node = Some index →
  outputsOf (removeInput h this node) r =
    if decide (r = node)
    then match indexOf (outputsOf h node) this with
         | Some outIndex => splice1 (outputsOf h node) outIndex
         | None => outputsOf h node
         end
    else outputsOf h r.
Proof.
  intros Hi. unfold inputsOf in Hi. destruct (h !! this) as [t|] eqn:Et; [|done].
  rewrite (removeInput_upd _ _ _ _ _ Et Hi). unfold outputsOf. rewrite !lookup_upd.
  heap_cases;
    repeat match goal with |- context [indexOf ?l ?a] => destruct (indexOf l a) end; done.
Qed.

Lemma alloc_lookup_old (h : heap) n r m :
  h !! r = Some m → (alloc h n).1 !! r = Some m.
Proof. intros H. simpl. by apply lookup_app_l_Some. Qed.

Lemma alloc_lookup_new (h : heap) n : (alloc h n).1 !! (alloc h n).2 = Some n.
Proof. simpl. rewrite lookup_app_r by lia. by rewrite Nat.sub_diag. Qed.

Lemma alloc_lookup (h : heap) n r :
  (alloc h n).1 !! r =
    if decide (r = length h) then Some n else h !! r.
Proof.
  simpl. destruct (decide (r = length h)) as [->|Hne].
  - rewrite lookup_app_r by lia. by rewrite Nat.sub_diag.
  - destruct (decide (r < length h)%nat).
    + by rewrite lookup_app_l.
    + rewrite !lookup_ge_None_2; [done | lia |]. rewrite length_app. simpl. lia.
Qed.

Lemma alloc_inputsOf (h : heap) n r :
  inputs n = [] → inputsOf (alloc h n).1 r = inputsOf h r.
Proof.
  intros Hn. unfold inputsOf. rewrite alloc_lookup. case_decide; [|done].
  subst. rewrite Hn. by rewrite lookup_ge_None_2.
Qed.

Lemma alloc_outputsOf (h : heap) n r :
  outputs n = [] → outputsOf (alloc h n).1 r = outputsOf h r.
Proof.
  intros Hn. unfold outputsOf. rewrite alloc_lookup. case_decide; [|done].
  subst. rewrite Hn. by rewrite lookup_ge_None_2.
Qed.

(** ** The edge invariant under the mutation operations *)

Lemma inputsOf_live h r a : a ∈ inputsOf h r → (r < length h)%nat.
Proof.
  unfold inputsOf. destruct (h !! r) eqn:E; [intros _; by eapply lookup_lt_Some|].
  intros H. by apply elem_of_nil in H.
Qed.

Lemma outputsOf_live h r a : a ∈ outputsOf h r → (r < length h)%nat.
Proof.
  unfold outputsOf. destruct (h !! r) eqn:E; [intros _; by eapply lookup_lt_Some|].
  intros H. by apply elem_of_nil in H.
Qed.

Lemma edge_inv_empty : edge_inv [].
Proof.
  split; [intros a b | intros r]; unfold inputsOf, outputsOf; simpl.
  - split; intros H; by apply elem_of_nil in H.
  - split; apply NoDup_nil_2.
Qed.

Lemma alloc_edge_inv h n :
  inputs n = [] → outputs n = [] → edge_inv h → edge_inv (alloc h n).1.
Proof.
  intros Hi Ho [Hs Hu]. split.
  - intros a b. rewrite alloc_inputsOf, alloc_outputsOf by done. apply Hs.
  - intros r. rewrite alloc_inputsOf, alloc_outputsOf by done. apply Hu.
Qed.

Lemma addInput_edge_inv h this node :
  (this < length h)%nat → (node < length h)%nat →
  edge_inv h → edge_inv (addInput h this node).
Proof.
  intros Ht Hn [Hs Hu].
  destruct (includes (inputsOf h this) node) eqn:Hinc.
  { by rewrite addInput_present. }
  assert (Hni : node ∉ inputsOf h this).
  { intros H. apply includes_spec in H. congruence. }
  assert (Hno : this ∉ outputsOf h node).
  { intros H. by apply Hs in H. }
  split.
  - intros a b. rewrite addInput_inputsOf, addInput_outputsOf by done.
    pose proof (Hs a b) as Hab.
    repeat case_decide; subst; rewrite ?elem_of_app, ?list_elem_of_singleton;
      intuition (subst; tauto).
  - intros r. rewrite addInput_inputsOf, addInput_outputsOf by done.
    destruct (Hu r) as [Hi Ho].
    split; case_decide; subst; try done;
      (apply NoDup_app; split; [done|]; split; [|apply NoDup_singleton]);
      intros a Ha Ha'; apply list_elem_of_singleton in Ha'; by subst.
Qed.

Lemma removeInput_edge_inv h this node :
  edge_inv h → edge_inv (removeInput h this node).
Proof.
  intros [Hs Hu].
  destruct (indexOf (inputsOf h this) node) as [i|] eqn:Hi.
  2: { by rewrite removeInput_absent. }
  assert (Hin : node ∈ inputsOf h this).
  { destruct (decide (node ∈ inputsOf h this)) as [|Hn]; [done|].
    apply indexOf_None in Hn. congruence. }
  assert (Hout : this ∈ outputsOf h node) by (by apply Hs).
  destruct (indexOf (outputsOf h node) this) as [j|] eqn:Hj.
  2: { by apply indexOf_None in Hj. }
  split.
  - intros a b.
    rewrite (removeInput_inputsOf _ _ _ _ _ Hi), (removeInput_outputsOf _ _ _ _ _ Hi), Hj.
    pose proof (Hs a b) as Hab.
    repeat case_decide; subst;
      rewrite ?(splice1_elem_of _ _ _ _ (proj1 (Hu _)) Hi),
              ?(splice1_elem_of _ _ _ _ (proj2 (Hu _)) Hj);
      intuition (subst; tauto).
  - intros r.
    rewrite (removeInput_inputsOf _ _ _ _ _ Hi), (removeInput_outputsOf _ _ _ _ _ Hi), Hj.
    destruct (Hu r) as [Hri Hro].
    split; case_decide; subst; try done; by eapply splice1_NoDup.
Qed.

Lemma addInput_length h this node : length (addInput h this node) = length h.
Proof. apply addInput_same_but_edges. Qed.

Lemma removeInput_length h this node : length (removeInput h this node) = length h.
Proof. apply removeInput_same_but_edges. Qed.

(** First loop of [removeNode]: the copy of [node.inputs] is walked and
    each entry removed; the list is empty afterwards. *)
Lemma removeNode_inputs_loop node (l : list ref) h :
  edge_inv h → inputsOf h node = l →
  let h1 := fold_left (λ h inp, removeInput h node inp) l h in
  edge_inv h1 ∧ length h1 = length h ∧ inputsOf h1 node = [].
Proof.
  revert h. induction l as [|a l IH]; intros h Hinv Hl; simpl; [done|].
  destruct (indexOf_head l a) as [Hi Hsp]. rewrite <- Hl in Hi.
  destruct (IH (removeInput h node a)) as (H1 & H2 & H3).
  - by apply removeInput_edge_inv.
  - rewrite (removeInput_inputsOf _ _ _ _ _ Hi). rewrite decide_True by done.
    by rewrite Hl.
  - split; [done|]. split; [|done]. by rewrite H2, removeInput_length.
Qed.

(** Second loop: every successor drops [node] from its inputs, which
    also empties [node.outputs]. *)
Lemma removeNode_outputs_loop node (l : list ref) h :
  edge_inv h → outputsOf h node = l → inputsOf h node = [] →
  let h2 := fold_left (λ h out, removeInput h out node) l h in
  edge_inv h2 ∧ length h2 = length h ∧
  inputsOf h2 node = [] ∧ outputsOf h2 node = [].
Proof.
  revert h. induction l as [|b l IH]; intros h Hinv Hl Hin; simpl; [done|].
  assert (Hb : node ∈ inputsOf h b).
  { apply (proj1 Hinv). rewrite Hl. by left. }
  assert (Hne : b ≠ node).
  { intros ->. rewrite Hin in Hb. by apply elem_of_nil in Hb. }
  destruct (indexOf (inputsOf h b) node) as [i|] eqn:Hi.
  2: { by apply indexOf_None in Hi. }
  destruct (IH (removeInput h b node)) as (H1 & H2 & H3 & H4).
  - by apply removeInput_edge_inv.
  - rewrite (removeInput_outputsOf _ _ _ _ _ Hi). rewrite decide_True by done.
    rewrite Hl. destruct (indexOf_head l b) as [-> ->]. done.
  - rewrite (removeInput_inputsOf _ _ _ _ _ Hi). by rewrite decide_False.
  - split; [done|]. split; [|done]. by rewrite H2, removeInput_length.
Qed.

Lemma removeNode_spec h c nodeId node :
  edge_inv h → map_get c nodeId = Some node →
  let h' := (removeNode h c nodeId).1 in
  edge_inv h' ∧ length h' = length h ∧
  inputsOf h' node = [] ∧ outputsOf h' node = [] ∧
  ∀ r, (node ∉ inputsOf h' r) ∧ (node ∉ outputsOf h' r).
Proof.
  intros Hinv Hget. unfold removeNode. rewrite Hget. simpl.
  destruct (removeNode_inputs_loop node (inputsOf h node) h Hinv eq_refl)
    as (H1 & L1 & I1).
  destruct (removeNode_outputs_loop node _ _ H1 eq_refl I1) as (H2 & L2 & I2 & O2).
  split; [done|]. split; [congruence|]. split; [done|]. split; [done|].
  intros r. split; intros H.
  - apply (proj1 H2) in H. rewrite O2 in H. by apply elem_of_nil in H.
  - apply (proj1 H2) in H. rewrite I2 in H. by apply elem_of_nil in H.
Qed.

Lemma removeNode_absent h c nodeId :
  map_get c nodeId = None → removeNode h c nodeId = (h, c).
Proof. intros H. unfold removeNode. by rewrite H. Qed.


Lemma run_op_inv st o : script_inv st → script_inv (run_op st o).
Proof.
  destruct st as [h c]. intros [Hinv Hc]. simpl in *.
  destruct o as [i t px py l|this node|this node|node|nodeId|fromId toId]; simpl.
  - split; simpl.
    + by apply (alloc_edge_inv h (newCircuitNode i t px py l)).
    + intros k r Hk. rewrite length_app. simpl. specialize (Hc k r Hk). lia.
  - unfold live. destruct (Nat.ltb_spec this (length h)); [|done].
    destruct (Nat.ltb_spec node (length h)); [|done]. simpl. split; simpl.
    + by apply addInput_edge_inv.
    + intros k r Hk. rewrite addInput_length. eauto.
  - unfold live. destruct (Nat.ltb_spec this (length h)); [|done].
    destruct (Nat.ltb_spec node (length h)); [|done]. simpl. split; simpl.
    + by apply removeInput_edge_inv.
    + intros k r Hk. rewrite removeInput_length. eauto.
  - unfold live. destruct (Nat.ltb_spec node (length h)); [|done]. split; simpl; [done|].
    intros k r Hk. apply map_set_elem_of in Hk as [Hk|[_ ->]]; eauto.
  - destruct (map_get c nodeId) as [node|] eqn:Hget.
    + destruct (removeNode_spec h c nodeId node Hinv Hget) as (H1 & H2 & _).
      split; [done|]. intros k r Hk. rewrite H2. unfold removeNode in Hk.
      rewrite Hget in Hk. simpl in Hk. apply map_delete_elem_of in Hk. eauto.
    + rewrite removeNode_absent by done. done.
  - unfold addConnection.
    destruct (map_get c fromId) as [from|] eqn:Hf; [|done].
    destruct (map_get c toId) as [to|] eqn:Ht; [|done].
    apply map_get_Some in Hf, Ht. split; simpl.
    + apply addInput_edge_inv; eauto.
    + intros k r Hk. rewrite addInput_length. eauto.
Qed.

Lemma run_ops_inv ops : script_inv (run_ops ops).
Proof.
  unfold run_ops.
  assert (H0 : script_inv (([] : heap), ([] : Circuit))).
  { split; [apply edge_inv_empty|]. intros k r H. by apply elem_of_nil in H. }
  revert H0. generalize (([] : heap), ([] : Circuit)).
  induction ops as [|o ops IH]; intros st Hst; simpl; [done|].
  apply IH. by apply run_op_inv.
Qed.

(** [C10] Whatever sequence of public mutation operations built the
    circuit, an edge A → B is recorded in B's inputs iff it is recorded
    in A's outputs, and neither list repeats a node; one more operation
    of any kind keeps this; and [removeNode] on a present id leaves the
    removed node without inputs and outputs and leaves no node that
    lists it on either side. *)
Theorem mutation_keeps_edges_symmetric (ops : list op) :
  let h := (run_ops ops).1 in
  let c := (run_ops ops).2 in
  (∀ a b, a ∈ inputsOf h b ↔ b ∈ outputsOf h a) ∧
  (∀ r, NoDup (inputsOf h r) ∧ NoDup (outputsOf h r)) ∧
  (∀ o, edge_inv (run_op (h, c) o).1) ∧
  (∀ nodeId node,
     map_get c nodeId = Some node →
     let h' := (removeNode h c nodeId).1 in
     inputsOf h' node = [] ∧ outputsOf h' node = [] ∧
     ∀ r, (node ∉ inputsOf h' r) ∧ (node ∉ outputsOf h' r)).
Proof.
  intros h c. pose proof (run_ops_inv ops) as Hinv.
  destruct Hinv as [[Hs Hu] Hc]. fold h in Hs, Hu, Hc. fold c in Hc.
  split; [done|]. split; [done|]. split.
  - intros o. apply (run_op_inv (h, c) o). by split.
  - intros nodeId node Hget h'.
    destruct (removeNode_spec h c nodeId node (conj Hs Hu) Hget) as (_ & _ & I & O & R).
    done.
Qed.

(** ** Node evaluation *)

Lemma forallb_elem_of {A} (f : A → bool) (l : list A) :
  forallb f l = true ↔ ∀ a, a ∈ l → f a = true.
Proof.
  rewrite forallb_forall. split; intros H a Ha; apply H; by apply list_elem_of_In.
Qed.

Lemma existsb_elem_of {A} (f : A → bool) (l : list A) :
  existsb f l = true ↔ ∃ a, a ∈ l ∧ f a = true.
Proof.
  rewrite existsb_exists.
  split; intros (a & Ha & Hf); exists a; (split; [by apply list_elem_of_In | done]).
Qed.

(** [C5] For each of the six kinds [compute] is the function of section
    4.1: INPUT gives the stored value; OUTPUT the value of the first
    input, false without inputs; AND holds iff all inputs hold (hence
    true without inputs); OR holds iff some input holds (hence false
    without inputs); NOT negates the first input, false without inputs;
    XOR holds iff the number of true inputs is odd. *)
Theorem compute_truth_table (h : heap) (n : CircuitNode) :
  match type n with
  | INPUT => compute h n = value n
  | OUTPUT =>
      compute h n = match inputs n with [] => false | i0 :: _ => valueOf h i0 end
  | AND =>
      (compute h n = true ↔ ∀ r, r ∈ inputs n → valueOf h r = true) ∧
      match inputs n with [] => compute h n = true | _ => True end
  | OR =>
      (compute h n = true ↔ ∃ r, r ∈ inputs n ∧ valueOf h r = true) ∧
      match inputs n with [] => compute h n = false | _ => True end
  | NOT =>
      compute h n =
        match inputs n with [] => false | i0 :: _ => negb (valueOf h i0) end
  | XOR => compute h n = true ↔ Nat.Odd (trueInputs h n)
  end.
Proof.
  unfold compute. destruct (type n).
  - split; [apply forallb_elem_of|]. by destruct (inputs n).
  - split; [apply existsb_elem_of|]. by destruct (inputs n).
  - by destruct (inputs n).
  - unfold xor_compute, trueInputs. apply Nat.odd_spec.
  - done.
  - by destruct (inputs n).
Qed.

(** ** Counting and finite graphs *)


Lemma mult_nil v : mult v [] = 0%nat.
Proof. done. Qed.

Lemma mult_cons v a l :
  mult v (a :: l) = ((if decide (a = v) then 1 else 0) + mult v l)%nat.
Proof. unfold mult. rewrite filter_cons. by case_decide. Qed.

Lemma mult_app v l1 l2 : mult v (l1 ++ l2) = (mult v l1 + mult v l2)%nat.
Proof. unfold mult. by rewrite filter_app, length_app. Qed.

Lemma mult_zero v l : mult v l = 0%nat ↔ v ∉ l.
Proof.
  induction l as [|a l IH]; [rewrite mult_nil; split; [intros _; apply not_elem_of_nil|done]|].
  rewrite mult_cons, not_elem_of_cons. case_decide; subst.
  - split; [lia | intros [? _]; done].
  - simpl. rewrite IH. split; [intros ?; split; [congruence|done] | tauto].
Qed.

Lemma mult_pos v l : (0 < mult v l)%nat ↔ v ∈ l.
Proof.
  destruct (decide (v ∈ l)) as [Hin|Hn].
  - split; [done|]. intros _. destruct (mult v l) eqn:E; [|lia].
    apply mult_zero in E. done.
  - pose proof (proj2 (mult_zero v l) Hn). split; [lia | done].
Qed.

Lemma fold_left_bind {A B C} (f : A → C → A) (g : B → list C) (l : list B) (a : A) :
  fold_left (λ a b, fold_left f (g b) a) l a = fold_left f (l ≫= g) a.
Proof.
  revert a. induction l as [|b l IH]; intros a; simpl; [done|].
  by rewrite fold_left_app, IH.
Qed.

(** A finite non-empty set of vertices each of which has a predecessor
    in the set carries a cycle. *)
Lemma walk_back_finds_cycle (R : relation nat) (U : list nat)
    (Hpred : ∀ v, v ∈ U → ∃ u, u ∈ U ∧ R u v) :
  ∀ n x0 p, NoDup (x0 :: p) → (∀ z, z ∈ x0 :: p → z ∈ U) →
    (∀ z, z ∈ x0 :: p → rtc R x0 z) →
    (length U ≤ n + length (x0 :: p))%nat →
    ∃ r, r ∈ U ∧ tc R r r.
Proof.
  induction n as [|n IH]; intros x0 p Hnd Hsub Hreach Hlen.
  - destruct (Hpred x0) as (w & Hw & Hwx); [apply Hsub; by left|].
    destruct (decide (w ∈ x0 :: p)) as [Hin|Hnin].
    + exists w. split; [done|]. eapply tc_rtc_r; [by apply tc_once | by apply Hreach].
    + exfalso.
      assert (Hnd' : NoDup (w :: x0 :: p)) by (by apply NoDup_cons).
      assert (Hle : (length (w :: x0 :: p) ≤ length U)%nat).
      { apply submseteq_length, NoDup_submseteq; [done|].
        intros z Hz. apply elem_of_cons in Hz as [->|Hz]; [done | by apply Hsub]. }
      simpl in *. lia.
  - destruct (Hpred x0) as (w & Hw & Hwx); [apply Hsub; by left|].
    destruct (decide (w ∈ x0 :: p)) as [Hin|Hnin].
    + exists w. split; [done|]. eapply tc_rtc_r; [by apply tc_once | by apply Hreach].
    + apply (IH w (x0 :: p)).
      * by apply NoDup_cons.
      * intros z Hz. apply elem_of_cons in Hz as [->|Hz]; [done | by apply Hsub].
      * intros z Hz. apply elem_of_cons in Hz as [->|Hz]; [done|].
        eapply rtc_l; [done | by apply Hreach].
      * simpl in *. lia.
Qed.

Lemma cycle_of_no_source (R : relation nat) (U : list nat) :
  U ≠ [] → (∀ v, v ∈ U → ∃ u, u ∈ U ∧ R u v) → ∃ r, r ∈ U ∧ tc R r r.
Proof.
  intros Hne Hpred. destruct U as [|x0 U']; [done|].
  apply (walk_back_finds_cycle R (x0 :: U') Hpred (length (x0 :: U')) x0 []).
  - apply NoDup_singleton.
  - intros z Hz. apply list_elem_of_singleton in Hz as ->. by left.
  - intros z Hz. apply list_elem_of_singleton in Hz as ->. done.
  - simpl. lia.
Qed.

Lemma NoDup_same_elements_length (l k : list nat) :
  NoDup l → NoDup k → (∀ a, a ∈ l ↔ a ∈ k) → length l = length k.
Proof.
  intros Hl Hk Hlk. apply Nat.le_antisymm; apply submseteq_length, NoDup_submseteq;
    try done; intros a; apply Hlk.
Qed.

Lemma filter_not_in_nil (l : list ref) : filter (λ u, u ∉ ([] : list ref)) l = l.
Proof.
  induction l as [|a l IH]; [done|].
  rewrite filter_cons_True; [by rewrite IH | apply not_elem_of_nil].
Qed.

Lemma filter_not_in_snoc (l sorted : list ref) u :
  u ∉ l → filter (λ x, x ∉ sorted ++ [u]) l = filter (λ x, x ∉ sorted) l.
Proof.
  induction l as [|a l IH]; [done|]. rewrite not_elem_of_cons. intros [Hne Hu].
  rewrite !filter_cons. rewrite IH by done.
  destruct (decide (a ∉ sorted)) as [Ha|Ha].
  - rewrite decide_True; [done|]. rewrite not_elem_of_app, list_elem_of_singleton.
    split; [done | congruence].
  - rewrite decide_False; [done|]. rewrite not_elem_of_app. tauto.
Qed.

Lemma retire_edges (g : ref → list ref) (l sorted : list ref) u v :
  NoDup l → u ∈ l → u ∉ sorted →
  mult v (filter (λ x, x ∉ sorted) l ≫= g) =
    (mult v (filter (λ x, x ∉ sorted ++ [u]) l ≫= g) + mult v (g u))%nat.
Proof.
  intros Hnd Hu Hns. induction l as [|a l IH]; [by apply elem_of_nil in Hu|].
  apply NoDup_cons in Hnd as [Ha Hnd].
  destruct (decide (a = u)) as [->|Hne].
  - rewrite filter_cons_True by done.
    rewrite filter_cons_False.
    2: { intros H. apply H. apply elem_of_app. right. by left. }
    rewrite bind_cons, mult_app, filter_not_in_snoc by done. lia.
  - apply elem_of_cons in Hu as [->|Hu]; [done|].
    rewrite !filter_cons. destruct (decide (a ∉ sorted)) as [Has|Has].
    + rewrite decide_True.
      2: { rewrite not_elem_of_app, list_elem_of_singleton. done. }
      rewrite !bind_cons, !mult_app, IH by done. lia.
    + rewrite decide_False; [by apply IH|]. rewrite not_elem_of_app. tauto.
Qed.

(** ** Kahn's algorithm on a circuit *)

Section Kahn.
Variables (h : heap) (c : Circuit).
Hypothesis Hwf : wf_circuit h c.

Local Abbreviation N := (map_values c).


Lemma member_entry r : r ∈ N → (idOf h r, r) ∈ c.
Proof.
  intros Hr. apply list_elem_of_fmap in Hr as ([k r'] & -> & Hin). simpl.
  destruct (wf_ids _ _ Hwf _ _ Hin) as (n & Hn & Hid). unfold idOf. by rewrite Hn, Hid.
Qed.

Lemma idOf_inj a b : a ∈ N → b ∈ N → idOf h a = idOf h b → a = b.
Proof.
  intros Ha Hb E. apply member_entry in Ha, Hb. rewrite E in Ha.
  apply (map_get_elem_of _ _ _ (wf_keys _ _ Hwf)) in Ha, Hb. congruence.
Qed.

Lemma members_NoDup : NoDup N.
Proof.
  apply NoDup_fmap_2_strong.
  - intros [k1 r1] [k2 r2] H1 H2. simpl. intros ->.
    destruct (wf_ids _ _ Hwf _ _ H1) as (n1 & Hn1 & <-).
    destruct (wf_ids _ _ Hwf _ _ H2) as (n2 & Hn2 & <-). congruence.
  - eapply NoDup_fmap_1. apply (wf_keys _ _ Hwf).
Qed.

Lemma outputs_members u v : u ∈ N → v ∈ outputsOf h u → v ∈ N.
Proof. intros Hu Hv. apply (wf_closed _ _ Hwf u v Hv). by left. Qed.

(** Step 1. *)
Lemma initInDegree_lookup (l : list ref) (m : gmap string Z) k :
  fold_left (λ m node, <[idOf h node := 0]> m) l m !! k =
    if decide (k ∈ idOf h <$> l) then Some 0 else m !! k.
Proof.
  revert m. induction l as [|a l IH]; intros m; [done|].
  rewrite fmap_cons. cbn [fold_left].
  - rewrite IH. destruct (decide (k ∈ idOf h <$> l)) as [Hin|Hnin].
    + rewrite decide_True; [done | by right].
    + destruct (decide (k = idOf h a)) as [->|Hne].
      * rewrite lookup_insert_eq. rewrite decide_True; [done | by left].
      * rewrite lookup_insert_ne by done. rewrite decide_False; [done|].
        rewrite not_elem_of_cons. done.
Qed.

Lemma bump_fold_lookup (T : list ref) (m : gmap string Z) v (d : nat) :
  (∀ t, t ∈ T → t ∈ N) → v ∈ N →
  m !! idOf h v = Some (Z.of_nat d) →
  fold_left (bump h) T m !! idOf h v = Some (Z.of_nat (d + mult v T)).
Proof.
  revert m d. induction T as [|t T IH]; intros m d HT Hv Hm; simpl.
  - rewrite mult_nil. by rewrite Nat.add_0_r.
  - rewrite mult_cons. destruct (decide (t = v)) as [->|Hne].
    + rewrite (IH _ (S d)); [f_equal; f_equal; lia | | done |].
      * intros t Ht. apply HT. by right.
      * unfold bump. rewrite lookup_insert_eq, Hm. simpl. f_equal. lia.
    + rewrite (IH _ d); [done | | done |].
      * intros t' Ht. apply HT. by right.
      * unfold bump. rewrite lookup_insert_ne; [done|].
        intros E. apply Hne. apply idOf_inj; [apply HT; by left | done | done].
Qed.

Lemma pending_nil : pending h c [] = N ≫= outputsOf h.
Proof. unfold pending. by rewrite filter_not_in_nil. Qed.

Lemma pending_members sorted t : t ∈ pending h c sorted → t ∈ N.
Proof.
  unfold pending. intros Ht. apply list_elem_of_bind in Ht as (u & Ht & Hu).
  apply list_elem_of_filter in Hu as [_ Hu]. by eapply outputs_members.
Qed.

(** Steps 1 and 2 together: each node is mapped to its in-degree. *)
Lemma inDegree_initial v :
  v ∈ N →
  countInDegree h N (initInDegree h N) !! idOf h v =
    Some (Z.of_nat (mult v (pending h c []))).
Proof.
  intros Hv. unfold countInDegree, initInDegree.
  rewrite (fold_left_bind (bump h) (outputsOf h)).
  rewrite (bump_fold_lookup _ _ v 0); [by rewrite pending_nil | | done |].
  - intros t Ht. apply (pending_members []). by rewrite pending_nil.
  - rewrite initInDegree_lookup. rewrite decide_True; [done|].
    apply list_elem_of_fmap. by exists v.
Qed.

(** Sorting [u] retires the edges that leave it. *)
Lemma pending_snoc sorted u v :
  u ∈ N → u ∉ sorted →
  mult v (pending h c sorted) =
    (mult v (pending h c (sorted ++ [u])) + mult v (outputsOf h u))%nat.
Proof. intros Hu Hns. apply retire_edges; [apply members_NoDup | done | done]. Qed.

(** A node without pending in-edges has all its predecessors sorted. *)
Lemma no_pending_preds sorted a v :
  mult v (pending h c sorted) = 0%nat → a ∈ N → edge h a v → a ∈ sorted.
Proof.
  intros H0 Ha He. apply mult_zero in H0.
  destruct (decide (a ∈ sorted)) as [|Hn]; [done|]. exfalso. apply H0.
  unfold pending. apply list_elem_of_bind. exists a. split; [done|].
  by apply list_elem_of_filter.
Qed.

Lemma pending_pred sorted v :
  mult v (pending h c sorted) ≠ 0%nat → ∃ u, u ∈ N ∧ (u ∉ sorted) ∧ edge h u v.
Proof.
  intros H0. assert (Hin : v ∈ pending h c sorted) by (apply mult_pos; lia).
  unfold pending in Hin. apply list_elem_of_bind in Hin as (u & Hv & Hu).
  apply list_elem_of_filter in Hu as [Hns Hu]. by exists u.
Qed.

(** The body of the [while] loop: the counts of the successors of the
    dequeued node go down by their multiplicity, and exactly those
    that reach 0 are enqueued, once each. *)
Lemma relax_fold (L : list ref) (m : gmap string Z) (q : list ref) :
  (∀ t, t ∈ L → t ∈ N) →
  (∀ v, v ∈ N → ∃ d : nat, m !! idOf h v = Some (Z.of_nat d) ∧ (mult v L ≤ d)%nat) →
  ∃ m' pushed,
    fold_left (relax h) L (m, q) = (m', q ++ pushed) ∧
    NoDup pushed ∧
    (∀ v, v ∈ pushed → v ∈ L) ∧
    (∀ v (d : nat), v ∈ N → m !! idOf h v = Some (Z.of_nat d) →
       m' !! idOf h v = Some (Z.of_nat (d - mult v L)) ∧
       (v ∈ pushed ↔ v ∈ L ∧ d = mult v L)).
Proof.
  revert m q. induction L as [|w L IH]; intros m q HL Hm.
  - exists m, []. simpl. rewrite app_nil_r. split; [done|].
    split; [apply NoDup_nil_2|]. split; [done|].
    intros v d Hv Hd. rewrite mult_nil, Nat.sub_0_r. split; [done|].
    split; [intros H; by apply elem_of_nil in H | intros [H _]; by apply elem_of_nil in H].
  - assert (Hw : w ∈ N) by (apply HL; by left).
    destruct (Hm w Hw) as (dw & Hdw & Hle). rewrite mult_cons, decide_True in Hle by done.
    cbn [fold_left]. unfold relax at 2. cbn [fst snd]. rewrite Hdw.
    set (m1 := <[idOf h w := Z.of_nat dw - 1]> m).
    set (q1 := if Z.of_nat dw - 1 =? 0 then q ++ [w] else q).
    assert (Hm1w : m1 !! idOf h w = Some (Z.of_nat (dw - 1))).
    { unfold m1. rewrite lookup_insert_eq. f_equal. lia. }
    assert (Hm1o : ∀ v, v ∈ N → v ≠ w → m1 !! idOf h v = m !! idOf h v).
    { intros v Hv Hne. unfold m1. rewrite lookup_insert_ne; [done|].
      intros E. apply Hne. symmetry. by apply idOf_inj. }
    destruct (IH m1 q1) as (m' & pushed & Hfold & Hnd & Hsub & Hspec).
    { intros t Ht. apply HL. by right. }
    { intros v Hv. destruct (decide (v = w)) as [->|Hne].
      - exists (dw - 1)%nat. split; [done | lia].
      - destruct (Hm v Hv) as (d & Hd & Hl). exists d. rewrite Hm1o by done.
        split; [done|]. rewrite mult_cons, decide_False in Hl by done. lia. }
    destruct (Hspec w (dw - 1)%nat Hw Hm1w) as [Hw' Hwp].
    exists m', ((if Z.of_nat dw - 1 =? 0 then [w] else []) ++ pushed).
    split.
    { replace (if Z.of_nat dw - 1 =? 0 then (m1, q ++ [w]) else (m1, q))
        with (m1, q1) by (unfold q1; by destruct (_ =? _)).
      rewrite Hfold. f_equal. unfold q1.
      destruct (_ =? _); simpl; [by rewrite <- app_assoc | done]. }
    split.
    { destruct (Z.eqb_spec (Z.of_nat dw - 1) 0) as [E|E]; [|done].
      simpl. apply NoDup_cons. split; [|done].
      intros Hin. apply Hwp in Hin as [Hin Heq].
      apply mult_pos in Hin. lia. }
    split.
    { intros v Hv. apply elem_of_app in Hv as [Hv|Hv].
      - destruct (_ =? _); [|by apply elem_of_nil in Hv].
        apply list_elem_of_singleton in Hv as ->. by left.
      - right. by apply Hsub. }
    intros v d Hv Hd. rewrite mult_cons.
    destruct (decide (w = v)) as [<-|Hne].
    + assert (d = dw) as -> by (apply Nat2Z.inj; congruence).
      split; [rewrite Hw'; f_equal; lia|].
      rewrite elem_of_app, Hwp, elem_of_cons.
      destruct (Z.eqb_spec (Z.of_nat dw - 1) 0) as [E|E].
      * rewrite list_elem_of_singleton. split; [intros _; split; [by left|] | by left].
        assert (mult w L = 0)%nat by lia. lia.
      * rewrite elem_of_nil. split.
        -- intros [[]|[Hin Heq]]. split; [by right | lia].
        -- intros [_ Heq]. right. split; [|lia].
           apply mult_pos. lia.
    + rewrite <- (Hm1o v Hv) in Hd by done.
      destruct (Hspec v d Hv Hd) as [Hv' Hvp]. simpl.
      split; [done|]. rewrite elem_of_app, Hvp, elem_of_cons.
      split.
      * intros [Hin|[Hin Heq]]; [|split; [by right | done]].
        destruct (_ =? _); [|by apply elem_of_nil in Hin].
        apply list_elem_of_singleton in Hin. congruence.
      * intros [[E|Hin] Heq]; [congruence|]. right. done.
Qed.

Lemma kahn_step m u q sorted :
  kahn_inv h c m (u :: q) sorted →
  kahn_inv h c (fold_left (relax h) (outputsOf h u) (m, q)).1
               (fold_left (relax h) (outputsOf h u) (m, q)).2
               (sorted ++ [u]).
Proof.
  intros [Hnd Hmem Hcnt Hzero Htopo].
  assert (Hu : u ∈ N).
  { apply Hmem. apply elem_of_app. right. by left. }
  assert (Hus : u ∉ sorted).
  { apply NoDup_app in Hnd as (_ & Hd & _). intros Hin. apply (Hd u Hin). by left. }
  assert (Hret := λ v, pending_snoc sorted u v Hu Hus).
  destruct (relax_fold (outputsOf h u) m q) as (m' & pushed & Hfold & Hpnd & Hpsub & Hspec).
  { intros t Ht. by eapply outputs_members. }
  { intros v Hv. eexists. split; [by apply Hcnt|]. rewrite (Hret v). lia. }
  rewrite Hfold. cbn [fst snd].
  assert (Hpushed : ∀ v, v ∈ pushed →
            v ∈ N ∧ mult v (pending h c sorted) ≠ 0%nat ∧
            mult v (pending h c (sorted ++ [u])) = 0%nat).
  { intros v Hv. assert (HvN : v ∈ N) by (eapply outputs_members; [done | by apply Hpsub]).
    split; [done|]. destruct (Hspec v _ HvN (Hcnt v HvN)) as [_ Hp].
    apply Hp in Hv as [Hin Heq]. apply mult_pos in Hin. rewrite (Hret v) in Heq |- *. lia. }
  split.
  - rewrite <- app_assoc. simpl. apply NoDup_app in Hnd as (Hs & Hd & Hq).
    apply NoDup_cons in Hq as [Huq Hq].
    apply NoDup_app. split; [done|]. split.
    + intros a Ha Ha'. apply elem_of_cons in Ha' as [->|Ha']; [done|].
      apply elem_of_app in Ha' as [Ha'|Ha'].
      * apply (Hd a Ha). by right.
      * destruct (Hpushed a Ha') as (HaN & Hnz & _). apply Hnz. apply Hzero; [done|].
        apply elem_of_app. by left.
    + apply NoDup_cons. split.
      * intros Ha'. apply elem_of_app in Ha' as [Ha'|Ha']; [done|].
        destruct (Hpushed u Ha') as (_ & Hnz & _). apply Hnz. apply Hzero; [done|].
        apply elem_of_app. right. by left.
      * apply NoDup_app. split; [done|]. split; [|done].
        intros a Ha Ha'. destruct (Hpushed a Ha') as (HaN & Hnz & _). apply Hnz.
        apply Hzero; [done|]. apply elem_of_app. right. by right.
  - intros v Hv. rewrite <- app_assoc in Hv. simpl in Hv.
    apply elem_of_app in Hv as [Hv|Hv]; [apply Hmem, elem_of_app; by left|].
    apply elem_of_cons in Hv as [->|Hv]; [done|].
    apply elem_of_app in Hv as [Hv|Hv]; [|by apply Hpushed].
    apply Hmem, elem_of_app. right. by right.
  - intros v Hv. destruct (Hspec v _ Hv (Hcnt v Hv)) as [-> _]. f_equal. f_equal.
    rewrite (Hret v). lia.
  - intros v Hv. destruct (Hspec v _ Hv (Hcnt v Hv)) as [_ Hp].
    pose proof (Hzero v Hv) as Hz. rewrite (Hret v) in Hz, Hp.
    rewrite <- app_assoc. simpl.
    rewrite !elem_of_app, !elem_of_cons in *. rewrite elem_of_app. rewrite Hp.
    split.
    + intros [Hs|[->|[Hq|[Hin Heq]]]]; [| | |lia].
      * assert (v ∈ sorted ∨ v = u ∨ v ∈ q) as Hx by tauto. apply Hz in Hx. lia.
      * assert (u ∈ sorted ∨ u = u ∨ u ∈ q) as Hx by tauto. apply Hz in Hx. lia.
      * assert (v ∈ sorted ∨ v = u ∨ v ∈ q) as Hx by tauto. apply Hz in Hx. lia.
    + intros H0. destruct (decide (mult v (outputsOf h u) = 0%nat)) as [E|E].
      * assert (v ∈ sorted ∨ v = u ∨ v ∈ q) as Hx by (apply Hz; lia). tauto.
      * right. right. right. split; [apply mult_pos; lia | lia].
  - intros j b Hj a Ha He. apply lookup_snoc_Some in Hj as [[Hlt Hj]|[-> <-]].
    + destruct (Htopo j b Hj a Ha He) as (i & Hi & Hia).
      exists i. split; [done|]. by apply lookup_app_l_Some.
    + assert (Hz : mult u (pending h c sorted) = 0%nat).
      { apply Hzero; [done|]. apply elem_of_app. right. by left. }
      pose proof (no_pending_preds sorted a u Hz Ha He) as Has.
      apply list_elem_of_lookup_1 in Has as [i Hi]. exists i.
      split; [by eapply lookup_lt_Some | by apply lookup_app_l_Some].
Qed.

Lemma processQueue_spec fuel m queue sorted :
  kahn_inv h c m queue sorted →
  (length c ≤ fuel + length sorted)%nat →
  ∃ sorted', processQueue fuel h m queue sorted = Some sorted' ∧
             kahn_done h c sorted'.
Proof.
  revert m queue sorted. induction fuel as [|fuel IH]; intros m queue sorted Hinv Hlen.
  - destruct queue as [|u q].
    + exists sorted. split; [done|]. destruct Hinv as [Hnd Hmem Hcnt Hzero Htopo].
      rewrite app_nil_r in *. by split.
    + exfalso. destruct Hinv as [Hnd Hmem _ _ _].
      assert (length (sorted ++ u :: q) ≤ length N)%nat.
      { apply submseteq_length, NoDup_submseteq; done. }
      unfold map_values in *. rewrite length_app, length_fmap in *. simpl in *. lia.
  - destruct queue as [|u q].
    + exists sorted. split; [done|]. destruct Hinv as [Hnd Hmem Hcnt Hzero Htopo].
      rewrite app_nil_r in *. by split.
    + cbn [processQueue]. apply IH; [by apply kahn_step|].
      rewrite length_app. simpl. lia.
Qed.

Lemma kahn_initial :
  kahn_inv h c (countInDegree h N (initInDegree h N))
           (initialQueue h N (countInDegree h N (initInDegree h N))) [].
Proof.
  split; simpl.
  - apply NoDup_filter, members_NoDup.
  - intros v Hv. by apply list_elem_of_filter in Hv as [_ Hv].
  - intros v Hv. by apply inDegree_initial.
  - intros v Hv. unfold initialQueue. rewrite list_elem_of_filter, inDegree_initial by done.
    split.
    + intros [[= E] _]. lia.
    + intros ->. done.
  - intros j b Hj. done.
Qed.

(** The loop ends with the queue empty, within the budget, for every
    circuit. *)
Lemma kahn_sorted :
  ∃ sorted,
    processQueue (kahnFuel c (countInDegree h N (initInDegree h N))) h
                 (countInDegree h N (initInDegree h N))
                 (initialQueue h N (countInDegree h N (initInDegree h N))) []
      = Some sorted ∧
    kahn_done h c sorted.
Proof.
  apply processQueue_spec; [apply kahn_initial|]. unfold kahnFuel. simpl. lia.
Qed.

Lemma order_respects_paths sorted :
  kahn_done h c sorted →
  ∀ a b, tc (edge h) a b → a ∈ N → ∀ j, sorted !! j = Some b →
    ∃ i, (i < j)%nat ∧ sorted !! i = Some a.
Proof.
  intros [Hnd Hmem Hzero Htopo] a b Hab. induction Hab as [a b He|a x b He Hxb IH].
  - intros Ha j Hj. by eapply Htopo.
  - intros Ha j Hj. destruct (IH (outputs_members a x Ha He) j Hj) as (i & Hi & Hix).
    destruct (Htopo i x Hix a Ha He) as (i' & Hi' & Hia). exists i'. split; [lia | done].
Qed.

Lemma cycle_not_sorted sorted r :
  kahn_done h c sorted → r ∈ N → tc (edge h) r r → r ∉ sorted.
Proof.
  intros Hd Hr Hcyc Hin. apply list_elem_of_lookup_1 in Hin as [j Hj].
  destruct (order_respects_paths sorted Hd r r Hcyc Hr j Hj) as (i & Hi & Hir).
  pose proof (NoDup_lookup _ _ _ _ (kd_nodup _ _ _ Hd) Hir Hj). lia.
Qed.

Lemma acyclic_all_sorted sorted :
  kahn_done h c sorted → acyclic h c → ∀ v, v ∈ N → v ∈ sorted.
Proof.
  intros Hd Hac v Hv. destruct (decide (v ∈ sorted)) as [|Hn]; [done|]. exfalso.
  apply Hac.
  destruct (cycle_of_no_source (edge h) (filter (λ u, u ∉ sorted) N)) as (r & Hr & Hcyc).
  - intros E. assert (Hin : v ∈ filter (λ u, u ∉ sorted) N) by (by apply list_elem_of_filter).
    rewrite E in Hin. by apply elem_of_nil in Hin.
  - intros w Hw. apply list_elem_of_filter in Hw as [Hws Hw].
    destruct (pending_pred sorted w) as (u & Hu & Hus & He).
    + intros E. apply Hws. by apply (kd_zero _ _ _ Hd).
    + exists u. split; [by apply list_elem_of_filter | done].
  - apply list_elem_of_filter in Hr as [_ Hr]. by exists r.
Qed.

(** On an acyclic circuit the order is returned; it holds the nodes of
    the circuit, each once, and every edge goes forward in it. *)
Lemma getEvaluationOrder_acyclic :
  acyclic h c →
  ∃ order, getEvaluationOrder h c = Ret order ∧
    NoDup order ∧ (∀ r, r ∈ order ↔ r ∈ N) ∧
    (∀ a b, a ∈ N → edge h a b → before order a b).
Proof.
  intros Hac. destruct kahn_sorted as (sorted & Hpq & Hd).
  assert (Hall := acyclic_all_sorted sorted Hd Hac).
  exists sorted. split; [|split; [apply Hd|split]].
  - unfold getEvaluationOrder. rewrite Hpq.
    assert (length sorted = map_size c) as ->; [|by rewrite Nat.eqb_refl].
    unfold map_size. rewrite <- (length_fmap snd c).
    apply NoDup_same_elements_length; [apply Hd | apply members_NoDup|].
    intros a. split; [apply Hd | apply Hall].
  - intros r. split; [apply Hd | apply Hall].
  - intros a b Ha He.
    assert (Hb : b ∈ sorted) by (apply Hall; by eapply outputs_members).
    apply list_elem_of_lookup_1 in Hb as [j Hj].
    destruct (kd_topo _ _ _ Hd j b Hj a Ha He) as (i & Hi & Hia). by exists i, j.
Qed.

(** On a circuit with a cycle the sorted sequence falls short. *)
Lemma getEvaluationOrder_cyclic :
  has_cycle h c → getEvaluationOrder h c = Throw CycleDetectedError.
Proof.
  intros (r & Hr & Hcyc). destruct kahn_sorted as (sorted & Hpq & Hd).
  unfold getEvaluationOrder. rewrite Hpq.
  pose proof (cycle_not_sorted sorted r Hd Hr Hcyc) as Hrs.
  assert (length (r :: sorted) ≤ length N)%nat.
  { apply submseteq_length, NoDup_submseteq.
    - apply NoDup_cons. split; [done | apply Hd].
    - intros a Ha. apply elem_of_cons in Ha as [->|Ha]; [done | by apply Hd]. }
  unfold map_size, map_values in *. rewrite length_fmap in *. simpl in *.
  destruct (Nat.eqb_spec (length sorted) (length c)); [lia | done].
Qed.

End Kahn.

(** ** The iteration budget of the model suffices on every store *)

Lemma positives_decrement (m : gmap string Z) (k : string) (d : Z) :
  m !! k = Some d →
  (positives (<[k := (d - 1)%Z]> m) + (if (d - 1 =? 0)%Z then 1 else 0))%nat
    = positives m.
Proof.
  intros Hk. unfold positives. rewrite map_filter_insert. simpl.
  destruct (decide (0 < d - 1)) as [Hpos|Hnp].
  - rewrite map_size_insert_Some.
    + destruct (Z.eqb_spec (d - 1) 0); lia.
    + exists d. apply map_lookup_filter_Some. split; [done | simpl; lia].
  - rewrite map_filter_delete. destruct (Z.eqb_spec (d - 1) 0) as [E|E].
    + assert (Hin : filter (λ kv : string * Z, 0 < kv.2) m !! k = Some d).
      { apply map_lookup_filter_Some. split; [done | simpl; lia]. }
      rewrite map_size_delete_Some by (by exists d).
      pose proof (map_size_ne_0_lookup_2 _ k (ex_intro _ d Hin)). lia.
    + rewrite map_size_delete_None; [lia|].
      apply map_lookup_filter_None. right. intros y Hy. simpl.
      rewrite Hk in Hy. injection Hy as <-. lia.
Qed.

Lemma relax_measure h st v :
  (length (relax h st v).2 + positives (relax h st v).1 ≤
   length st.2 + positives st.1)%nat.
Proof.
  unfold relax. destruct (st.1 !! idOf h v) as [d|] eqn:E; [|done].
  pose proof (positives_decrement st.1 (idOf h v) d E) as Hd.
  destruct (d - 1 =? 0); simpl; [rewrite length_app; simpl|]; lia.
Qed.

Lemma relax_fold_measure h L st :
  (length (fold_left (relax h) L st).2 + positives (fold_left (relax h) L st).1 ≤
   length st.2 + positives st.1)%nat.
Proof.
  revert st. induction L as [|v L IH]; intros st; simpl; [done|].
  etransitivity; [apply IH | apply relax_measure].
Qed.

Lemma processQueue_enough fuel h m queue sorted :
  (length queue + positives m ≤ fuel)%nat →
  is_Some (processQueue fuel h m queue sorted).
Proof.
  revert m queue sorted. induction fuel as [|fuel IH]; intros m queue sorted Hle.
  - destruct queue; [by eexists | simpl in Hle; lia].
  - destruct queue as [|u q]; [by eexists|]. cbn [processQueue]. apply IH.
    pose proof (relax_fold_measure h (outputsOf h u) (m, q)) as Hm.
    simpl in Hm, Hle. lia.
Qed.

(** Whatever the store and the mapping, the model of [getEvaluationOrder]
    ends by returning or by throwing. *)
Lemma getEvaluationOrder_total (h : heap) (c : Circuit) :
  getEvaluationOrder h c ≠ OutOfFuel.
Proof.
  unfold getEvaluationOrder.
  set (m := countInDegree h (map_values c) (initInDegree h (map_values c))).
  destruct (processQueue_enough (kahnFuel c m) h m (initialQueue h (map_values c) m) [])
    as [sorted ->].
  - unfold kahnFuel, initialQueue, positives.
    pose proof (length_filter (λ node, m !! idOf h node = Some 0) (map_values c)) as H1.
    pose proof (map_size_filter (λ kv : string * Z, 0 < kv.2) m) as H2.
    unfold map_values in H1. rewrite length_fmap in H1. unfold map_values. lia.
  - by destruct (length sorted =? map_size c)%nat.
Qed.

(** ** Stores that differ in values only *)

Lemma same_but_values_refl h : same_but_values h h.
Proof. by split. Qed.

Lemma same_but_values_sym h h' : same_but_values h h' → same_but_values h' h.
Proof.
  intros [L F]. split; [done|]. intros r. destruct (F r) as (?&?&?&?&?). by repeat split.
Qed.

Lemma same_but_values_trans h1 h2 h3 :
  same_but_values h1 h2 → same_but_values h2 h3 → same_but_values h1 h3.
Proof.
  intros [L1 F1] [L2 F2]. split; [congruence|]. intros r.
  destruct (F1 r) as (?&?&?&?&?), (F2 r) as (?&?&?&?&?). repeat split; congruence.
Qed.

Lemma upd_value_same_but_values h r f :
  (∀ n, ∃ b, f n = set_value n b) → same_but_values h (upd h r f).
Proof.
  intros Hf. split; [apply length_upd|]. intros r'.
  unfold idOf, typeOf, inputsOf, outputsOf, labelOf. rewrite lookup_upd.
  case_decide; [|done]. destruct (h !! r') as [n|]; [|done]. simpl.
  by destruct (Hf n) as [b ->].
Qed.

Lemma setValue_same_but_values h r b : same_but_values h (setValue h r b).
Proof. rewrite setValue_upd. apply upd_value_same_but_values. intros n. by exists b. Qed.

Lemma fold_same_but_values {A} (f : heap → A → heap) (l : list A) h :
  (∀ h a, same_but_values h (f h a)) → same_but_values h (fold_left f l h).
Proof.
  intros Hf. revert h. induction l as [|a l IH]; intros h; simpl.
  - apply same_but_values_refl.
  - eapply same_but_values_trans; [apply Hf | apply IH].
Qed.

Lemma setInputs_same_but_values h ins i : same_but_values h (setInputs h ins i).
Proof.
  unfold setInputs. apply fold_same_but_values. intros h0 p. apply setValue_same_but_values.
Qed.

Lemma evalNode_same_but_values h node : same_but_values h (evalNode h node).
Proof.
  unfold evalNode. destruct (isInputNode h node); [apply same_but_values_refl|].
  destruct (h !! node) as [n|] eqn:E; [|apply same_but_values_refl].
  replace (<[node := set_value n (compute h n)]> h)
    with (upd h node (λ m, set_value m (compute h n))) by (unfold upd; by rewrite E).
  apply upd_value_same_but_values. intros m. by eexists.
Qed.

Lemma same_but_values_edge h h' a b :
  same_but_values h h' → edge h' a b ↔ edge h a b.
Proof. intros [_ F]. unfold edge. destruct (F a) as (_&_&_&->&_). done. Qed.

Lemma same_but_values_tc h h' a b :
  same_but_values h h' → tc (edge h) a b → tc (edge h') a b.
Proof.
  intros Hs Htc. induction Htc as [a b He|a x b He _ IH].
  - apply tc_once. by apply (same_but_values_edge h h').
  - eapply tc_l; [|done]. by apply (same_but_values_edge h h').
Qed.

Lemma same_but_values_has_cycle h h' c :
  same_but_values h h' → has_cycle h c → has_cycle h' c.
Proof. intros Hs (r & Hr & Hc). exists r. split; [done | by eapply same_but_values_tc]. Qed.

Lemma same_but_values_acyclic h h' c :
  same_but_values h h' → acyclic h c → acyclic h' c.
Proof.
  intros Hs Hac Hc. apply Hac. eapply same_but_values_has_cycle; [|done].
  by apply same_but_values_sym.
Qed.

Lemma same_but_values_wf h h' c :
  same_but_values h h' → wf_circuit h c → wf_circuit h' c.
Proof.
  intros Hs [Hk Hi Hc [Hsym Hu]]. pose proof Hs as [L F]. split.
  - done.
  - intros k r Hin. destruct (Hi k r Hin) as (n & Hn & Hid).
    destruct (lookup_lt_is_Some_2 h' r) as [n' Hn'].
    { rewrite L. by eapply lookup_lt_Some. }
    exists n'. split; [done|]. destruct (F r) as (E&_). unfold idOf in E.
    rewrite Hn, Hn' in E. congruence.
  - intros a b He. apply (same_but_values_edge h h') in He; [|done]. by apply Hc.
  - split.
    + intros a b. destruct (F a) as (_&_&_&->&_), (F b) as (_&_&->&_&_). apply Hsym.
    + intros r. destruct (F r) as (_&_&->&->&_). apply Hu.
Qed.

(** ** The order of evaluation *)

(** [C3] On an acyclic circuit [getEvaluationOrder] returns a sequence
    without repetition whose elements are exactly the nodes of the
    circuit, and for every edge A → B of the circuit A stands strictly
    before B in it. *)
Theorem evaluation_order_topological (h : heap) (c : Circuit) :
  wf_circuit h c → acyclic h c →
  ∃ order, getEvaluationOrder h c = Ret order ∧
    NoDup order ∧ (∀ r, r ∈ order ↔ r ∈ map_values c) ∧
    (∀ a b, a ∈ map_values c → edge h a b → before order a b).
Proof. apply getEvaluationOrder_acyclic. Qed.

Lemma evaluate_cyclic (h : heap) (c : Circuit) :
  wf_circuit h c → has_cycle h c → evaluate h c = (h, Throw CycleDetectedError).
Proof.
  intros Hwf Hcyc. unfold evaluate. by rewrite (getEvaluationOrder_cyclic h c Hwf Hcyc).
Qed.

(** [C4] On a circuit with a directed cycle [getEvaluationOrder] and
    [evaluate] both raise CycleDetected, and the store after the failed
    [evaluate] is the store before it: no value was written. *)
Theorem cycle_is_detected (h : heap) (c : Circuit) :
  wf_circuit h c → has_cycle h c →
  getEvaluationOrder h c = Throw CycleDetectedError ∧
  evaluate h c = (h, Throw CycleDetectedError) ∧
  ∀ r, valueOf (evaluate h c).1 r = valueOf h r.
Proof.
  intros Hwf Hcyc. split; [by apply getEvaluationOrder_cyclic|].
  rewrite evaluate_cyclic by done. done.
Qed.

(** The order is only returned for acyclic circuits. *)
Lemma returned_order_acyclic (h : heap) (c : Circuit) order :
  wf_circuit h c → getEvaluationOrder h c = Ret order → acyclic h c.
Proof.
  intros Hwf E Hcyc. rewrite (getEvaluationOrder_cyclic h c Hwf Hcyc) in E. done.
Qed.

Lemma truthTableLoop_cyclic todo i h c ins outs results :
  wf_circuit h c → has_cycle h c →
  (truthTableLoop todo i h c ins outs results).2 =
    Ret (match todo with O => results | S _ => [] end).
Proof.
  intros Hwf Hcyc. destruct todo as [|todo]; [done|]. cbn [truthTableLoop].
  pose proof (setInputs_same_but_values h ins i) as Hs.
  rewrite evaluate_cyclic; [done | |].
  - by eapply same_but_values_wf.
  - by eapply same_but_values_has_cycle.
Qed.

(** [C7] On a circuit with a directed cycle [getTruthTable] returns
    normally, and what it returns is the empty table. *)
Theorem truth_table_of_cyclic_is_empty (h : heap) (c : Circuit) :
  wf_circuit h c → has_cycle h c → (getTruthTable h c).2 = Ret [].
Proof.
  intros Hwf Hcyc. unfold getTruthTable.
  rewrite truthTableLoop_cyclic by done. by destruct (Z.to_nat _).
Qed.

(** ** Checking a concrete circuit *)

Lemma wf_circuitb_sound (h : heap) (c : Circuit) :
  wf_circuitb h c = true → wf_circuit h c.
Proof.
  unfold wf_circuitb. rewrite !andb_true_iff. intros [[Hk Hi] Hn].
  rewrite forallb_elem_of in Hi. rewrite forallb_elem_of in Hn.
  assert (Hat : ∀ a, (a < length h)%nat →
    (∀ b, b ∈ outputsOf h a → memberb c a = memberb c b ∧ a ∈ inputsOf h b) ∧
    (∀ b, b ∈ inputsOf h a → a ∈ outputsOf h b) ∧
    NoDup (inputsOf h a) ∧ NoDup (outputsOf h a)).
  { intros a Ha. specialize (Hn a). rewrite !andb_true_iff in Hn.
    destruct Hn as [[[Ho Hin] Hni] Hno].
    { apply elem_of_seq. lia. }
    rewrite forallb_elem_of in Ho. rewrite forallb_elem_of in Hin.
    split; [|split; [|split]].
    - intros b Hb. specialize (Ho b Hb). apply andb_true_iff in Ho as [E Hm].
      split; [by apply Bool.eqb_prop | by apply bool_decide_eq_true in Hm].
    - intros b Hb. specialize (Hin b Hb). by apply bool_decide_eq_true in Hin.
    - by apply bool_decide_eq_true in Hni.
    - by apply bool_decide_eq_true in Hno. }
  split.
  - by apply bool_decide_eq_true in Hk.
  - intros k r Hin. specialize (Hi (k, r) Hin). simpl in Hi.
    destruct (h !! r) as [n|]; [|done]. exists n. split; [done|].
    by apply String.eqb_eq.
  - intros a b He Hor. destruct (Hat a (outputsOf_live _ _ _ He)) as (Ho & _).
    destruct (Ho b He) as [E _]. unfold memberb in E.
    destruct Hor as [Hm|Hm].
    + rewrite (bool_decide_eq_true_2 _ Hm) in E. symmetry in E.
      apply bool_decide_eq_true in E. done.
    + rewrite (bool_decide_eq_true_2 (b ∈ map_values c) Hm) in E.
      apply bool_decide_eq_true in E. done.
  - split.
    + intros a b. split; intros H.
      * by apply (Hat b (inputsOf_live _ _ _ H)).
      * by apply (Hat a (outputsOf_live _ _ _ H)).
    + intros r. destruct (decide (r < length h)%nat) as [Hr|Hr].
      * split; by apply (Hat r Hr).
      * unfold inputsOf, outputsOf. rewrite lookup_ge_None_2 by lia.
        split; apply NoDup_nil_2.
Qed.

Lemma edge_check (h : heap) (a b : ref) :
  bool_decide (b ∈ outputsOf h a) = true → edge h a b.
Proof. apply bool_decide_eq_true. Qed.

Lemma member_check (c : Circuit) (r : ref) :
  memberb c r = true → r ∈ map_values c.
Proof. apply bool_decide_eq_true. Qed.

Lemma evaluation_order_topological_witness :
  ∃ order, getEvaluationOrder (run_ops chain_ops).1 (run_ops chain_ops).2 = Ret order ∧
    NoDup order ∧ (∀ r, r ∈ order ↔ r ∈ map_values (run_ops chain_ops).2) ∧
    (∀ a b, a ∈ map_values (run_ops chain_ops).2 →
            edge (run_ops chain_ops).1 a b → before order a b).
Proof.
  apply (evaluation_order_topological (run_ops chain_ops).1 (run_ops chain_ops).2).
  - apply wf_circuitb_sound. vm_compute. reflexivity.
  - apply (returned_order_acyclic _ _ [0; 1; 2]%nat).
    + apply wf_circuitb_sound. vm_compute. reflexivity.
    + vm_compute. reflexivity.
Defined.

Lemma ring_has_cycle : has_cycle (run_ops ring_ops).1 (run_ops ring_ops).2.
Proof.
  exists 0%nat. split.
  - apply member_check. vm_compute. reflexivity.
  - apply (tc_l _ _ 1%nat); [|apply tc_once]; apply edge_check; vm_compute; reflexivity.
Qed.

Lemma cycle_is_detected_witness :
  getEvaluationOrder (run_ops ring_ops).1 (run_ops ring_ops).2
    = Throw CycleDetectedError ∧
  evaluate (run_ops ring_ops).1 (run_ops ring_ops).2
    = ((run_ops ring_ops).1, Throw CycleDetectedError) ∧
  ∀ r, valueOf (evaluate (run_ops ring_ops).1 (run_ops ring_ops).2).1 r
       = valueOf (run_ops ring_ops).1 r.
Proof.
  apply (cycle_is_detected (run_ops ring_ops).1 (run_ops ring_ops).2).
  - apply wf_circuitb_sound. vm_compute. reflexivity.
  - apply ring_has_cycle.
Defined.

Lemma truth_table_of_cyclic_is_empty_witness :
  (getTruthTable (run_ops ring_ops).1 (run_ops ring_ops).2).2 = Ret [].
Proof.
  apply (truth_table_of_cyclic_is_empty (run_ops ring_ops).1 (run_ops ring_ops).2).
  - apply wf_circuitb_sound. vm_compute. reflexivity.
  - apply ring_has_cycle.
Defined.

(** ** One pass of evaluation *)

Lemma forallb_ext_in {A} (f g : A → bool) (l : list A) :
  (∀ a, a ∈ l → f a = g a) → forallb f l = forallb g l.
Proof.
  induction l as [|a l IH]; intros H; simpl; [done|].
  rewrite H by (by left). rewrite IH; [done|]. intros b Hb. apply H. by right.
Qed.

Lemma existsb_ext_in {A} (f g : A → bool) (l : list A) :
  (∀ a, a ∈ l → f a = g a) → existsb f l = existsb g l.
Proof.
  induction l as [|a l IH]; intros H; simpl; [done|].
  rewrite H by (by left). rewrite IH; [done|]. intros b Hb. apply H. by right.
Qed.

Lemma filter_true_ext_in (f g : ref → bool) (l : list ref) :
  (∀ a, a ∈ l → f a = g a) →
  filter (λ r, f r = true) l = filter (λ r, g r = true) l.
Proof.
  induction l as [|a l IH]; intros H; [done|].
  rewrite !filter_cons. rewrite IH by (intros b Hb; apply H; by right).
  rewrite (H a) by (by left). done.
Qed.

(** [compute] reads the kind, the input list and the values of the
    inputs; an INPUT node reads its own value. *)
Lemma compute_ext h1 h2 n n' :
  type n = type n' → inputs n = inputs n' →
  (type n = INPUT → value n = value n') →
  (∀ i, i ∈ inputs n → valueOf h1 i = valueOf h2 i) →
  compute h1 n = compute h2 n'.
Proof.
  intros Ht Hi Hv Hin. unfold compute, xor_compute. rewrite <- Ht, <- Hi.
  destruct (type n).
  - by apply forallb_ext_in.
  - by apply existsb_ext_in.
  - destruct (inputs n) as [|i0 l]; [done|]. rewrite Hin; [done | by left].
  - by rewrite (filter_true_ext_in (valueOf h1) (valueOf h2)).
  - by apply Hv.
  - destruct (inputs n) as [|i0 l]; [done|]. rewrite Hin; [done | by left].
Qed.

Lemma valueOf_upd_ne h r f r' : r' ≠ r → valueOf (upd h r f) r' = valueOf h r'.
Proof. intros Hne. unfold valueOf. rewrite lookup_upd. by rewrite decide_False. Qed.

Lemma before_snoc_inv (l : list ref) u i r :
  NoDup (l ++ [u]) → before (l ++ [u]) i r →
  (r ∈ l → before l i r) ∧ (r = u → i ∈ l).
Proof.
  intros Hnd (a & b & Ha & Hb & Hab).
  assert (Hal : r ∈ l ∨ r = u → (a < length l)%nat).
  { intros Hr. apply lookup_lt_Some in Hb as Hbl. rewrite length_app in Hbl.
    simpl in Hbl. lia. }
  split.
  - intros Hr. apply list_elem_of_lookup_1 in Hr as [b' Hb'].
    assert (b = b').
    { eapply NoDup_lookup; [done | done | by apply lookup_app_l_Some]. }
    subst b'. exists a, b. split; [|done].
    rewrite lookup_app_l in Ha; [done|]. apply lookup_lt_Some in Hb'. lia.
  - intros ->. rewrite lookup_app_l in Ha by (apply Hal; by right).
    by eapply list_elem_of_lookup_2.
Qed.

(** The loop of [evaluate] over an order in which the inputs of every
    node come before it: afterwards each node that is not an INPUT
    holds the value of its own [compute]. *)
Lemma evalNode_fold (h : heap) (l : list ref) :
  NoDup l →
  (∀ r i, r ∈ l → i ∈ inputsOf h r → before l i r) →
  same_but_values h (fold_left evalNode l h) ∧
  (∀ r, typeOf h r = Some INPUT → valueOf (fold_left evalNode l h) r = valueOf h r) ∧
  (∀ r n', r ∈ l → fold_left evalNode l h !! r = Some n' →
           type n' ≠ INPUT → value n' = compute (fold_left evalNode l h) n').
Proof.
  induction l as [|u l IH] using rev_ind; intros Hnd Hord.
  - simpl. split; [apply same_but_values_refl|]. split; [done|].
    intros r n' Hr. by apply elem_of_nil in Hr.
  - rewrite fold_left_app. cbn [fold_left].
    pose proof Hnd as Hnd'. apply NoDup_app in Hnd' as (Hndl & Hdisj & _).
    assert (Hul : u ∉ l).
    { intros Hin. apply (Hdisj u Hin). by left. }
    destruct IH as (Hs & Hinp & Hcomp); [done| |].
    { intros r i Hr Hi.
      apply (before_snoc_inv l u i r Hnd); [|done].
      apply Hord; [apply elem_of_app; by left | done]. }
    set (h0 := fold_left evalNode l h) in *.
    assert (Hins : ∀ r i, r ∈ l ++ [u] → i ∈ inputsOf h0 r → i ≠ u).
    { intros r i Hr Hi ->. destruct Hs as [_ F]. destruct (F r) as (_&_&E&_).
      rewrite E in Hi. pose proof (Hord r u Hr Hi) as Hb.
      apply elem_of_app in Hr as [Hr|Hr].
      - apply (before_snoc_inv l u u r Hnd) in Hb as [Hb _].
        destruct (Hb Hr) as (a & _ & Ha & _). apply Hul. by eapply list_elem_of_lookup_2.
      - apply list_elem_of_singleton in Hr as ->.
        apply (before_snoc_inv l u u u Hnd) in Hb as [_ Hb]. by apply Hul, Hb. }
    unfold evalNode. unfold isInputNode.
    destruct (decide (typeOf h0 u = Some INPUT)) as [Hty|Hty].
    + rewrite bool_decide_eq_true_2 by done. split; [done|]. split; [done|].
      intros r n' Hr Hn' Hne. apply elem_of_app in Hr as [Hr|Hr]; [by apply (Hcomp r)|].
      apply list_elem_of_singleton in Hr as ->. unfold typeOf in Hty.
      rewrite Hn' in Hty. simpl in Hty. congruence.
    + rewrite bool_decide_eq_false_2 by done.
      destruct (h0 !! u) as [n|] eqn:Hu.
      2: { split; [done|]. split; [done|].
           intros r n' Hr Hn' Hne. apply elem_of_app in Hr as [Hr|Hr]; [by apply (Hcomp r)|].
           apply list_elem_of_singleton in Hr as ->. congruence. }
      replace (<[u := set_value n (compute h0 n)]> h0)
        with (upd h0 u (λ m, set_value m (compute h0 n))) by (unfold upd; by rewrite Hu).
      set (h1 := upd h0 u (λ m, set_value m (compute h0 n))).
      assert (Hs1 : same_but_values h0 h1).
      { apply upd_value_same_but_values. intros m. by eexists. }
      split; [by eapply same_but_values_trans|]. split.
      * intros r Hr. rewrite <- Hinp by done. apply valueOf_upd_ne.
        intros ->. destruct Hs as [_ F]. destruct (F u) as (_&E&_). congruence.
      * intros r n' Hr Hn' Hne.
        assert (Hvals : ∀ i, i ∈ inputsOf h0 r → valueOf h1 i = valueOf h0 i).
        { intros i Hi. apply valueOf_upd_ne. by eapply Hins. }
        unfold h1 in Hn'. rewrite lookup_upd in Hn'.
        destruct (decide (r = u)) as [->|Hru].
        -- rewrite Hu in Hn'. simpl in Hn'. injection Hn' as <-. simpl.
           apply compute_ext; try done.
           intros i Hi. symmetry. apply Hvals. unfold inputsOf. by rewrite Hu.
        -- apply elem_of_app in Hr as [Hr|Hr].
           2: { apply list_elem_of_singleton in Hr. done. }
           rewrite (Hcomp r n' Hr Hn' Hne). apply compute_ext; try done.
           intros i Hi. symmetry. apply Hvals. unfold inputsOf. by rewrite Hn'.
Qed.

(** [evaluate] on an acyclic circuit returns; it writes values only,
    leaves the INPUT nodes as they were set, and leaves every other node
    of the circuit holding the value of its [compute]. *)
Lemma evaluate_acyclic (h : heap) (c : Circuit) :
  wf_circuit h c → acyclic h c →
  ∃ h', evaluate h c = (h', Ret tt) ∧
    same_but_values h h' ∧
    (∀ r, typeOf h r = Some INPUT → valueOf h' r = valueOf h r) ∧
    (∀ r n', r ∈ map_values c → h' !! r = Some n' →
             type n' ≠ INPUT → value n' = compute h' n').
Proof.
  intros Hwf Hac.
  destruct (getEvaluationOrder_acyclic h c Hwf Hac) as (order & Ho & Hnd & Hel & Hbef).
  unfold evaluate. rewrite Ho. eexists. split; [done|].
  destruct (evalNode_fold h order Hnd) as (Hs & Hi & Hc).
  - intros r i Hr Hin. apply (proj1 (wf_edges _ _ Hwf)) in Hin.
    apply Hbef; [|done]. apply (wf_closed _ _ Hwf i r Hin). right. by apply Hel.
  - split; [done|]. split; [done|]. intros r n' Hr. apply Hc. by apply Hel.
Qed.

(** ** 32-bit arithmetic in range *)

Lemma to_int32_small z : - 2 ^ 31 ≤ z < 2 ^ 31 → to_int32 z = z.
Proof. intros Hz. unfold to_int32. rewrite Z.mod_small; lia. Qed.

Lemma js_shl_one n : 0 ≤ n ≤ 30 → js_shl 1 n = 2 ^ n.
Proof.
  intros Hn. unfold js_shl. rewrite (to_int32_small 1) by lia.
  rewrite Z.mod_small by lia. rewrite Z.shiftl_1_l.
  apply to_int32_small. split.
  - pose proof (Z.pow_pos_nonneg 2 n). lia.
  - apply Z.pow_lt_mono_r; lia.
Qed.

Lemma js_bit i j : 0 ≤ i < 2 ^ 31 → (j < 32)%nat → jsBit i j = Z.testbit i (Z.of_nat j).
Proof.
  intros Hi Hj. unfold jsBit, js_and, js_sar, js_truthy.
  rewrite (to_int32_small i) by lia. rewrite (to_int32_small 1) by lia.
  rewrite (Z.mod_small (Z.of_nat j)) by lia.
  assert (Hs : 0 ≤ Z.shiftr i (Z.of_nat j) < 2 ^ 31).
  { rewrite Z.shiftr_div_pow2 by lia. split.
    - apply Z.div_pos; [lia|]. apply Z.pow_pos_nonneg; lia.
    - apply Z.le_lt_trans with i; [|lia].
      apply Z.div_le_upper_bound; [apply Z.pow_pos_nonneg; lia|].
      pose proof (Z.pow_pos_nonneg 2 (Z.of_nat j)). nia. }
  rewrite (to_int32_small (Z.shiftr i (Z.of_nat j))) by lia.
  change 1 with (Z.ones 1) at 1. rewrite Z.land_ones by lia.
  change (2 ^ 1) with 2. rewrite <- Z.bit0_mod, Z.shiftr_spec by lia.
  rewrite Z.add_0_l.
  assert (Hb : - 2 ^ 31 ≤ Z.b2z (Z.testbit i (Z.of_nat j)) < 2 ^ 31).
  { destruct (Z.testbit i (Z.of_nat j)); simpl; lia. }
  rewrite to_int32_small by done. by destruct (Z.testbit i (Z.of_nat j)).
Qed.

(** ** The truth table *)

Lemma valueOf_setValue_eq h r b : (r < length h)%nat → valueOf (setValue h r b) r = b.
Proof.
  intros Hr. apply lookup_lt_is_Some_2 in Hr as [n Hn].
  rewrite setValue_upd. unfold valueOf. rewrite lookup_upd, decide_True by done.
  by rewrite Hn.
Qed.

Lemma valueOf_setValue_ne h r b r' : r' ≠ r → valueOf (setValue h r b) r' = valueOf h r'.
Proof. intros Hne. rewrite setValue_upd. by apply valueOf_upd_ne. Qed.

Lemma setInputs_snoc h ins inp i :
  setInputs h (ins ++ [inp]) i =
    setValue (setInputs h ins i) inp (jsBit i (length ins)).
Proof.
  unfold setInputs. rewrite imap_app, fold_left_app. simpl.
  by rewrite Nat.add_0_r.
Qed.

Lemma setInputs_valueOf h ins i :
  NoDup ins → (∀ r, r ∈ ins → (r < length h)%nat) →
  ∀ j inp, ins !! j = Some inp → valueOf (setInputs h ins i) inp = jsBit i j.
Proof.
  induction ins as [|x ins IH] using rev_ind; intros Hnd Hlive j inp Hj; [done|].
  rewrite setInputs_snoc. apply NoDup_app in Hnd as (Hnd & Hdisj & _).
  apply lookup_snoc_Some in Hj as [[Hlt Hj]|[-> ->]].
  - rewrite valueOf_setValue_ne.
    + apply IH; [done | | done]. intros r Hr. apply Hlive, elem_of_app. by left.
    + intros ->. apply (Hdisj x); [by eapply list_elem_of_lookup_2 | by left].
  - apply valueOf_setValue_eq.
    destruct (setInputs_same_but_values h ins i) as [-> _].
    apply Hlive, elem_of_app. right. by left.
Qed.

Lemma fold_insert_lookup {V} (key : ref → string) (val : ref → V)
    (l : list ref) (m0 : gmap string V) r :
  r ∈ l → (∀ a b, a ∈ l → b ∈ l → key a = key b → a = b) →
  fold_left (λ m a, <[key a := val a]> m) l m0 !! key r = Some (val r).
Proof.
  induction l as [|x l IH] using rev_ind; intros Hr Hinj.
  - by apply elem_of_nil in Hr.
  - rewrite fold_left_app. simpl. destruct (decide (r = x)) as [->|Hne].
    + apply lookup_insert_eq.
    + rewrite lookup_insert_ne.
      * apply elem_of_app in Hr as [Hr|Hr].
        -- apply IH; [done|]. intros a b Ha Hb. apply Hinj; apply elem_of_app; by left.
        -- apply list_elem_of_singleton in Hr. done.
      * intros E. apply Hne. symmetry. apply Hinj; [| |done].
        -- apply elem_of_app. right. by left.
        -- done.
Qed.

(** Writing a row into an object literal is inserting the entries
    whose key is not [__proto__]. *)
Lemma fold_assign_insert {V} (key : ref → string) (val : ref → V)
    (l : list ref) (m0 : gmap string V) :
  fold_left (λ m a, js_assign m (key a) (val a)) l m0 =
  fold_left (λ m a, <[key a := val a]> m)
            (filter (λ a, key a ≠ "__proto__") l) m0.
Proof.
  revert m0. induction l as [|x l IH]; intros m0; [done|].
  rewrite filter_cons. cbn [fold_left]. unfold js_assign at 2.
  destruct (String.eqb_spec (key x) "__proto__") as [E|Hne].
  - rewrite decide_False by (intros H; by apply H). apply IH.
  - rewrite decide_True by done. cbn [fold_left]. apply IH.
Qed.

Lemma member_live h c r : wf_circuit h c → r ∈ map_values c → (r < length h)%nat.
Proof.
  intros Hwf Hr. apply list_elem_of_fmap in Hr as ([k r'] & -> & Hin).
  destruct (wf_ids _ _ Hwf _ _ Hin) as (n & Hn & _). by eapply lookup_lt_Some.
Qed.

Lemma getNodesByType_spec h c t r :
  r ∈ getNodesByType h c t ↔ typeOf h r = Some t ∧ r ∈ map_values c.
Proof. unfold getNodesByType. by rewrite list_elem_of_filter. Qed.

Lemma getNodesByType_NoDup h c t : wf_circuit h c → NoDup (getNodesByType h c t).
Proof. intros Hwf. apply NoDup_filter. by apply members_NoDup with h. Qed.

(** Each iteration of the loop of [getTruthTable] on an acyclic circuit
    appends the row read off the store that [evaluate] has left. *)
Lemma truthTableLoop_acyclic h c ins outs :
  wf_circuit h c → acyclic h c → NoDup ins →
  (∀ r, r ∈ ins → typeOf h r = Some INPUT ∧ r ∈ map_values c) →
  ∀ todo i h0 results, same_but_values h h0 →
  ∃ h' rows,
    truthTableLoop todo i h0 c ins outs results = (h', Ret (results ++ rows)) ∧
    length rows = todo ∧
    ∀ k row, rows !! k = Some row →
      ∃ hk, evaluated_at h c ins (i + Z.of_nat k) hk ∧ row = recordRow hk ins outs.
Proof.
  intros Hwf Hac Hnd Hins. induction todo as [|todo IH]; intros i h0 results Hs0.
  - exists h0, []. simpl. rewrite app_nil_r. done.
  - cbn [truthTableLoop].
    pose proof (setInputs_same_but_values h0 ins i) as Hs1.
    set (h1 := setInputs h0 ins i) in *.
    assert (Hs01 : same_but_values h h1) by (by eapply same_but_values_trans).
    destruct (evaluate_acyclic h1 c) as (h2 & -> & Hs2 & Hin2 & Hfix).
    { by eapply same_but_values_wf. }
    { by eapply same_but_values_acyclic. }
    assert (Hs02 : same_but_values h h2) by (by eapply same_but_values_trans).
    destruct (IH (i + 1) h2 (results ++ [recordRow h2 ins outs]) Hs02)
      as (h' & rows & -> & Hlen & Hrows).
    exists h', (recordRow h2 ins outs :: rows). rewrite <- app_assoc. simpl.
    split; [done|]. split; [by rewrite Hlen|].
    intros [|k] row Hk; simpl in Hk.
    + injection Hk as <-. exists h2. split; [|done].
      split; [done|]. split; [|done].
      intros j inp Hj. rewrite Z.add_0_r.
      assert (Hinm : inp ∈ ins) by (by eapply list_elem_of_lookup_2).
      destruct (Hins inp Hinm) as [Hty Hmem].
      rewrite Hin2.
      * apply setInputs_valueOf; [done | | done]. intros r Hr.
        destruct Hs0 as [-> _]. eapply member_live; [done|]. by apply Hins.
      * destruct Hs01 as [_ F]. destruct (F inp) as (_&->&_). done.
    + destruct (Hrows k row Hk) as (hk & Hev & ->). exists hk. split; [|done].
      replace (i + Z.of_nat (S k)) with (i + 1 + Z.of_nat k) by lia. done.
Qed.

Lemma recordRow_inputs h c hk ins outs i inp :
  wf_circuit h c → evaluated_at h c ins i hk →
  (∀ r, r ∈ ins → r ∈ map_values c) →
  ∀ j, ins !! j = Some inp → idOf h inp ≠ "__proto__" →
  row_inputs (recordRow hk ins outs) !! idOf h inp = Some (jsBit i j).
Proof.
  intros Hwf (Hs & Hv & _) Hins j Hj Hproto. unfold recordRow. simpl.
  assert (Hid : ∀ r, idOf hk r = idOf h r).
  { intros r. destruct Hs as [_ F]. by destruct (F r) as (->&_). }
  rewrite fold_assign_insert, <- (Hid inp), <- (Hv j inp Hj).
  apply (fold_insert_lookup (idOf hk) (valueOf hk)).
  - apply list_elem_of_filter. split; [by rewrite Hid | by eapply list_elem_of_lookup_2].
  - intros a b Ha Hb. apply list_elem_of_filter in Ha as [_ Ha], Hb as [_ Hb].
    rewrite !Hid. apply (idOf_inj h c Hwf); by apply Hins.
Qed.

(** What the loop of [getTruthTable] does with the row index: on a
    well-formed acyclic circuit with n ≤ 30 INPUT nodes, none of them
    with the id [__proto__], the table has 2^n rows and row i records
    for the j-th INPUT node of the circuit's iteration order the bit j
    of i, so the first INPUT node gets the least significant bit. *)
Lemma truth_table_lsb_first (h : heap) (c : Circuit) :
  wf_circuit h c → acyclic h c →
  (length (getNodesByType h c INPUT) ≤ 30)%nat →
  (∀ inp, inp ∈ getNodesByType h c INPUT → idOf h inp ≠ "__proto__") →
  table_enumerates lsb_first h c.
Proof.
  intros Hwf Hac Hn Hproto. unfold table_enumerates, getTruthTable.
  set (ins := getNodesByType h c INPUT) in *.
  set (outs := getNodesByType h c OUTPUT).
  rewrite js_shl_one by lia.
  assert (Hpow : Z.to_nat (2 ^ Z.of_nat (length ins)) = (2 ^ length ins)%nat).
  { rewrite <- (Nat2Z.id (2 ^ length ins)). f_equal.
    rewrite Nat2Z.inj_pow. done. }
  rewrite Hpow.
  assert (Hins : ∀ r, r ∈ ins → typeOf h r = Some INPUT ∧ r ∈ map_values c).
  { intros r Hr. by apply getNodesByType_spec. }
  destruct (truthTableLoop_acyclic h c ins outs Hwf Hac
              (getNodesByType_NoDup h c INPUT Hwf) Hins
              (2 ^ length ins)%nat 0 h [] (same_but_values_refl h))
    as (h' & rows & -> & Hlen & Hrows).
  exists rows. split; [done|]. split; [done|].
  intros i j inp row Hi Hj. destruct (Hrows i row Hi) as (hk & Hev & ->).
  rewrite (recordRow_inputs h c hk ins outs _ inp Hwf Hev (λ r Hr, proj2 (Hins r Hr)) j Hj).
  2: { apply Hproto. by eapply list_elem_of_lookup_2. }
  f_equal. rewrite Z.add_0_l. unfold lsb_first. apply js_bit.
  - apply lookup_lt_Some in Hi. rewrite Hlen in Hi. split; [lia|].
    apply Z.lt_le_trans with (2 ^ Z.of_nat (length ins)).
    + change 2 with (Z.of_nat 2) at 1. rewrite <- Nat2Z.inj_pow. lia.
    + apply Z.pow_le_mono_r; lia.
  - apply lookup_lt_Some in Hj. lia.
Qed.

(** [C2] The order of the rows is not the one claimed.  On a circuit
    of two INPUT nodes, the first with id a and the second with id b,
    [getTruthTable] returns four rows; row 1 records a = true and
    b = false, row 2 records a = false and b = true: the first INPUT
    node follows the least significant bit of the row index, where
    the claim (and the tables of synthesis and of its dialog) give it
    the most significant one. *)
Theorem truth_table_order_on_two_inputs :
  let h := (run_ops two_inputs_ops).1 in
  let c := (run_ops two_inputs_ops).2 in
  (idOf h <$> getNodesByType h c INPUT = ["a"; "b"]) ∧
  table_bit h c 0 "a" = Some false ∧ table_bit h c 0 "b" = Some false ∧
  table_bit h c 1 "a" = Some true ∧ table_bit h c 1 "b" = Some false ∧
  table_bit h c 2 "a" = Some false ∧ table_bit h c 2 "b" = Some true ∧
  table_bit h c 3 "a" = Some true ∧ table_bit h c 3 "b" = Some true ∧
  table_bit h c 4 "a" = None ∧
  ¬ table_enumerates msb_first h c.
Proof.
  intros h c.
  assert (Hins : getNodesByType h c INPUT = [0; 1]%nat) by (vm_compute; reflexivity).
  assert (Hcode : table_bit h c 1 "a" = Some true) by (vm_compute; reflexivity).
  assert (Hid : idOf h 0 = "a") by (vm_compute; reflexivity).
  repeat (split; [vm_compute; reflexivity|]).
  unfold table_enumerates. rewrite Hins. intros (rows & Hr & Hlen & Hbits).
  destruct (lookup_lt_is_Some_2 rows 1) as [row Hrow]; [rewrite Hlen; simpl; lia|].
  specialize (Hbits 1%nat 0%nat 0%nat row Hrow eq_refl).
  unfold table_bit in Hcode. rewrite Hr, Hrow in Hcode. simpl in Hcode.
  rewrite Hid, Hcode in Hbits. vm_compute in Hbits. discriminate.
Qed.

(** With 31 INPUT nodes the row count [1 << 31] is negative and the loop
    body never runs. *)
Lemma truth_table_31_inputs (h : heap) (c : Circuit) :
  length (getNodesByType h c INPUT) = 31%nat → getTruthTable h c = (h, Ret []).
Proof. intros E. unfold getTruthTable. rewrite E. reflexivity. Qed.

(** ** Identifiers *)

Lemma nat_to_string_inj a b : nat_to_string a = nat_to_string b → a = b.
Proof.
  unfold nat_to_string. intros E. apply Unsigned.to_uint_inj.
  assert (H : Some (Nat.to_uint a) = Some (Nat.to_uint b)).
  { rewrite <- !NilEmpty.usu. by rewrite E. }
  by injection H.
Qed.

Lemma string_of_uint_no_underscore d :
  has_underscore (NilEmpty.string_of_uint d) = false.
Proof. induction d; simpl; done. Qed.

Lemma nat_to_string_no_underscore a : has_underscore (nat_to_string a) = false.
Proof. apply string_of_uint_no_underscore. Qed.

Lemma append_underscore_inj a a' b b' :
  has_underscore a = false → has_underscore a' = false →
  a +:+ String "_"%char b = a' +:+ String "_"%char b' → a = a' ∧ b = b'.
Proof.
  revert a'. induction a as [|x a IH]; intros [|x' a'] Ha Ha'; simpl in *.
  - intros [= ->]. done.
  - intros [= <- _]. done.
  - intros [= -> _]. done.
  - intros [= -> E]. apply orb_false_iff in Ha as [_ Ha], Ha' as [_ Ha'].
    destruct (IH a' Ha Ha' E) as [-> ->]. done.
Qed.

Lemma inputId_inj i j : inputId i = inputId j → i = j.
Proof. unfold inputId. simpl. intros [= E]. by apply nat_to_string_inj. Qed.

Lemma andId_inj i j : andId i = andId j → i = j.
Proof. unfold andId. simpl. intros [= E]. by apply nat_to_string_inj. Qed.

Lemma notId_inj m b m' b' : notId m b = notId m' b' → m = m' ∧ b = b'.
Proof.
  unfold notId. simpl. intros [= E].
  apply append_underscore_inj in E as [E1 E2]; try apply nat_to_string_no_underscore.
  split; by apply nat_to_string_inj.
Qed.

(** ** The builder invariant *)

Lemma circuit_of_keys h : map_keys (circuit_of h) = id <$> h.
Proof.
  unfold map_keys, circuit_of. rewrite fmap_imap. simpl.
  rewrite (imap_ext _ (λ _ n, id n)) by done. apply imap_const.
Qed.

Lemma circuit_of_values h : map_values (circuit_of h) = seq 0 (length h).
Proof.
  unfold map_values, circuit_of. rewrite fmap_imap. simpl.
  rewrite <- (list_fmap_id (seq 0 (length h))). apply (imap_seq_0 h (λ j, j)).
Qed.

Lemma circuit_of_snoc h n : circuit_of (h ++ [n]) = circuit_of h ++ [(id n, length h)].
Proof. unfold circuit_of. rewrite imap_app. simpl. by rewrite Nat.add_0_r. Qed.

Lemma circuit_of_elem h k r :
  (k, r) ∈ circuit_of h ↔ ∃ n, h !! r = Some n ∧ id n = k.
Proof.
  unfold circuit_of. rewrite elem_of_lookup_imap. split.
  - intros (i & n & [= -> ->] & Hn). by exists n.
  - intros (n & Hn & <-). by exists r, n.
Qed.

Lemma circuit_of_ids h : circuit_of h = imap (λ r k, (k, r)) (id <$> h).
Proof. unfold circuit_of. rewrite imap_fmap. by apply imap_ext. Qed.

Lemma same_ids_circuit_of h h' : id <$> h' = id <$> h → circuit_of h' = circuit_of h.
Proof. intros E. by rewrite !circuit_of_ids, E. Qed.

Lemma same_but_edges_ids h h' : same_but_edges h h' → id <$> h' = id <$> h.
Proof.
  intros [L F]. apply list_eq. intros r. rewrite !list_lookup_fmap.
  destruct (F r) as (E & _). unfold idOf in E.
  destruct (h' !! r) as [n'|] eqn:E', (h !! r) as [n|] eqn:E0; simpl; try congruence.
  - apply lookup_lt_Some in E'. apply lookup_ge_None in E0. lia.
  - apply lookup_lt_Some in E0. apply lookup_ge_None in E'. lia.
Qed.

Lemma typeOf_types h r : typeOf h r = (type <$> h) !! r.
Proof. unfold typeOf. by rewrite list_lookup_fmap. Qed.

Lemma same_but_edges_types h h' : same_but_edges h h' → type <$> h' = type <$> h.
Proof.
  intros [L F]. apply list_eq. intros r. rewrite <- !typeOf_types. by destruct (F r) as (_&->&_).
Qed.

Lemma map_get_circuit_of h r :
  NoDup (id <$> h) → (r < length h)%nat → map_get (circuit_of h) (idOf h r) = Some r.
Proof.
  intros Hnd Hr. apply lookup_lt_is_Some_2 in Hr as [n Hn].
  apply map_get_elem_of; [by rewrite circuit_of_keys|].
  apply circuit_of_elem. exists n. unfold idOf. by rewrite Hn.
Qed.

Lemma edge_live h a b : edge_inv h → edge h a b → (a < length h)%nat ∧ (b < length h)%nat.
Proof.
  intros [Hs _] He. split; [by eapply outputsOf_live|].
  apply Hs in He. by eapply inputsOf_live.
Qed.

Lemma built_wf h c : built h c → wf_circuit h c.
Proof.
  intros [-> Hid He Hl]. split.
  - by rewrite circuit_of_keys.
  - intros k r Hin. by apply circuit_of_elem.
  - intros a b Hab _. rewrite circuit_of_values, !elem_of_seq.
    destruct (edge_live h a b He Hab). lia.
  - done.
Qed.

Lemma layered_path h a b : layered h → tc (edge h) a b → (layer h a < layer h b)%nat.
Proof.
  intros Hl Htc. induction Htc as [a b He|a x b He _ IH]; [by apply Hl|].
  specialize (Hl a x He). lia.
Qed.

Lemma built_acyclic h c : built h c → acyclic h c.
Proof.
  intros Hb (r & _ & Hcyc). pose proof (layered_path h r r (b_layers _ _ Hb) Hcyc). lia.
Qed.

Lemma idOf_snoc h n : idOf (h ++ [n]) (length h) = id n.
Proof. unfold idOf. rewrite lookup_app_r by lia. by rewrite Nat.sub_diag. Qed.

Lemma typeOf_snoc_old h n r : (r < length h)%nat → typeOf (h ++ [n]) r = typeOf h r.
Proof. intros Hr. unfold typeOf. by rewrite lookup_app_l. Qed.

Lemma snoc_inputsOf (h : heap) n r :
  inputs n = [] → inputsOf (h ++ [n]) r = inputsOf h r.
Proof. apply (alloc_inputsOf h n r). Qed.

Lemma snoc_outputsOf (h : heap) n r :
  outputs n = [] → outputsOf (h ++ [n]) r = outputsOf h r.
Proof. apply (alloc_outputsOf h n r). Qed.

(** [new C(id, ...)] followed by [circuit.addNode], for an id not yet
    in use. *)
Lemma built_new h c n :
  built h c → id n ∉ id <$> h → inputs n = [] → outputs n = [] →
  built (h ++ [n]) (addNode (h ++ [n]) c (length h)).
Proof.
  intros [-> Hid He Hl] Hfresh Hi Ho. split.
  - unfold addNode. rewrite idOf_snoc, map_set_fresh by (by rewrite circuit_of_keys).
    by rewrite circuit_of_snoc.
  - rewrite fmap_app. apply NoDup_app. split; [done|]. split; [|apply NoDup_singleton].
    intros k Hk Hk'. apply list_elem_of_singleton in Hk'. by subst.
  - by apply (alloc_edge_inv h n).
  - intros a b Hab. unfold edge in Hab. rewrite (snoc_outputsOf h n a Ho) in Hab.
    destruct (edge_live h a b He Hab) as [Ha Hb]. unfold layer.
    rewrite !typeOf_snoc_old by done. by apply Hl.
Qed.

(** [circuit.addConnection(a.id, b.id)] for two nodes of the circuit, the
    second in a higher layer. *)
Lemma built_connect h c a b :
  built h c → (a < length h)%nat → (b < length h)%nat →
  (layer h a < layer h b)%nat →
  addConnection h c (idOf h a) (idOf h b) = addInput h b a ∧
  built (addInput h b a) c.
Proof.
  intros [-> Hid He Hl] Ha Hb Hab. split.
  - unfold addConnection. by rewrite !map_get_circuit_of.
  - pose proof (addInput_same_but_edges h b a) as Hs.
    assert (Hty : ∀ r, layer (addInput h b a) r = layer h r).
    { intros r. unfold layer. destruct Hs as [_ F]. by destruct (F r) as (_&->&_). }
    split.
    + symmetry. apply same_ids_circuit_of. by apply same_but_edges_ids.
    + by rewrite (same_but_edges_ids _ _ Hs).
    + by apply addInput_edge_inv.
    + intros x z Hxz. rewrite !Hty. unfold edge in Hxz.
      destruct (includes (inputsOf h b) a) eqn:Hinc.
      * rewrite addInput_present in Hxz by done. by apply Hl.
      * rewrite addInput_outputsOf in Hxz by done.
        destruct (decide (x = a)) as [->|]; [|by apply Hl].
        apply elem_of_app in Hxz as [Hxz|Hxz]; [by apply Hl|].
        apply list_elem_of_singleton in Hxz as ->. done.
Qed.

(** ** Synthesis, step 1: the inputs *)

Lemma inputNodes_length n : length (inputNodes n) = n.
Proof. unfold inputNodes. by rewrite length_fmap, length_seq. Qed.

Lemma inputNodes_S n :
  inputNodes (S n) =
    inputNodes n ++ [InputNode (inputId n) startX (startY + Z.of_nat n * 120) "INPUT"].
Proof. unfold inputNodes. by rewrite seq_S, fmap_app. Qed.

Lemma inputNodes_ids n : id <$> inputNodes n = inputId <$> seq 0 n.
Proof. unfold inputNodes. rewrite <- list_fmap_compose. by apply list_fmap_ext. Qed.

Lemma inputNodes_types n : type <$> inputNodes n = replicate n INPUT.
Proof.
  induction n as [|n IH]; [done|].
  rewrite inputNodes_S, fmap_app, IH. by rewrite replicate_S_end.
Qed.

Lemma inputNodes_no_edges n r :
  inputsOf (inputNodes n) r = [] ∧ outputsOf (inputNodes n) r = [].
Proof.
  unfold inputsOf, outputsOf, inputNodes. rewrite list_lookup_fmap.
  by destruct (seq 0 n !! r).
Qed.

Lemma inputId_fresh n : inputId n ∉ id <$> inputNodes n.
Proof.
  rewrite inputNodes_ids. intros H. apply list_elem_of_fmap in H as (i & E & Hi).
  apply inputId_inj in E as <-. apply elem_of_seq in Hi. lia.
Qed.

Lemma createInputs_result n :
  fold_left createInput (seq 0 n) ([], [], []) =
    (inputNodes n, circuit_of (inputNodes n), seq 0 n).
Proof.
  induction n as [|n IH]; [done|].
  rewrite seq_S, fold_left_app, IH. cbn [fold_left createInput alloc].
  rewrite !Nat.add_0_l. change ("INPUT_" +:+ nat_to_string n) with (inputId n).
  unfold addNode. rewrite idOf_snoc. cbn [id InputNode newCircuitNode].
  rewrite map_set_fresh by (rewrite circuit_of_keys; apply inputId_fresh).
  rewrite inputNodes_S, circuit_of_snoc. rewrite inputNodes_length. done.
Qed.

Lemma built_inputs n : built (inputNodes n) (circuit_of (inputNodes n)).
Proof.
  split; [done| | |].
  - rewrite inputNodes_ids. apply NoDup_fmap_2_strong; [|apply NoDup_seq].
    intros i j _ _. apply inputId_inj.
  - split.
    + intros a b. destruct (inputNodes_no_edges n a) as [_ ->].
      destruct (inputNodes_no_edges n b) as [-> _].
      split; intros H; by apply elem_of_nil in H.
    + intros r. destruct (inputNodes_no_edges n r) as [-> ->]. split; apply NoDup_nil_2.
  - intros a b Hab. unfold edge in Hab.
    destruct (inputNodes_no_edges n a) as [_ E]. rewrite E in Hab. by apply elem_of_nil in Hab.
Qed.

(** ** Synthesis, step 3: one literal *)

Lemma addInput_effect h this node :
  (this < length h)%nat → (node < length h)%nat → node ∉ inputsOf h this →
  length (addInput h this node) = length h ∧
  type <$> addInput h this node = type <$> h ∧
  id <$> addInput h this node = id <$> h ∧
  ∀ r, inputsOf (addInput h this node) r =
         if decide (r = this) then inputsOf h this ++ [node] else inputsOf h r.
Proof.
  intros Ht Hn Hnot. pose proof (addInput_same_but_edges h this node) as Hs.
  split; [apply Hs|]. split; [by apply same_but_edges_types|].
  split; [by apply same_but_edges_ids|].
  intros r. apply addInput_inputsOf; [done | done|].
  destruct (includes (inputsOf h this) node) eqn:E; [|done].
  by apply includes_spec in E.
Qed.

Lemma inputs_live h a b : edge_inv h → a ∈ inputsOf h b → (a < length h)%nat.
Proof. intros [Hs _] H. apply Hs in H. by eapply outputsOf_live. Qed.

Lemma typeOf_same_types h h' r : type <$> h' = type <$> h → typeOf h' r = typeOf h r.
Proof. intros E. by rewrite !typeOf_types, E. Qed.

Lemma idOf_same_ids h h' r : id <$> h' = id <$> h → idOf h' r = idOf h r.
Proof.
  intros E. unfold idOf.
  assert (H : (id <$> h') !! r = (id <$> h) !! r) by (by rewrite E).
  rewrite !list_lookup_fmap in H. by destruct (h' !! r), (h !! r); simpl in *; try congruence.
Qed.

Lemma layer_same_types h h' r : type <$> h' = type <$> h → layer h' r = layer h r.
Proof. intros E. unfold layer. by rewrite (typeOf_same_types h h' r E). Qed.

Lemma typeOf_snoc_new h n : typeOf (h ++ [n]) (length h) = Some (type n).
Proof. unfold typeOf. rewrite lookup_app_r by lia. by rewrite Nat.sub_diag. Qed.

Lemma inputsOf_snoc_new h n : inputsOf (h ++ [n]) (length h) = inputs n.
Proof. unfold inputsOf. rewrite lookup_app_r by lia. by rewrite Nat.sub_diag. Qed.

(** One turn of the loop over the variables: the AND gate [g] of the
    minterm receives the literal of variable [b]. *)
Lemma connectBit_step n row m g h c b :
  built h c → (g < length h)%nat → typeOf h g = Some AND →
  (b < n)%nat → (b < length h)%nat → typeOf h b = Some INPUT →
  notId m b ∉ id <$> h → b ∉ inputsOf h g →
  ∃ h' c' l,
    connectBit n (seq 0 n) row m g (h, c) b = (h', c') ∧
    built h' c' ∧ (length h ≤ length h')%nat ∧
    (∀ r, (r < length h)%nat → typeOf h' r = typeOf h r) ∧
    (∀ r, (r < length h)%nat → r ≠ g → inputsOf h' r = inputsOf h r) ∧
    inputsOf h' g = inputsOf h g ++ [l] ∧
    lit_ok h' (isOne n row b) b l ∧ (l = b ∨ l = length h) ∧
    type <$> h' = (type <$> h) ++ (if isOne n row b then [] else [NOT]) ∧
    id <$> h' = (id <$> h) ++ (if isOne n row b then [] else [notId m b]).
Proof.
  intros Hb Hg Htg Hbn Hbl Htb Hfresh Hnin.
  unfold connectBit. rewrite lookup_seq_lt by done. rewrite Nat.add_0_l.
  fold (isOne n row b). destruct (isOne n row b) eqn:Hone.
  - destruct (built_connect h c b g Hb Hbl Hg) as [-> Hb'].
    { unfold layer. rewrite Htb, Htg. lia. }
    destruct (addInput_effect h g b Hg Hbl Hnin) as (HL & HT & HI & Hin).
    exists (addInput h g b), c, b. split; [done|]. split; [done|]. split; [lia|].
    split. { intros r _. by apply typeOf_same_types. }
    split. { intros r _ Hne. rewrite Hin. by rewrite decide_False. }
    split. { rewrite Hin. by rewrite decide_True. }
    split; [done|]. split; [by left|]. by rewrite HT, HI, !app_nil_r.
  - change ("NOT_" +:+ nat_to_string m +:+ "_" +:+ nat_to_string b) with (notId m b).
    set (nd := NotGate (notId m b) _ _). cbn [alloc].
    set (h1 := h ++ [nd]). set (r := length h). set (c1 := addNode h1 c r).
    assert (Hb1 : built h1 c1) by (by apply built_new).
    assert (Hl1 : length h1 = S (length h)).
    { unfold h1. rewrite length_app. simpl. lia. }
    assert (E1 : notId m b = idOf h1 r) by (symmetry; apply idOf_snoc).
    assert (Hr1 : typeOf h1 r = Some NOT) by apply typeOf_snoc_new.
    assert (Hold1 : ∀ x, (x < length h)%nat → typeOf h1 x = typeOf h x).
    { intros x Hx. by apply typeOf_snoc_old. }
    destruct (built_connect h1 c1 b r Hb1) as [Ec2 Hb2]; [lia | lia | |].
    { unfold layer. rewrite Hr1, Hold1, Htb by done. lia. }
    destruct (addInput_effect h1 r b) as (HL2 & HT2 & HI2 & Hin2); [lia | lia | |].
    { unfold h1, r. rewrite inputsOf_snoc_new. apply not_elem_of_nil. }
    set (h2 := addInput h1 r b) in *.
    destruct (built_connect h2 c1 r g Hb2) as [Ec3 Hb3]; [lia | lia | |].
    { unfold layer. rewrite !(typeOf_same_types h1 h2) by done.
      rewrite Hr1, Hold1, Htg by done. lia. }
    assert (Hg2 : inputsOf h2 g = inputsOf h g).
    { rewrite Hin2, decide_False by (unfold r; lia). by apply snoc_inputsOf. }
    destruct (addInput_effect h2 g r) as (HL3 & HT3 & HI3 & Hin3); [lia | lia | |].
    { rewrite Hg2. intros Hin. apply (inputs_live h r g (b_edges _ _ Hb)) in Hin.
      unfold r in Hin. lia. }
    set (h3 := addInput h2 g r) in *.
    exists h3, c1, r. split.
    { rewrite E1, !Ec2. rewrite <- (idOf_same_ids h1 h2 r HI2), Ec3. done. }
    split; [done|]. split; [lia|].
    split. { intros x Hx. rewrite (typeOf_same_types h2 h3), (typeOf_same_types h1 h2) by done.
             by apply Hold1. }
    split. { intros x Hx Hne. rewrite Hin3, decide_False by done.
             rewrite Hin2, decide_False by (unfold r; lia). by apply snoc_inputsOf. }
    split. { rewrite Hin3, decide_True by done. by rewrite Hg2. }
    split. { split.
             - by rewrite (typeOf_same_types h2 h3), (typeOf_same_types h1 h2).
             - rewrite Hin3, decide_False by (unfold r; lia).
               rewrite Hin2, decide_True by done. unfold h1, r. by rewrite inputsOf_snoc_new. }
    split; [by right|].
    rewrite HT3, HT2, HI3, HI2. unfold h1. by rewrite !fmap_app.
Qed.

Lemma zerosUpTo_S n row k :
  zerosUpTo n row (S k) =
    (zerosUpTo n row k + (if isOne n row k then 0 else 1))%nat.
Proof.
  unfold zerosUpTo. rewrite seq_S, filter_app, length_app. f_equal. simpl.
  rewrite filter_cons, filter_nil. by destruct (isOne n row k).
Qed.

Lemma zeros_filter_S n row k :
  filter (λ b, isOne n row b = false) (seq 0 (S k)) =
    filter (λ b, isOne n row b = false) (seq 0 k) ++
      (if isOne n row k then [] else [k]).
Proof.
  rewrite seq_S, filter_app. f_equal. simpl.
  rewrite filter_cons, filter_nil. by destruct (isOne n row k).
Qed.

(** The loop over the variables of one minterm. *)
Lemma connectBits_loop n row m g h0 c0 :
  built h0 c0 → (g < length h0)%nat → typeOf h0 g = Some AND →
  inputsOf h0 g = [] → (n ≤ length h0)%nat →
  (∀ b, (b < n)%nat → typeOf h0 b = Some INPUT) →
  (∀ b, notId m b ∉ id <$> h0) →
  ∀ k, (k ≤ n)%nat →
  ∃ h c,
    fold_left (connectBit n (seq 0 n) row m g) (seq 0 k) (h0, c0) = (h, c) ∧
    built h c ∧ (length h0 ≤ length h)%nat ∧
    (∀ r, (r < length h0)%nat → typeOf h r = typeOf h0 r) ∧
    (∀ r, (r < length h0)%nat → r ≠ g → inputsOf h r = inputsOf h0 r) ∧
    length (inputsOf h g) = k ∧
    (∀ b l, inputsOf h g !! b = Some l →
       lit_ok h (isOne n row b) b l ∧ (l = b ∨ (length h0 ≤ l)%nat)) ∧
    type <$> h = (type <$> h0) ++ replicate (zerosUpTo n row k) NOT ∧
    id <$> h = (id <$> h0) ++
                 (notId m <$> filter (λ b, isOne n row b = false) (seq 0 k)).
Proof.
  intros Hb0 Hg0 Htg0 Hig0 Hn0 Hin0 Hfresh0. induction k as [|k IH]; intros Hk.
  - exists h0, c0. simpl. rewrite Hig0, !app_nil_r.
    split; [done|]. split; [done|]. split; [done|]. split; [done|].
    split; [done|]. split; [done|]. split; [|done]. intros b l H. done.
  - destruct IH as (h & c & Hfold & Hb & Hlen & Hty & Hfr & Hgl & Hlits & HT & HI); [lia|].
    assert (Hlit_live : ∀ l, l ∈ inputsOf h g → (l < length h)%nat).
    { intros l Hl. by apply (inputs_live h l g (b_edges _ _ Hb)). }
    destruct (connectBit_step n row m g h c k Hb)
      as (h' & c' & l & Hstep & Hb' & Hlen' & Hty' & Hfr' & Hg' & Hlit' & Hl' & HT' & HI').
    { lia. }
    { by rewrite Hty. }
    { lia. }
    { lia. }
    { rewrite Hty by lia. apply Hin0. lia. }
    { rewrite HI. rewrite not_elem_of_app. split; [apply Hfresh0|].
      intros H. apply list_elem_of_fmap in H as (b & E & Hbk).
      apply notId_inj in E as [_ <-]. apply list_elem_of_filter in Hbk as [_ Hbk].
      apply elem_of_seq in Hbk. lia. }
    { intros H. apply list_elem_of_lookup_1 in H as [b Hbl].
      destruct (Hlits b k Hbl) as [_ [E|E]].
      - apply lookup_lt_Some in Hbl. lia.
      - lia. }
    exists h', c'. split; [by rewrite seq_S, fold_left_app, Hfold|].
    split; [done|]. split; [lia|].
    split. { intros r Hr. rewrite Hty' by lia. by apply Hty. }
    split. { intros r Hr Hne. rewrite Hfr' by (done || lia). by apply Hfr. }
    split. { rewrite Hg', length_app, Hgl. simpl. lia. }
    split.
    { intros b l0 Hbl. rewrite Hg' in Hbl.
      apply lookup_snoc_Some in Hbl as [[Hlt Hbl]|[Hbe <-]].
      - destruct (Hlits b l0 Hbl) as [Hok Hpos]. split; [|done].
        unfold lit_ok in *. destruct (isOne n row b); [done|].
        destruct Hok as [Hnot Hinp].
        assert (Hl0 : (l0 < length h)%nat).
        { apply Hlit_live. by eapply list_elem_of_lookup_2. }
        assert (l0 ≠ g).
        { intros ->. rewrite Hty in Hnot by done. congruence. }
        split; [by rewrite Hty' | by rewrite Hfr'].
      - rewrite Hgl in Hbe. subst b. split; [done|].
        destruct Hl' as [->| ->]; [by left | right; lia]. }
    split.
    { rewrite HT', HT, zerosUpTo_S, <- app_assoc. f_equal.
      destruct (isOne n row k).
      - by rewrite app_nil_r, Nat.add_0_r.
      - by rewrite Nat.add_1_r, replicate_S_end. }
    rewrite HI', HI, zeros_filter_S, fmap_app, <- app_assoc. f_equal. f_equal.
    by destruct (isOne n row k).
Qed.

(** ** Synthesis, step 3: the minterms *)

Lemma early_id_mono M k : early_id M k → early_id (S M) k.
Proof.
  intros [H|[(m & Hm & ->)|(m & b & Hm & ->)]].
  - by left.
  - right. left. exists m. split; [lia | done].
  - right. right. exists m, b. split; [lia | done].
Qed.

Lemma and_ok_frame h h' n row g :
  edge_inv h → and_ok h n row g →
  (∀ r, (r < length h)%nat → typeOf h' r = typeOf h r) →
  (∀ r, (r < length h)%nat → inputsOf h' r = inputsOf h r) →
  (g < length h)%nat →
  and_ok h' n row g.
Proof.
  intros He (Ht & Hl & Hlits) Hty Hin Hg. split; [by rewrite Hty|].
  rewrite Hin by done. split; [done|].
  intros b l Hbl. specialize (Hlits b l Hbl). unfold lit_ok in *.
  destruct (isOne n row b); [done|]. destruct Hlits as [Hnot Hinp].
  assert (Hl0 : (l < length h)%nat).
  { apply (inputs_live h l g He). by eapply list_elem_of_lookup_2. }
  split; [by rewrite Hty | by rewrite Hin].
Qed.

Lemma createMinterm_step n ms M h c andGates row :
  minterms_inv n ms M h c andGates → ms !! M = Some row →
  ∃ h' c',
    createMinterm n (seq 0 n) (h, c, andGates) (M, row)
      = (h', c', andGates ++ [length h]) ∧
    minterms_inv n ms (S M) h' c' (andGates ++ [length h]).
Proof.
  intros [Hb Hlen Hinp Hgl Hgnd Hgates HT HI] Hrow.
  unfold createMinterm. change ("AND_" +:+ nat_to_string M) with (andId M).
  set (nd := AndGate (andId M) _ _). cbn [alloc].
  set (h1 := h ++ [nd]). set (g := length h). set (c1 := addNode h1 c g).
  assert (Hfresh : andId M ∉ id <$> h).
  { intros Hin. apply HI in Hin as [(i & E)|[(m & Hm & E)|(m & b & Hm & E)]].
    - discriminate E.
    - apply andId_inj in E. lia.
    - discriminate E. }
  assert (Hb1 : built h1 c1) by (by apply built_new).
  assert (Hl1 : length h1 = S (length h)).
  { unfold h1. rewrite length_app. simpl. lia. }
  destruct (connectBits_loop n row M g h1 c1 Hb1) with (k := n)
    as (h2 & c2 & -> & Hb2 & Hlen2 & Hty2 & Hfr2 & Hg2 & Hlits2 & HT2 & HI2).
  { lia. }
  { apply typeOf_snoc_new. }
  { apply inputsOf_snoc_new. }
  { lia. }
  { intros b Hbn. unfold h1. rewrite typeOf_snoc_old by lia. by apply Hinp. }
  { intros b. unfold h1. rewrite fmap_app, not_elem_of_app. split.
    - intros Hin. apply HI in Hin as [(i & E)|[(m & Hm & E)|(m & b' & Hm & E)]].
      + discriminate E.
      + discriminate E.
      + apply notId_inj in E as [E _]. lia.
    - simpl. intros Hin. apply list_elem_of_singleton in Hin. discriminate Hin. }
  { done. }
  exists h2, c2. split; [done|]. split.
  - done.
  - lia.
  - intros b Hbn. rewrite Hty2 by lia. unfold h1. rewrite typeOf_snoc_old by lia.
    by apply Hinp.
  - rewrite length_app. simpl. lia.
  - apply NoDup_app. split; [done|]. split; [|apply NoDup_singleton].
    intros x Hx Hx'. apply list_elem_of_singleton in Hx' as ->.
    apply list_elem_of_lookup_1 in Hx as [m Hm]. destruct (Hgates m _ Hm) as [Hlt _].
    unfold g in Hlt. lia.
  - intros m g' Hm. apply lookup_snoc_Some in Hm as [[Hlt Hm]|[Hme <-]].
    + destruct (Hgates m g' Hm) as (Hg' & row' & Hrow' & Hok).
      split; [lia|]. exists row'. split; [done|].
      assert (Hok1 : and_ok h1 n row' g').
      { apply (and_ok_frame h h1); try done.
        - apply (b_edges _ _ Hb).
        - intros r Hr. by apply typeOf_snoc_old.
        - intros r Hr. by apply snoc_inputsOf. }
      destruct Hok1 as (Ht1 & Hl1' & Hlits1). split; [by rewrite Hty2 by lia|].
      rewrite Hfr2 by (unfold g; lia). split; [done|].
      intros b l Hbl. specialize (Hlits1 b l Hbl). unfold lit_ok in *.
      destruct (isOne n row' b); [done|]. destruct Hlits1 as [Hnot Hin1].
      assert (Hl0 : (l < length h1)%nat).
      { apply (inputs_live h1 l g' (b_edges _ _ Hb1)). by eapply list_elem_of_lookup_2. }
      assert (l ≠ g).
      { intros ->. unfold h1, g in Hnot. rewrite typeOf_snoc_new in Hnot. discriminate Hnot. }
      split; [by rewrite Hty2 | by rewrite Hfr2].
    + rewrite Hgl in Hme. subst m. split; [unfold g; lia|]. exists row. split; [done|].
      split; [|split; [done|]].
      * rewrite Hty2 by (unfold g; lia). apply typeOf_snoc_new.
      * intros b l Hbl. by apply Hlits2.
  - rewrite HT2. unfold h1. rewrite fmap_app, HT.
    rewrite (take_S_r _ _ _ Hrow), fmap_app, concat_app. simpl.
    rewrite app_nil_r, <- !app_assoc. done.
  - intros k Hk. rewrite HI2 in Hk. unfold h1 in Hk. rewrite fmap_app in Hk.
    apply elem_of_app in Hk as [Hk|Hk]; [apply elem_of_app in Hk as [Hk|Hk]|].
    + by apply early_id_mono, HI.
    + apply list_elem_of_singleton in Hk as ->. right. left. exists M. split; [lia | done].
    + apply list_elem_of_fmap in Hk as (b & -> & _). right. right. exists M, b.
      split; [lia | done].
Qed.

Lemma minterms_inv_start n ms :
  minterms_inv n ms 0 (inputNodes n) (circuit_of (inputNodes n)) [].
Proof.
  split.
  - apply built_inputs.
  - by rewrite inputNodes_length.
  - intros b Hb. rewrite typeOf_types, inputNodes_types. by apply lookup_replicate_2.
  - done.
  - apply NoDup_nil_2.
  - intros m g H. done.
  - rewrite inputNodes_types. simpl. by rewrite app_nil_r.
  - intros k Hk. rewrite inputNodes_ids in Hk.
    apply list_elem_of_fmap in Hk as (i & -> & _). left. by exists i.
Qed.

Lemma createMinterms_loop n ms M :
  (M ≤ length ms)%nat →
  ∃ h c andGates,
    fold_left (createMinterm n (seq 0 n)) (take M (imap pair ms))
              (inputNodes n, circuit_of (inputNodes n), [])
      = (h, c, andGates) ∧
    minterms_inv n ms M h c andGates.
Proof.
  induction M as [|M IH]; intros HM.
  - exists (inputNodes n), (circuit_of (inputNodes n)), []. split; [done|].
    apply minterms_inv_start.
  - destruct IH as (h & c & ags & Hfold & Hinv); [lia|].
    destruct (lookup_lt_is_Some_2 ms M) as [row Hrow]; [lia|].
    destruct (createMinterm_step n ms M h c ags row Hinv Hrow) as (h' & c' & Hstep & Hinv').
    exists h', c', (ags ++ [length h]). split; [|done].
    rewrite (take_S_r _ _ (M, row)).
    + by rewrite fold_left_app, Hfold.
    + by rewrite list_lookup_imap, Hrow.
Qed.

(** ** Synthesis, steps 4 and 5: the OR gate and the output *)

Lemma orGate_loop (L : list ref) (o : ref) (c : Circuit) :
  ∀ h, built h c → (o < length h)%nat → typeOf h o = Some OR → NoDup L →
  (∀ g, g ∈ L → (g < length h)%nat ∧ typeOf h g = Some AND ∧ g ∉ inputsOf h o) →
  built (fold_left (λ h g, addConnection h c (idOf h g) (idOf h o)) L h) c ∧
  length (fold_left (λ h g, addConnection h c (idOf h g) (idOf h o)) L h) = length h ∧
  type <$> fold_left (λ h g, addConnection h c (idOf h g) (idOf h o)) L h = type <$> h ∧
  id <$> fold_left (λ h g, addConnection h c (idOf h g) (idOf h o)) L h = id <$> h ∧
  inputsOf (fold_left (λ h g, addConnection h c (idOf h g) (idOf h o)) L h) o
    = inputsOf h o ++ L ∧
  ∀ r, r ≠ o →
    inputsOf (fold_left (λ h g, addConnection h c (idOf h g) (idOf h o)) L h) r
      = inputsOf h r.
Proof.
  induction L as [|g L IH]; intros h Hb Ho Hto Hnd HL.
  - simpl. by rewrite app_nil_r.
  - apply NoDup_cons in Hnd as [HgL Hnd].
    destruct (HL g) as (Hg & Htg & Hgo); [by left|].
    destruct (built_connect h c g o Hb Hg Ho) as [Ec Hb1].
    { unfold layer. rewrite Htg, Hto. lia. }
    destruct (addInput_effect h o g Ho Hg Hgo) as (HL1 & HT1 & HI1 & Hin1).
    cbn [fold_left]. rewrite Ec. set (h1 := addInput h o g) in *.
    destruct (IH h1 Hb1) as (Hb' & Hl' & HT' & HI' & Ho' & Hr'); [lia | | done | |].
    { by rewrite (typeOf_same_types h h1). }
    { intros g' Hg'. destruct (HL g') as (Hg1 & Htg1 & Hgo1); [by right|].
      split; [lia|]. split; [by rewrite (typeOf_same_types h h1)|].
      rewrite Hin1, decide_True by done. rewrite not_elem_of_app, list_elem_of_singleton.
      split; [done|]. intros ->. done. }
    split; [done|]. split; [lia|]. split; [congruence|]. split; [congruence|].
    split.
    + rewrite Ho', Hin1, decide_True by done. by rewrite <- app_assoc.
    + intros r Hne. rewrite Hr' by done. by rewrite Hin1, decide_False.
Qed.

Lemma take_all {A} (l : list A) : take (length l) l = l.
Proof. by apply take_ge. Qed.

Lemma generateCircuit_minterms n outs :
  mintermsFrom outs 0 ≠ [] →
  synthesized n (mintermsFrom outs 0) (generateCircuit n outs).1 (generateCircuit n outs).2.
Proof.
  intros Hne. unfold generateCircuit. rewrite createInputs_result.
  set (ms := mintermsFrom outs 0) in *.
  destruct (Nat.eqb_spec (length ms) 0) as [E|_].
  { destruct ms; [done | discriminate E]. }
  destruct (createMinterms_loop n ms (length ms)) as (h1 & c1 & ags & Hfold & Hinv); [lia|].
  rewrite <- (length_imap pair ms), take_all in Hfold. rewrite Hfold.
  destruct Hinv as [Hb Hlen Hinp Hgl Hgnd Hgates HT HI]. rewrite take_all in HT.
  set (ndo := OrGate "OR_FINAL" _ _). cbn [alloc].
  set (h2 := h1 ++ [ndo]). set (o := length h1). set (c2 := addNode h2 c1 o).
  assert (Hfresh2 : id ndo ∉ id <$> h1).
  { intros Hin. apply HI in Hin as [(i & E)|[(m & Hm & E)|(m & b & Hm & E)]];
      discriminate E. }
  assert (Hb2 : built h2 c2) by (by apply built_new).
  assert (Hl2 : length h2 = S (length h1)).
  { unfold h2. rewrite length_app. simpl. lia. }
  destruct (orGate_loop ags o c2 h2 Hb2) as (Hb3 & Hl3 & HT3 & HI3 & Ho3 & Hr3).
  { lia. }
  { apply typeOf_snoc_new. }
  { done. }
  { intros g Hg. apply list_elem_of_lookup_1 in Hg as [m Hm].
    destruct (Hgates m g Hm) as (Hlt & row & Hrow & (Htg & _)).
    split; [lia|]. split; [unfold h2; by rewrite typeOf_snoc_old|].
    unfold h2, o. rewrite inputsOf_snoc_new. apply not_elem_of_nil. }
  set (h3 := fold_left _ ags h2) in *.
  set (ndt := OutputNode "OUTPUT" _ _).
  set (h4 := h3 ++ [ndt]). set (t := length h3). set (c3 := addNode h4 c2 t).
  assert (Hfresh4 : id ndt ∉ id <$> h3).
  { rewrite HI3. unfold h2. rewrite fmap_app, not_elem_of_app. split.
    - intros Hin. apply HI in Hin as [(i & E)|[(m & Hm & E)|(m & b & Hm & E)]];
        discriminate E.
    - simpl. intros Hin. apply list_elem_of_singleton in Hin. discriminate Hin. }
  assert (Hb4 : built h4 c3) by (by apply built_new).
  assert (Hl4 : length h4 = S (length h3)).
  { unfold h4. rewrite length_app. simpl. lia. }
  assert (Hto4 : typeOf h4 o = Some OR).
  { unfold h4. rewrite typeOf_snoc_old by lia. rewrite (typeOf_same_types h2 h3) by done.
    apply typeOf_snoc_new. }
  destruct (built_connect h4 c3 o t Hb4) as [Ec5 Hb5]; [lia | lia | |].
  { unfold layer. rewrite Hto4. unfold h4, t. rewrite typeOf_snoc_new. simpl. lia. }
  destruct (addInput_effect h4 t o) as (HL5 & HT5 & HI5 & Hin5); [lia | lia | |].
  { unfold h4, t. rewrite inputsOf_snoc_new. apply not_elem_of_nil. }
  rewrite Ec5. set (h5 := addInput h4 t o) in *. cbn [fst snd].
  assert (Ho5 : (length h5 - 2)%nat = o) by lia.
  assert (Ht5 : (length h5 - 1)%nat = t) by lia.
  assert (Hold : ∀ r, (r < length h1)%nat →
            typeOf h5 r = typeOf h1 r ∧ inputsOf h5 r = inputsOf h1 r).
  { intros r Hr. split.
    - rewrite (typeOf_same_types h4 h5) by done. unfold h4.
      rewrite typeOf_snoc_old by lia. rewrite (typeOf_same_types h2 h3) by done.
      unfold h2. by rewrite typeOf_snoc_old.
    - rewrite Hin5, decide_False by lia. unfold h4. rewrite snoc_inputsOf by done.
      rewrite Hr3 by (unfold o; lia). unfold h2. by rewrite snoc_inputsOf. }
  split.
  - done.
  - rewrite HT5. unfold h4. rewrite fmap_app, HT3. unfold h2. rewrite fmap_app, HT.
    simpl. by rewrite <- !app_assoc.
  - exists ags. split; [done|]. split.
    + intros m g Hm. destruct (Hgates m g Hm) as (Hlt & row & Hrow & Hok).
      exists row. split; [done|].
      apply (and_ok_frame h1 h5); [apply (b_edges _ _ Hb) | done | | | done];
        intros r Hr; by apply Hold.
    + rewrite Ho5, Hin5, decide_False by lia. unfold h4. rewrite snoc_inputsOf by done.
      rewrite Ho3. unfold h2, o. by rewrite inputsOf_snoc_new.
  - rewrite Ht5, Ho5, Hin5, decide_True by done. unfold h4, t. by rewrite inputsOf_snoc_new.
  - rewrite Ht5. rewrite (idOf_same_ids h4 h5) by done. unfold h4, t. by rewrite idOf_snoc.
Qed.

(** ** Nodes of a kind *)

Lemma positions_app t A B s :
  positions t (A ++ B) s = positions t A s ++ positions t B (s + length A).
Proof.
  revert s. induction A as [|x A IH]; intros s; simpl.
  - by rewrite Nat.add_0_r.
  - rewrite IH. replace (S s + length A)%nat with (s + S (length A))%nat by lia.
    by destruct (decide (x = t)).
Qed.

Lemma positions_length t T s : length (positions t T s) = countType t T.
Proof.
  unfold countType. revert s. induction T as [|x T IH]; intros s; simpl; [done|].
  rewrite filter_cons. destruct (decide (x = t)); simpl; by rewrite IH.
Qed.

Lemma positions_replicate_same t k s : positions t (replicate k t) s = seq s k.
Proof.
  revert s. induction k as [|k IH]; intros s; simpl; [done|].
  rewrite decide_True by done. by rewrite IH.
Qed.

Lemma positions_absent t T s : t ∉ T → positions t T s = [].
Proof.
  revert s. induction T as [|x T IH]; intros s Hn; simpl; [done|].
  apply not_elem_of_cons in Hn as [Hne Hn]. rewrite decide_False by done. by apply IH.
Qed.

Lemma filter_ext_in {A} (P Q : A → Prop) `{!∀ x, Decision (P x), !∀ x, Decision (Q x)}
    (l : list A) :
  (∀ x, x ∈ l → P x ↔ Q x) → filter P l = filter Q l.
Proof.
  induction l as [|a l IH]; intros Hext; [done|].
  rewrite !filter_cons. rewrite IH by (intros x Hx; apply Hext; by right).
  destruct (decide (P a)) as [Hp|Hp], (decide (Q a)) as [Hq|Hq]; try done.
  - exfalso. apply Hq, (Hext a); [by left | done].
  - exfalso. apply Hp, (Hext a); [by left | done].
Qed.

Lemma filter_seq_positions t (T : list NodeType) :
  filter (λ r, T !! r = Some t) (seq 0 (length T)) = positions t T 0.
Proof.
  induction T as [|x T IH] using rev_ind; [done|].
  rewrite length_app. simpl. rewrite Nat.add_1_r, seq_S, filter_app, positions_app.
  f_equal.
  - rewrite <- IH. apply filter_ext_in. intros r Hr. apply elem_of_seq in Hr.
    by rewrite lookup_app_l by lia.
  - simpl. rewrite filter_cons, filter_nil.
    rewrite lookup_app_r by lia. rewrite Nat.sub_diag. simpl.
    destruct (decide (x = t)) as [->|Hne].
    + by rewrite decide_True.
    + rewrite decide_False; [done|]. congruence.
Qed.

Lemma getNodesByType_built h c t :
  built h c → getNodesByType h c t = positions t (type <$> h) 0.
Proof.
  intros Hb. unfold getNodesByType. rewrite (b_circuit _ _ Hb), circuit_of_values.
  rewrite <- filter_seq_positions, length_fmap.
  apply filter_ext_in. intros r _. by rewrite typeOf_types.
Qed.

Lemma countType_app t A B : countType t (A ++ B) = (countType t A + countType t B)%nat.
Proof. unfold countType. by rewrite filter_app, length_app. Qed.

Lemma countType_replicate t x k :
  countType t (replicate k x) = if decide (x = t) then k else 0%nat.
Proof.
  unfold countType. induction k as [|k IH]; simpl; [by destruct (decide (x = t))|].
  rewrite filter_cons. destruct (decide (x = t)); simpl; by rewrite IH.
Qed.

Lemma countType_absent t T : countType t T = 0%nat ↔ t ∉ T.
Proof.
  unfold countType. induction T as [|x T IH]; simpl.
  - split; [intros _; apply not_elem_of_nil | done].
  - rewrite filter_cons, not_elem_of_cons. destruct (decide (x = t)) as [->|Hne]; simpl.
    + split; [done | intros [? _]; done].
    + rewrite IH. split; [intros ?; split; [congruence | done] | tauto].
Qed.

(** ** What the synthesized circuit computes *)

Lemma forallb_lookup_seq {A} (f : A → bool) (g : nat → bool) (l : list A) :
  (∀ i a, l !! i = Some a → f a = g i) →
  forallb f l = forallb g (seq 0 (length l)).
Proof.
  induction l as [|a l IH] using rev_ind; intros H; [done|].
  rewrite length_app. simpl. rewrite Nat.add_1_r, seq_S, !forallb_app. simpl.
  rewrite IH.
  - f_equal. rewrite (H (length l) a); [done|].
    rewrite lookup_app_r by lia. by rewrite Nat.sub_diag.
  - intros i b Hi. apply H. by apply lookup_app_l_Some.
Qed.

Lemma existsb_lookup_seq {A} (f : A → bool) (g : nat → bool) (l : list A) :
  (∀ i a, l !! i = Some a → f a = g i) →
  existsb f l = existsb g (seq 0 (length l)).
Proof.
  induction l as [|a l IH] using rev_ind; intros H; [done|].
  rewrite length_app. simpl. rewrite Nat.add_1_r, seq_S, !existsb_app. simpl.
  rewrite IH.
  - f_equal. rewrite (H (length l) a); [done|].
    rewrite lookup_app_r by lia. by rewrite Nat.sub_diag.
  - intros i b Hi. apply H. by apply lookup_app_l_Some.
Qed.

(** After [evaluate], a node that is not an INPUT holds what [compute]
    yields on its kind and its inputs. *)
Lemma evaluated_node h c hk r ty :
  built h c → same_but_values h hk →
  (∀ r n', r ∈ map_values c → hk !! r = Some n' →
           type n' ≠ INPUT → value n' = compute hk n') →
  typeOf h r = Some ty → ty ≠ INPUT →
  ∃ n', type n' = ty ∧ inputs n' = inputsOf h r ∧ valueOf hk r = compute hk n'.
Proof.
  intros Hb [HL F] Hfix Hty Hne. destruct (F r) as (_ & Et & Ei & _).
  unfold typeOf in Hty, Et. unfold inputsOf in Ei. unfold valueOf.
  destruct (h !! r) as [n0|] eqn:E0; [|done].
  destruct (hk !! r) as [n'|] eqn:Ek; [|done]. simpl in *.
  assert (Hty0 : type n0 = ty) by congruence.
  assert (Hty1 : type n' = type n0) by congruence.
  exists n'. unfold inputsOf. rewrite E0.
  split; [congruence|]. split; [done|].
  apply (Hfix r n'); [| done | congruence].
  rewrite (b_circuit _ _ Hb), circuit_of_values. apply elem_of_seq.
  apply lookup_lt_Some in E0. lia.
Qed.

Lemma literal_value h c hk one b l :
  built h c → same_but_values h hk →
  (∀ r n', r ∈ map_values c → hk !! r = Some n' →
           type n' ≠ INPUT → value n' = compute hk n') →
  lit_ok h one b l → valueOf hk l = Bool.eqb (valueOf hk b) one.
Proof.
  intros Hb Hs Hfix Hok. unfold lit_ok in Hok. destruct one.
  - subst l. by destruct (valueOf hk b).
  - destruct Hok as [Hty Hin].
    destruct (evaluated_node h c hk l NOT Hb Hs Hfix Hty) as (n' & Ht & Hi & ->); [done|].
    unfold compute. rewrite Ht, Hi, Hin. by destruct (valueOf hk b).
Qed.

Lemma and_gate_value h c hk n row g :
  built h c → same_but_values h hk →
  (∀ r n', r ∈ map_values c → hk !! r = Some n' →
           type n' ≠ INPUT → value n' = compute hk n') →
  and_ok h n row g → valueOf hk g = minterm_matches n row (valueOf hk).
Proof.
  intros Hb Hs Hfix (Hty & Hlen & Hlits).
  destruct (evaluated_node h c hk g AND Hb Hs Hfix Hty) as (n' & Ht & Hi & ->); [done|].
  unfold compute, minterm_matches. rewrite Ht, Hi.
  rewrite (forallb_lookup_seq (valueOf hk)
             (λ b, Bool.eqb (valueOf hk b) (isOne n row b)) (inputsOf h g));
    [by rewrite Hlen|].
  intros b l Hbl. apply (literal_value h c); try done. by apply Hlits.
Qed.

Lemma last_two_types (A : list NodeType) x y :
  (A ++ [x; y]) !! (length (A ++ [x; y]) - 2)%nat = Some x ∧
  (A ++ [x; y]) !! (length (A ++ [x; y]) - 1)%nat = Some y.
Proof.
  rewrite length_app. simpl. split.
  - rewrite lookup_app_r by lia. by replace (length A + 2 - 2 - length A)%nat with 0%nat by lia.
  - rewrite lookup_app_r by lia. by replace (length A + 2 - 1 - length A)%nat with 1%nat by lia.
Qed.

(** The OUTPUT node of a synthesized circuit holds, after [evaluate],
    the sum of products of the minterms at the values of the inputs. *)
Lemma synthesized_value n ms h c hk :
  synthesized n ms h c → same_but_values h hk →
  (∀ r n', r ∈ map_values c → hk !! r = Some n' →
           type n' ≠ INPUT → value n' = compute hk n') →
  valueOf hk (length h - 1) = sum_of_products n ms (valueOf hk).
Proof.
  intros [Hb HT (ags & Hal & Hags & Hor) Hout Hid] Hs Hfix.
  assert (Hlast : typeOf h (length h - 2) = Some OR ∧ typeOf h (length h - 1) = Some OUTPUT).
  { rewrite !typeOf_types. rewrite <- (length_fmap type h), HT, app_assoc.
    apply last_two_types. }
  destruct Hlast as [Hto Htt].
  destruct (evaluated_node h c hk _ OUTPUT Hb Hs Hfix Htt) as (nt & Ht & Hi & ->); [done|].
  unfold compute at 1. rewrite Ht, Hi, Hout.
  destruct (evaluated_node h c hk _ OR Hb Hs Hfix Hto) as (no & Ht' & Hi' & ->); [done|].
  unfold compute. rewrite Ht', Hi', Hor. unfold sum_of_products.
  rewrite (existsb_lookup_seq (valueOf hk)
             (λ m, match ms !! m with
                   | Some row => minterm_matches n row (valueOf hk)
                   | None => false
                   end) ags).
  - rewrite Hal. symmetry. apply existsb_lookup_seq. intros m row Hm. by rewrite Hm.
  - intros m g Hm. destruct (Hags m g Hm) as (row & -> & Hok).
    by apply (and_gate_value h c).
Qed.

(** ** Bits of a row index *)

Lemma isOne_testbit n row b :
  (b < n)%nat → (n ≤ 32)%nat → Z.of_nat row < 2 ^ 31 →
  isOne n row b = Z.testbit (Z.of_nat row) (Z.of_nat (n - 1 - b)).
Proof.
  intros Hb Hn Hrow. unfold isOne.
  replace (Z.of_nat n - 1 - Z.of_nat b) with (Z.of_nat (n - 1 - b)) by lia.
  apply (js_bit (Z.of_nat row) (n - 1 - b)); lia.
Qed.

Lemma reverse_bits_range n i : 0 ≤ reverse_bits n i < 2 ^ Z.of_nat n.
Proof.
  induction n as [|n IH]; [simpl; lia|].
  rewrite Nat2Z.inj_succ, Z.pow_succ_r by lia. cbn [reverse_bits].
  destruct (Z.testbit i (Z.of_nat n)); simpl Z.b2z; lia.
Qed.

Lemma reverse_bits_testbit n i b :
  (b < n)%nat →
  Z.testbit (reverse_bits n i) (Z.of_nat (n - 1 - b)) = Z.testbit i (Z.of_nat b).
Proof.
  induction n as [|n IH]; intros Hb; [lia|]. cbn [reverse_bits].
  destruct (decide (b = n)) as [->|Hne].
  - replace (S n - 1 - n)%nat with 0%nat by lia. apply Z.testbit_0_r.
  - replace (S n - 1 - b)%nat with (S (n - 1 - b)) by lia.
    rewrite Nat2Z.inj_succ, Z.testbit_succ_r by lia. apply IH. lia.
Qed.

Lemma low_bits_inj n x y :
  0 ≤ x < 2 ^ Z.of_nat n → 0 ≤ y < 2 ^ Z.of_nat n →
  (∀ k, (k < n)%nat → Z.testbit x (Z.of_nat k) = Z.testbit y (Z.of_nat k)) →
  x = y.
Proof.
  intros Hx Hy Hbits. apply Z.bits_inj'. intros k Hk.
  destruct (decide (k < Z.of_nat n)) as [Hlt|Hge].
  - rewrite <- (Z2Nat.id k) by done. apply Hbits. lia.
  - rewrite <- (Z.mod_small x (2 ^ Z.of_nat n)), <- (Z.mod_small y (2 ^ Z.of_nat n)) by done.
    rewrite !Z.mod_pow2_bits_high by lia. done.
Qed.

(** A minterm matches the assignment given by the bits of [i] exactly
    when it is the bit reversal of [i]. *)
Lemma minterm_matches_reverse n row i :
  (n ≤ 31)%nat → Z.of_nat row < 2 ^ Z.of_nat n →
  minterm_matches n row (λ b, Z.testbit i (Z.of_nat b)) = true ↔
  Z.of_nat row = reverse_bits n i.
Proof.
  intros Hn Hrow.
  assert (Hrow31 : Z.of_nat row < 2 ^ 31).
  { apply Z.lt_le_trans with (2 ^ Z.of_nat n); [done|]. apply Z.pow_le_mono_r; lia. }
  unfold minterm_matches. rewrite forallb_elem_of. split.
  - intros H. apply (low_bits_inj n); [lia | apply reverse_bits_range|].
    intros k Hk. specialize (H (n - 1 - k)%nat).
    rewrite isOne_testbit in H by lia.
    replace (n - 1 - (n - 1 - k))%nat with k in H by lia.
    rewrite <- (reverse_bits_testbit n i (n - 1 - k)) in H by lia.
    replace (n - 1 - (n - 1 - k))%nat with k in H by lia.
    symmetry. apply Bool.eqb_prop, H. apply elem_of_seq. lia.
  - intros E b Hb. apply elem_of_seq in Hb. rewrite isOne_testbit by lia.
    rewrite E, reverse_bits_testbit by lia. apply Bool.eqb_reflx.
Qed.

Lemma mintermsFrom_elem outs s row :
  row ∈ mintermsFrom outs s ↔ ∃ j, row = (s + j)%nat ∧ outs !! j = Some true.
Proof.
  revert s. induction outs as [|o outs IH]; intros s; simpl.
  - split; [intros H; by apply elem_of_nil in H | intros (j & _ & H); done].
  - assert (Hrec : (∃ j, row = (S s + j)%nat ∧ outs !! j = Some true) ↔
                   (∃ j, row = (s + S j)%nat ∧ outs !! j = Some true)).
    { split; intros (j & -> & Hj); exists j; (split; [lia | done]). }
    destruct o.
    + rewrite elem_of_cons, IH, Hrec. split.
      * intros [->|(j & -> & Hj)]; [exists 0%nat | exists (S j)]; (split; [lia | done]).
      * intros ([|j] & -> & Hj); [left; lia | right; by exists j].
    + rewrite IH, Hrec. split.
      * intros (j & -> & Hj). by exists (S j).
      * intros ([|j] & -> & Hj); [done | by exists j].
Qed.

Lemma mintermsFrom_nil outs s :
  mintermsFrom outs s = [] ↔ ∀ b, b ∈ outs → b = false.
Proof.
  revert s. induction outs as [|o outs IH]; intros s; simpl.
  - split; [intros _ b H; by apply elem_of_nil in H | done].
  - destruct o.
    + split; [done|]. intros H. specialize (H true). discriminate H. by left.
    + rewrite IH. split.
      * intros H b Hb. apply elem_of_cons in Hb as [->|Hb]; [done | by apply H].
      * intros H b Hb. apply H. by right.
Qed.

Lemma mintermsFrom_length outs s :
  length (mintermsFrom outs s) = length (filter (λ b, b = true) outs).
Proof.
  revert s. induction outs as [|o outs IH]; intros s; simpl; [done|].
  rewrite filter_cons. destruct o; simpl; by rewrite IH.
Qed.

(** The sum of products over the minterms of [outs], at the assignment
    given by the bits of [i], is the entry of [outs] at the bit reversal
    of [i]. *)
Lemma sum_of_products_reverse n outs i :
  (n ≤ 31)%nat → length outs = (2 ^ n)%nat →
  sum_of_products n (mintermsFrom outs 0) (λ b, Z.testbit i (Z.of_nat b)) =
    default false (outs !! Z.to_nat (reverse_bits n i)).
Proof.
  intros Hn Hlen. apply Bool.eq_iff_eq_true.
  unfold sum_of_products. rewrite existsb_elem_of.
  assert (Hbound : ∀ row, row ∈ mintermsFrom outs 0 → Z.of_nat row < 2 ^ Z.of_nat n).
  { intros row Hrow. apply mintermsFrom_elem in Hrow as (j & -> & Hj).
    apply lookup_lt_Some in Hj. rewrite Hlen in Hj.
    change 2 with (Z.of_nat 2). rewrite <- Nat2Z.inj_pow. lia. }
  split.
  - intros (row & Hrow & Hm). apply minterm_matches_reverse in Hm; [|done | by apply Hbound].
    apply mintermsFrom_elem in Hrow as (j & -> & Hj). rewrite <- Hm, Nat2Z.id.
    simpl. by rewrite Hj.
  - intros H. destruct (outs !! Z.to_nat (reverse_bits n i)) as [[|]|] eqn:E; try done.
    exists (Z.to_nat (reverse_bits n i)). split.
    + apply mintermsFrom_elem. exists (Z.to_nat (reverse_bits n i)). by split.
    + pose proof (reverse_bits_range n i). apply minterm_matches_reverse; [done | lia | lia].
Qed.

(** ** The table of a synthesized circuit *)

Lemma sum_of_products_ext n ms v v' :
  (∀ b, (b < n)%nat → v b = v' b) →
  sum_of_products n ms v = sum_of_products n ms v'.
Proof.
  intros H. unfold sum_of_products, minterm_matches.
  apply existsb_ext_in. intros row _. apply forallb_ext_in. intros b Hb.
  apply elem_of_seq in Hb. rewrite H by lia. done.
Qed.

Lemma recordRow_single_output hk ins t :
  idOf hk t ≠ "__proto__" →
  (map_to_list (row_outputs (recordRow hk ins [t]))).*2 = [valueOf hk t].
Proof.
  intros Hne. unfold recordRow. simpl. unfold js_assign.
  destruct (String.eqb_spec (idOf hk t) "__proto__") as [E|_]; [done|].
  rewrite insert_empty, map_to_list_singleton. done.
Qed.

(** A circuit whose INPUT nodes are the first [n] objects and that has
    one OUTPUT node [t], whose id is not [__proto__]: the output column
    of its table lists, row by row, the value that [evaluate] leaves in
    [t]. *)
Lemma table_output_column h c n t (F : Z → bool) :
  built h c → getNodesByType h c INPUT = seq 0 n →
  getNodesByType h c OUTPUT = [t] → idOf h t ≠ "__proto__" → (n ≤ 30)%nat →
  (∀ i hk, 0 ≤ i < 2 ^ Z.of_nat n → evaluated_at h c (seq 0 n) i hk →
           valueOf hk t = F i) →
  ∃ rows, (getTruthTable h c).2 = Ret rows ∧
    output_column rows = (λ i, [F (Z.of_nat i)]) <$> seq 0 (2 ^ n).
Proof.
  intros Hb Hins Houts Hproto Hn HF.
  pose proof (built_wf h c Hb) as Hwf. pose proof (built_acyclic h c Hb) as Hac.
  unfold getTruthTable. rewrite Hins, Houts, length_seq, js_shl_one by lia.
  assert (Hpow : Z.to_nat (2 ^ Z.of_nat n) = (2 ^ n)%nat).
  { rewrite <- (Nat2Z.id (2 ^ n)). f_equal. by rewrite Nat2Z.inj_pow. }
  rewrite Hpow.
  destruct (truthTableLoop_acyclic h c (seq 0 n) [t] Hwf Hac (NoDup_seq 0 n))
    with (todo := (2 ^ n)%nat) (i := 0) (h0 := h) (results := @nil Row)
    as (h' & rows & -> & Hlen & Hrows).
  { intros r Hr. apply getNodesByType_spec. by rewrite Hins. }
  { apply same_but_values_refl. }
  exists rows. split; [done|]. apply list_eq. intros k.
  unfold output_column. rewrite !list_lookup_fmap.
  destruct (decide (k < 2 ^ n)%nat) as [Hk|Hk].
  - destruct (lookup_lt_is_Some_2 rows k) as [row Hrow]; [lia|].
    rewrite Hrow, lookup_seq_lt by done. simpl.
    destruct (Hrows k row Hrow) as (hk & Hev & ->).
    rewrite recordRow_single_output.
    2: { destruct Hev as ((_ & F') & _). by destruct (F' t) as (-> & _). }
    f_equal. f_equal. rewrite Z.add_0_l in Hev.
    apply HF; [|done]. split; [lia|].
    change 2 with (Z.of_nat 2). rewrite <- Nat2Z.inj_pow. lia.
  - rewrite !lookup_ge_None_2; [done | rewrite length_seq; lia | lia].
Qed.

Lemma mintermTypes_elem x n ms :
  x ∈ concat (mintermTypes n <$> ms) → x = AND ∨ x = NOT.
Proof.
  induction ms as [|row ms IH]; simpl; intros H.
  - by apply elem_of_nil in H.
  - apply elem_of_cons in H as [->|H]; [by left|].
    apply elem_of_app in H as [H|H]; [|by apply IH].
    apply elem_of_replicate in H as [-> _]. by right.
Qed.

Lemma synthesized_inputs n ms h c :
  synthesized n ms h c → getNodesByType h c INPUT = seq 0 n.
Proof.
  intros Hs. rewrite (getNodesByType_built h c INPUT (sy_built _ _ _ _ Hs)).
  rewrite (sy_types _ _ _ _ Hs), !positions_app, positions_replicate_same.
  rewrite (positions_absent INPUT (concat _)).
  - simpl. by rewrite app_nil_r.
  - intros H. by apply mintermTypes_elem in H as [|].
Qed.

Lemma synthesized_outputs n ms h c :
  synthesized n ms h c → getNodesByType h c OUTPUT = [(length h - 1)%nat].
Proof.
  intros Hs. rewrite (getNodesByType_built h c OUTPUT (sy_built _ _ _ _ Hs)).
  assert (Hl : length h = length (type <$> h)) by (by rewrite length_fmap).
  rewrite Hl, (sy_types _ _ _ _ Hs), !positions_app.
  rewrite (positions_absent OUTPUT (replicate n INPUT)).
  2: { intros H. by apply elem_of_replicate in H as [? _]. }
  rewrite (positions_absent OUTPUT (concat _)).
  2: { intros H. by apply mintermTypes_elem in H as [|]. }
  simpl. rewrite !length_app. simpl. f_equal. lia.
Qed.

Lemma evaluated_inputs h c n i hk b :
  evaluated_at h c (seq 0 n) i hk → (b < n)%nat → valueOf hk b = jsBit i b.
Proof. intros (_ & Hv & _) Hb. apply Hv. by apply lookup_seq_lt. Qed.

(** ** The constant-false vector *)

Lemma generateCircuit_constant n outs :
  mintermsFrom outs 0 = [] →
  (generateCircuit n outs).1 = constantCircuit n ∧
  built (generateCircuit n outs).1 (generateCircuit n outs).2.
Proof.
  intros E. unfold generateCircuit. rewrite createInputs_result, E. simpl.
  split; [done|]. apply built_new; [apply built_inputs | | done | done].
  rewrite inputNodes_ids. intros H. apply list_elem_of_fmap in H as (i & Hi & _).
  discriminate Hi.
Qed.

Lemma constantCircuit_types n :
  type <$> constantCircuit n = replicate n INPUT ++ [OUTPUT].
Proof. unfold constantCircuit. by rewrite fmap_app, inputNodes_types. Qed.

Lemma constantCircuit_length n : length (constantCircuit n) = S n.
Proof. unfold constantCircuit. rewrite length_app, inputNodes_length. simpl. lia. Qed.

Lemma constantCircuit_no_edges n r :
  inputsOf (constantCircuit n) r = [] ∧ outputsOf (constantCircuit n) r = [].
Proof.
  unfold constantCircuit. rewrite snoc_inputsOf, snoc_outputsOf by done.
  apply inputNodes_no_edges.
Qed.

(** ** The synthesized circuit, whatever the vector *)

Lemma generateCircuit_built n outs :
  built (generateCircuit n outs).1 (generateCircuit n outs).2.
Proof.
  destruct (mintermsFrom outs 0) as [|row ms] eqn:E.
  - by apply generateCircuit_constant.
  - apply (sy_built n (mintermsFrom outs 0)). apply generateCircuit_minterms. by rewrite E.
Qed.

Lemma generateCircuit_inputs n outs :
  getNodesByType (generateCircuit n outs).1 (generateCircuit n outs).2 INPUT = seq 0 n.
Proof.
  destruct (mintermsFrom outs 0) as [|row ms] eqn:E.
  - destruct (generateCircuit_constant n outs E) as [Eh Hb].
    rewrite (getNodesByType_built _ _ INPUT Hb), Eh, constantCircuit_types.
    rewrite positions_app, positions_replicate_same. simpl. by rewrite app_nil_r.
  - apply (synthesized_inputs n (mintermsFrom outs 0)).
    apply generateCircuit_minterms. by rewrite E.
Qed.

Lemma generateCircuit_output n outs :
  ∃ t, getNodesByType (generateCircuit n outs).1 (generateCircuit n outs).2 OUTPUT = [t] ∧
    ∀ hk, same_but_values (generateCircuit n outs).1 hk →
      (∀ r n', r ∈ map_values (generateCircuit n outs).2 → hk !! r = Some n' →
               type n' ≠ INPUT → value n' = compute hk n') →
      valueOf hk t = sum_of_products n (mintermsFrom outs 0) (valueOf hk).
Proof.
  destruct (mintermsFrom outs 0) as [|row ms] eqn:E.
  - destruct (generateCircuit_constant n outs E) as [Eh Hb]. exists n. split.
    + rewrite (getNodesByType_built _ _ OUTPUT Hb), Eh, constantCircuit_types.
      rewrite positions_app, (positions_absent OUTPUT (replicate n INPUT)).
      * simpl. by rewrite length_replicate.
      * intros H. by apply elem_of_replicate in H as [? _].
    + intros hk Hs Hfix.
      destruct (evaluated_node _ _ hk n OUTPUT Hb Hs Hfix) as (nt & Ht & Hi & ->); [|done|].
      * rewrite typeOf_types, Eh, constantCircuit_types.
        rewrite lookup_app_r by (rewrite length_replicate; lia).
        by rewrite length_replicate, Nat.sub_diag.
      * unfold compute. rewrite Ht, Hi, Eh.
        by destruct (constantCircuit_no_edges n n) as [-> _].
  - assert (Hs : synthesized n (mintermsFrom outs 0)
                   (generateCircuit n outs).1 (generateCircuit n outs).2).
    { apply generateCircuit_minterms. by rewrite E. }
    rewrite <- E. eexists. split; [by apply (synthesized_outputs n (mintermsFrom outs 0))|].
    intros hk Hsv Hfix. by apply (synthesized_value n _ _ (generateCircuit n outs).2).
Qed.

Lemma generateCircuit_output_idOf n outs t :
  getNodesByType (generateCircuit n outs).1 (generateCircuit n outs).2 OUTPUT = [t] →
  idOf (generateCircuit n outs).1 t =
    match mintermsFrom outs 0 with [] => "OUTPUT_FINAL" | _ => "OUTPUT" end.
Proof.
  intros Ht. pose proof (generateCircuit_built n outs) as Hb.
  destruct (mintermsFrom outs 0) as [|row ms] eqn:E.
  - destruct (generateCircuit_constant n outs E) as [Eh _].
    assert (t = n).
    { rewrite (getNodesByType_built _ _ OUTPUT Hb), Eh, constantCircuit_types in Ht.
      rewrite positions_app, (positions_absent OUTPUT (replicate n INPUT)) in Ht.
      - simpl in Ht. rewrite length_replicate in Ht. congruence.
      - intros H. by apply elem_of_replicate in H as [? _]. }
    subst t. rewrite Eh. unfold idOf, constantCircuit.
    rewrite lookup_app_r by (rewrite inputNodes_length; lia).
    by rewrite inputNodes_length, Nat.sub_diag.
  - assert (Hs : synthesized n (mintermsFrom outs 0)
                   (generateCircuit n outs).1 (generateCircuit n outs).2).
    { apply generateCircuit_minterms. by rewrite E. }
    rewrite (synthesized_outputs _ _ _ _ Hs) in Ht. injection Ht as <-.
    apply (sy_output_id _ _ _ _ Hs).
Qed.

(** Row [i] of the table of the synthesized circuit holds the entry of
    the vector at the bit reversal of [i]. *)
Lemma round_trip_reversed_upto_30 n outs :
  (n ≤ 30)%nat → length outs = (2 ^ n)%nat → round_trip_reversed n outs.
Proof.
  intros Hn Hlen. unfold round_trip_reversed, synthesized_table.
  destruct (generateCircuit_output n outs) as (t & Houts & Hval).
  destruct (table_output_column _ _ n t
              (λ i, default false (outs !! Z.to_nat (reverse_bits n i)))
              (generateCircuit_built n outs) (generateCircuit_inputs n outs) Houts)
    as (rows & Hrows & Hcol).
  - rewrite (generateCircuit_output_idOf n outs t Houts).
    by destruct (mintermsFrom outs 0).
  - done.
  - intros i hk Hi Hev. pose proof Hev as (Hs & _ & Hfix).
    rewrite (Hval hk Hs Hfix).
    rewrite (sum_of_products_ext n _ _ (λ b, Z.testbit i (Z.of_nat b))).
    + apply sum_of_products_reverse; [lia | done].
    + intros b Hb. rewrite (evaluated_inputs _ _ n i hk b Hev Hb). apply js_bit; [|lia].
      split; [lia|]. apply Z.lt_le_trans with (2 ^ Z.of_nat n); [lia|].
      apply Z.pow_le_mono_r; lia.
  - exists rows. rewrite Hrows. done.
Qed.

(** [C1] The round trip fails for two inputs and the vector 0100.  The
    synthesis dialog shows row 1, the one entered as true, with the
    digits 0 1 for the inputs 0 and 1.  The table that [getTruthTable]
    returns for the synthesized circuit has the output column
    0 0 1 0: its true entry sits in row 2, and that row records
    [INPUT_0] = false and [INPUT_1] = true, the assignment of the
    dialog's row 1.  The circuit computes the function that was
    entered; the table lists its rows in another order than the dialog
    and the synthesis do, so its output column is not the vector. *)
Theorem round_trip_breaks_on_0100 :
  let outs := [false; true; false; false] in
  let h := (generateCircuit 2 outs).1 in
  let c := (generateCircuit 2 outs).2 in
  synthesisCell 2 1 0 = 0 ∧ synthesisCell 2 1 1 = 1 ∧
  output_column <$> synthesized_table 2 outs
    = Some [[false]; [false]; [true]; [false]] ∧
  table_bit h c 2 "INPUT_0" = Some false ∧
  table_bit h c 2 "INPUT_1" = Some true ∧
  table_bit h c 1 "INPUT_0" = Some true ∧
  table_bit h c 1 "INPUT_1" = Some false ∧
  ¬ round_trip 2 outs.
Proof.
  intros outs h c.
  assert (Hcode : output_column <$> synthesized_table 2 outs
                  = Some [[false]; [false]; [true]; [false]]) by (vm_compute; reflexivity).
  repeat (split; [vm_compute; reflexivity|]).
  intros (rows & Hr & Hcol). rewrite Hr in Hcode. simpl in Hcode.
  rewrite Hcol in Hcode. discriminate Hcode.
Qed.

(** [C6] Whatever the vector, the synthesized circuit is acyclic;
    [evaluate] on it returns, and [getTruthTable] completes every
    iteration of its loop, so that its row count is the loop bound
    (2^inputCount for up to 30 inputs) and never the empty table of the
    cyclic case. *)
Theorem synthesized_circuit_is_acyclic (n : nat) (outs : list bool) :
  acyclic (generateCircuit n outs).1 (generateCircuit n outs).2 ∧
  (evaluate (generateCircuit n outs).1 (generateCircuit n outs).2).2 = Ret tt ∧
  ∃ rows,
    (getTruthTable (generateCircuit n outs).1 (generateCircuit n outs).2).2 = Ret rows ∧
    length rows = Z.to_nat (js_shl 1 (Z.of_nat n)) ∧
    ((n ≤ 30)%nat → length rows = (2 ^ n)%nat ∧ rows ≠ []).
Proof.
  pose proof (generateCircuit_built n outs) as Hb.
  pose proof (built_wf _ _ Hb) as Hwf. pose proof (built_acyclic _ _ Hb) as Hac.
  split; [done|]. split.
  - destruct (evaluate_acyclic _ _ Hwf Hac) as (h' & -> & _). done.
  - unfold getTruthTable. rewrite generateCircuit_inputs, length_seq.
    destruct (truthTableLoop_acyclic _ _ (seq 0 n)
                (getNodesByType (generateCircuit n outs).1 (generateCircuit n outs).2 OUTPUT)
                Hwf Hac (NoDup_seq 0 n))
      with (todo := Z.to_nat (js_shl 1 (Z.of_nat n))) (i := 0)
           (h0 := (generateCircuit n outs).1) (results := @nil Row)
      as (h' & rows & -> & Hlen & _).
    { intros r Hr. apply getNodesByType_spec. by rewrite generateCircuit_inputs. }
    { apply same_but_values_refl. }
    exists rows. split; [done|]. split; [done|]. intros Hn.
    assert (Hpow : length rows = (2 ^ n)%nat).
    { rewrite Hlen, js_shl_one by lia. rewrite <- (Nat2Z.id (2 ^ n)). f_equal.
      by rewrite Nat2Z.inj_pow. }
    split; [done|]. intros ->. simpl in Hpow.
    pose proof (Nat.pow_nonzero 2 n). lia.
Qed.

(** ** Gate counts *)

Lemma countType_minterms_AND n ms :
  countType AND (concat (mintermTypes n <$> ms)) = length ms.
Proof.
  induction ms as [|row ms IH]; [done|]. rewrite fmap_cons. cbn [concat].
  rewrite countType_app, IH. unfold mintermTypes.
  change (AND :: replicate (zerosUpTo n row n) NOT)
    with ([AND] ++ replicate (zerosUpTo n row n) NOT).
  rewrite countType_app, countType_replicate. by rewrite decide_False.
Qed.

Lemma countType_minterms_NOT n ms :
  countType NOT (concat (mintermTypes n <$> ms)) =
    sum_list_with (λ row, zerosUpTo n row n) ms.
Proof.
  induction ms as [|row ms IH]; [done|]. rewrite fmap_cons. cbn [concat sum_list_with].
  rewrite countType_app, IH. unfold mintermTypes.
  change (AND :: replicate (zerosUpTo n row n) NOT)
    with ([AND] ++ replicate (zerosUpTo n row n) NOT).
  rewrite countType_app, countType_replicate. by rewrite decide_True.
Qed.

Lemma countType_minterms_other t n ms :
  t ≠ AND → t ≠ NOT → countType t (concat (mintermTypes n <$> ms)) = 0%nat.
Proof.
  intros H1 H2. apply countType_absent. intros H.
  by apply mintermTypes_elem in H as [|].
Qed.

Lemma zerosUpTo_zero_bits n row :
  (n ≤ 32)%nat → Z.of_nat row < 2 ^ 31 → zerosUpTo n row n = zero_bits n row.
Proof.
  intros Hn Hrow. unfold zerosUpTo, zero_bits. f_equal.
  apply filter_ext_in. intros b Hb. apply elem_of_seq in Hb.
  by rewrite isOne_testbit by lia.
Qed.

Lemma zerosUpTo_le n row k : (zerosUpTo n row k ≤ k)%nat.
Proof.
  unfold zerosUpTo. etransitivity; [apply length_filter|]. by rewrite length_seq.
Qed.

Lemma sum_zeros_le n ms :
  (sum_list_with (λ row, zerosUpTo n row n) ms ≤ length ms * n)%nat.
Proof.
  induction ms as [|row ms IH]; simpl; [done|].
  pose proof (zerosUpTo_le n row n). lia.
Qed.

Lemma sum_zeros_zero_bits n ms :
  (n ≤ 32)%nat → (∀ row, row ∈ ms → Z.of_nat row < 2 ^ 31) →
  sum_list_with (λ row, zerosUpTo n row n) ms = sum_list_with (zero_bits n) ms.
Proof.
  intros Hn. induction ms as [|row ms IH]; intros H; simpl; [done|].
  rewrite zerosUpTo_zero_bits by (done || apply H; by left).
  rewrite IH; [done|]. intros r Hr. apply H. by right.
Qed.

Lemma minterms_types_length n ms :
  length (concat (mintermTypes n <$> ms)) =
    (length ms + sum_list_with (λ row, zerosUpTo n row n) ms)%nat.
Proof.
  induction ms as [|row ms IH]; [done|]. rewrite fmap_cons. cbn [concat sum_list_with].
  rewrite length_app, IH. unfold mintermTypes. simpl. rewrite length_replicate. lia.
Qed.

Lemma synthesized_counts n ms h c t :
  synthesized n ms h c →
  length (getNodesByType h c t) =
    match t with
    | INPUT => n
    | AND => length ms
    | NOT => sum_list_with (λ row, zerosUpTo n row n) ms
    | OR => 1%nat
    | OUTPUT => 1%nat
    | XOR => 0%nat
    end.
Proof.
  intros Hs. rewrite (getNodesByType_built h c t (sy_built _ _ _ _ Hs)).
  rewrite positions_length, (sy_types _ _ _ _ Hs), !countType_app, countType_replicate.
  destruct t.
  - rewrite countType_minterms_AND. change (countType AND [OR; OUTPUT]) with 0%nat.
    rewrite decide_False by done. lia.
  - rewrite countType_minterms_other by done. change (countType OR [OR; OUTPUT]) with 1%nat.
    rewrite decide_False by done. lia.
  - rewrite countType_minterms_NOT. change (countType NOT [OR; OUTPUT]) with 0%nat.
    rewrite decide_False by done. lia.
  - rewrite countType_minterms_other by done. change (countType XOR [OR; OUTPUT]) with 0%nat.
    rewrite decide_False by done. lia.
  - rewrite countType_minterms_other by done. change (countType INPUT [OR; OUTPUT]) with 0%nat.
    rewrite decide_True by done. lia.
  - rewrite countType_minterms_other by done.
    change (countType OUTPUT [OR; OUTPUT]) with 1%nat.
    rewrite decide_False by done. lia.
Qed.

Lemma synthesized_and_inputs n ms h c g :
  synthesized n ms h c → g ∈ getNodesByType h c AND → length (inputsOf h g) = n.
Proof.
  intros Hs Hg. pose proof (sy_built _ _ _ _ Hs) as Hb.
  pose proof (built_wf _ _ Hb) as Hwf.
  destruct (sy_gates _ _ _ _ Hs) as (ags & Hal & Hags & Hor).
  assert (Hnd : NoDup ags).
  { rewrite <- Hor. apply (proj2 (b_edges _ _ Hb)). }
  assert (Hsub : ∀ a, a ∈ ags → a ∈ getNodesByType h c AND).
  { intros a Ha. apply list_elem_of_lookup_1 in Ha as [m Hm].
    destruct (Hags m a Hm) as (row & _ & (Hty & _)).
    apply getNodesByType_spec. split; [done|].
    rewrite (b_circuit _ _ Hb), circuit_of_values. apply elem_of_seq.
    unfold typeOf in Hty. destruct (h !! a) eqn:E; [|done].
    apply lookup_lt_Some in E. lia. }
  assert (Hperm : ags ≡ₚ getNodesByType h c AND).
  { apply submseteq_length_Permutation; [by apply NoDup_submseteq|].
    rewrite (synthesized_counts n ms h c AND Hs). lia. }
  rewrite <- Hperm in Hg. apply list_elem_of_lookup_1 in Hg as [m Hm].
  destruct (Hags m g Hm) as (row & _ & (_ & Hlen & _)). done.
Qed.

(** [C8] For inputCount = n (at most 31, the largest for which a vector
    of length 2^n exists) and a vector with k ≥ 1 true entries, the
    synthesized circuit has exactly k AND gates, one OR gate, one OUTPUT
    node, n INPUT nodes and, per minterm, one NOT gate per variable at
    which the minterm has a zero bit, hence at most k·n NOT gates, and
    nothing else; each AND gate has exactly n inputs. *)
Theorem synthesis_gate_counts (n : nat) (outs : list bool) :
  (n ≤ 31)%nat → length outs = (2 ^ n)%nat →
  (1 ≤ length (filter (λ b, b = true) outs))%nat →
  let h := (generateCircuit n outs).1 in
  let c := (generateCircuit n outs).2 in
  let k := length (filter (λ b, b = true) outs) in
  let nots := sum_list_with (zero_bits n) (mintermsFrom outs 0) in
  length (getNodesByType h c AND) = k ∧
  length (getNodesByType h c OR) = 1%nat ∧
  length (getNodesByType h c OUTPUT) = 1%nat ∧
  length (getNodesByType h c INPUT) = n ∧
  length (getNodesByType h c NOT) = nots ∧ (nots ≤ k * n)%nat ∧
  map_size c = (n + k + nots + 2)%nat ∧
  ∀ g, g ∈ getNodesByType h c AND → length (inputsOf h g) = n.
Proof.
  intros Hn Hlen Hk h c k nots.
  assert (Hms : length (mintermsFrom outs 0) = k) by apply mintermsFrom_length.
  assert (Hs : synthesized n (mintermsFrom outs 0) h c).
  { apply generateCircuit_minterms. intros E. rewrite E in Hms. simpl in Hms.
    unfold k in Hms. lia. }
  assert (Hnots : sum_list_with (λ row, zerosUpTo n row n) (mintermsFrom outs 0) = nots).
  { apply sum_zeros_zero_bits; [lia|]. intros row Hrow.
    apply mintermsFrom_elem in Hrow as (j & -> & Hj). apply lookup_lt_Some in Hj.
    rewrite Hlen in Hj. apply Z.lt_le_trans with (2 ^ Z.of_nat n).
    - change 2 with (Z.of_nat 2). rewrite <- Nat2Z.inj_pow. lia.
    - apply Z.pow_le_mono_r; lia. }
  rewrite !(synthesized_counts n _ h c _ Hs), Hms, Hnots.
  split; [done|]. split; [done|]. split; [done|]. split; [done|]. split; [done|].
  split. { rewrite <- Hnots, <- Hms. apply sum_zeros_le. }
  split.
  - unfold map_size. rewrite (b_circuit _ _ (sy_built _ _ _ _ Hs)).
    unfold circuit_of. rewrite length_imap, <- (length_fmap type h), (sy_types _ _ _ _ Hs).
    rewrite !length_app, length_replicate, minterms_types_length, Hms, Hnots. simpl. lia.
  - intros g Hg. by apply (synthesized_and_inputs n (mintermsFrom outs 0) h c).
Qed.

Lemma synthesis_gate_counts_witness :
  let h := (generateCircuit 2 [false; true; false; false]).1 in
  let c := (generateCircuit 2 [false; true; false; false]).2 in
  length (getNodesByType h c AND) = 1%nat ∧
  length (getNodesByType h c OR) = 1%nat ∧
  length (getNodesByType h c OUTPUT) = 1%nat ∧
  length (getNodesByType h c INPUT) = 2%nat ∧
  length (getNodesByType h c NOT) = 1%nat ∧ (1 ≤ 1 * 2)%nat ∧
  map_size c = (2 + 1 + 1 + 2)%nat ∧
  ∀ g, g ∈ getNodesByType h c AND → length (inputsOf h g) = 2%nat.
Proof.
  apply (synthesis_gate_counts 2 [false; true; false; false]).
  - lia.
  - reflexivity.
  - vm_compute. lia.
Defined.

(** [C9, as stated] fails for two inputs: the circuit for the vector
    0000 holds three nodes, the two INPUT nodes and the OUTPUT node. *)
Lemma constant_false_counterexample :
  ¬ only_an_output (generateCircuit 2 [false; false; false; false]).1
                   (generateCircuit 2 [false; false; false; false]).2.
Proof.
  assert (Hc : map_values (generateCircuit 2 [false; false; false; false]).2
               = [0; 1; 2]%nat) by (vm_compute; reflexivity).
  intros (o & Hv & _). rewrite Hc in Hv. discriminate Hv.
Qed.

(** [C9, amended] For a vector without a true entry the synthesized
    circuit holds the inputCount INPUT nodes and one OUTPUT node (id
    OUTPUT_FINAL) and nothing else, no node has an input or an output
    edge, and [evaluate], whatever values the nodes hold, returns and
    leaves false in the OUTPUT node. *)
Theorem constant_false_circuit (n : nat) (outs : list bool) :
  true ∉ outs →
  let h := (generateCircuit n outs).1 in
  let c := (generateCircuit n outs).2 in
  getNodesByType h c INPUT = seq 0 n ∧
  getNodesByType h c OUTPUT = [n] ∧
  map_values c = seq 0 (S n) ∧
  idOf h n = "OUTPUT_FINAL" ∧
  (∀ r, inputsOf h r = [] ∧ outputsOf h r = []) ∧
  ∀ h0, same_but_values h h0 →
    ∃ h', evaluate h0 c = (h', Ret tt) ∧ valueOf h' n = false.
Proof.
  intros Hno h c.
  assert (E : mintermsFrom outs 0 = []).
  { apply mintermsFrom_nil. intros [|] Hb; [done | done]. }
  destruct (generateCircuit_constant n outs E) as [Eh Hb]. fold h c in Eh, Hb.
  pose proof (built_wf _ _ Hb) as Hwf. pose proof (built_acyclic _ _ Hb) as Hac.
  destruct (generateCircuit_output n outs) as (t & Houts & Hval). fold h c in Houts, Hval.
  assert (Ht : getNodesByType h c OUTPUT = [n]).
  { rewrite (getNodesByType_built _ _ OUTPUT Hb), Eh, constantCircuit_types.
    rewrite positions_app, (positions_absent OUTPUT (replicate n INPUT)).
    - simpl. by rewrite length_replicate.
    - intros H. by apply elem_of_replicate in H as [? _]. }
  assert (t = n) as -> by congruence.
  split; [apply generateCircuit_inputs|]. split; [done|].
  split. { rewrite (b_circuit _ _ Hb), circuit_of_values, Eh. by rewrite constantCircuit_length. }
  split. { rewrite Eh. unfold constantCircuit.
           rewrite <- (inputNodes_length n) at 2. by rewrite idOf_snoc. }
  split. { intros r. rewrite Eh. apply constantCircuit_no_edges. }
  intros h0 Hs0.
  destruct (evaluate_acyclic h0 c) as (h' & Hev & Hs' & _ & Hfix).
  { by eapply same_but_values_wf. }
  { by eapply same_but_values_acyclic. }
  exists h'. split; [done|].
  rewrite (Hval h'); [| by eapply same_but_values_trans | done].
  by rewrite E.
Qed.

Lemma constant_false_circuit_witness :
  let h := (generateCircuit 2 [false; false; false; false]).1 in
  let c := (generateCircuit 2 [false; false; false; false]).2 in
  getNodesByType h c INPUT = seq 0 2 ∧
  getNodesByType h c OUTPUT = [2%nat] ∧
  map_values c = seq 0 3 ∧
  idOf h 2 = "OUTPUT_FINAL" ∧
  (∀ r, inputsOf h r = [] ∧ outputsOf h r = []) ∧
  ∀ h0, same_but_values h h0 →
    ∃ h', evaluate h0 c = (h', Ret tt) ∧ valueOf h' 2 = false.
Proof.
  apply (constant_false_circuit 2 [false; false; false; false]).
  apply (bool_decide_eq_false_1 (true ∈ [false; false; false; false])).
  vm_compute. reflexivity.
Defined.

(** * Further properties: lemmas *)

(** ** Adding and removing an edge *)

Lemma includes_snoc (l : list ref) r : includes (l ++ [r]) r = true.
Proof. apply includes_spec. set_solver. Qed.

Lemma addInput_idempotent_aux (h : heap) (this node : ref) :
  addInput (addInput h this node) this node = addInput h this node.
Proof.
  destruct (h !! this) as [t|] eqn:Et.
  2: { assert (E : addInput h this node = h) by (unfold addInput; by rewrite Et). by rewrite !E. }
  destruct (includes (inputs t) node) eqn:Hinc.
  { rewrite (addInput_present h) by (unfold inputsOf; by rewrite Et).
    apply addInput_present. unfold inputsOf. by rewrite Et. }
  apply addInput_present.
  rewrite (addInput_upd _ _ _ _ Et), Hinc.
  unfold inputsOf. rewrite !lookup_upd, Et. simpl.
  case_decide; subst; rewrite decide_True by done; simpl; apply includes_snoc.
Qed.

Lemma indexOf_snoc (l : list ref) r :
  r ∉ l → indexOf (l ++ [r]) r = Some (length l) ∧ splice1 (l ++ [r]) (length l) = l.
Proof.
  intros Hr. split.
  - induction l as [|a l IH]; simpl.
    + by rewrite Nat.eqb_refl.
    + apply not_elem_of_cons in Hr as [Hne Hr].
      destruct (Nat.eqb_spec a r); [congruence|]. by rewrite IH.
  - unfold splice1. rewrite take_app_length.
    rewrite drop_ge; [by rewrite app_nil_r|]. rewrite length_app. simpl. lia.
Qed.

(** Connecting and disconnecting again gives back the store. *)
Lemma removeInput_addInput_aux (h : heap) (this node : ref) :
  (this < length h)%nat → (node < length h)%nat →
  node ∉ inputsOf h this → this ∉ outputsOf h node →
  removeInput (addInput h this node) this node = h.
Proof.
  intros Ht Hn Hi Ho.
  assert (Hinc : includes (inputsOf h this) node = false).
  { destruct (includes _ _) eqn:E; [|done]. by apply includes_spec in E. }
  apply lookup_lt_is_Some_2 in Ht as [t Et]. apply lookup_lt_is_Some_2 in Hn as [n En].
  unfold inputsOf in Hi, Hinc. unfold outputsOf in Ho. rewrite Et in Hi, Hinc. rewrite En in Ho.
  destruct (indexOf_snoc _ _ Hi) as [Ii Is]. destruct (indexOf_snoc _ _ Ho) as [Oi Os].
  rewrite (addInput_upd _ _ _ _ Et), Hinc.
  set (h1 := upd (upd h this _) node _).
  assert (E1 : ∃ t1, h1 !! this = Some t1 ∧ inputs t1 = inputs t ++ [node]).
  { unfold h1. rewrite !lookup_upd, Et.
    destruct (decide (this = node)); rewrite decide_True by done; simpl; eauto. }
  destruct E1 as (t1 & Et1 & Ei1).
  rewrite (removeInput_upd _ _ _ t1 (length (inputs t)) Et1) by (by rewrite Ei1).
  apply list_eq. intros r. unfold h1. rewrite !lookup_upd.
  destruct (decide (r = node)) as [Hrn|Hrn], (decide (r = this)) as [Hrt|Hrt];
    subst; rewrite ?Et, ?En; simpl; try done.
  - assert (n = t) by congruence. subst n. rewrite Oi, Is, Os. by destruct t.
  - rewrite Oi, Os. by destruct n.
  - rewrite Is. by destruct t.
Qed.

Lemma addInput_edge h this node a b :
  (this < length h)%nat → (node < length h)%nat → edges_symmetric h →
  edge (addInput h this node) a b ↔ edge h a b ∨ (a = node ∧ b = this).
Proof.
  intros Ht Hn Hs. unfold edge.
  destruct (includes (inputsOf h this) node) eqn:Hinc.
  - rewrite addInput_present by done. apply includes_spec in Hinc. apply Hs in Hinc.
    split; [by left|]. intros [H|[-> ->]]; done.
  - rewrite addInput_outputsOf by done. case_decide; subst.
    + rewrite elem_of_app, list_elem_of_singleton. intuition.
    + intuition.
Qed.

Lemma removeInput_edge h this node a b :
  edge_inv h →
  edge (removeInput h this node) a b ↔ edge h a b ∧ ¬ (a = node ∧ b = this).
Proof.
  intros [Hs Hu]. unfold edge.
  destruct (indexOf (inputsOf h this) node) as [i|] eqn:Hi.
  - assert (Hin : node ∈ inputsOf h this).
    { destruct (decide (node ∈ inputsOf h this)) as [|Hn]; [done|].
      apply indexOf_None in Hn. congruence. }
    apply Hs in Hin.
    destruct (indexOf (outputsOf h node) this) as [j|] eqn:Hj.
    2: { by apply indexOf_None in Hj. }
    rewrite (removeInput_outputsOf _ _ _ _ _ Hi), Hj. case_decide; subst.
    + rewrite (splice1_elem_of _ _ _ _ (proj2 (Hu _)) Hj). intuition.
    + intuition.
  - rewrite removeInput_absent by done. apply indexOf_None in Hi.
    split; [|tauto]. intros H. split; [done|]. intros [-> ->]. by apply Hs in H.
Qed.

Lemma removeInput_fold_edge {A} (T S : A → ref) (l : list A) h a b :
  edge_inv h →
  let h' := fold_left (λ h x, removeInput h (T x) (S x)) l h in
  edge_inv h' ∧
  (edge h' a b ↔ edge h a b ∧ ∀ x, x ∈ l → ¬ (a = S x ∧ b = T x)).
Proof.
  revert h. induction l as [|x l IH]; intros h Hinv; simpl.
  - split; [done|]. split; [|tauto]. intros H. split; [done|].
    intros x Hx. by apply elem_of_nil in Hx.
  - destruct (IH (removeInput h (T x) (S x))) as [H1 H2].
    { by apply removeInput_edge_inv. }
    split; [done|]. rewrite H2, removeInput_edge by done.
    setoid_rewrite elem_of_cons. split.
    + intros [[He Hx] Hl]. split; [done|]. intros y [->|Hy]; [done | by apply Hl].
    + intros [He Hl]. split; [split; [done|]|]; eauto.
Qed.

Lemma removeNode_edge h c nodeId node a b :
  edge_inv h → map_get c nodeId = Some node →
  edge (removeNode h c nodeId).1 a b ↔ edge h a b ∧ a ≠ node ∧ b ≠ node.
Proof.
  intros Hinv Hget. unfold removeNode. rewrite Hget. simpl.
  destruct (removeInput_fold_edge (λ _, node) (λ x, x) (inputsOf h node) h a b Hinv)
    as [H1 E1]. simpl in H1, E1.
  set (h1 := fold_left (λ h inp, removeInput h node inp) (inputsOf h node) h) in *.
  destruct (removeInput_fold_edge (λ x, x) (λ _, node) (outputsOf h1 node) h1 a b H1)
    as [H2 E2]. simpl in H2, E2.
  rewrite E2, E1. split.
  - intros [[He Hb] Ha]. split; [done|]. split.
    + intros ->. apply (Ha b); [|done].
      apply E1. split; [done|]. exact Hb.
    + intros ->. apply (Hb a); [|done]. by apply (proj1 Hinv).
  - intros (He & Ha & Hb). split; [split; [done|]|]; intros x _ [? ?]; congruence.
Qed.

(** ** Well-formed circuits under the operations of [Circuit] *)

Lemma same_but_edges_wf_ids h h' (c : Circuit) :
  same_but_edges h h' →
  (∀ k r, (k, r) ∈ c → ∃ n, h !! r = Some n ∧ id n = k) →
  ∀ k r, (k, r) ∈ c → ∃ n, h' !! r = Some n ∧ id n = k.
Proof.
  intros [L F] Hi k r Hin. destruct (Hi k r Hin) as (n & Hn & Hid).
  destruct (lookup_lt_is_Some_2 h' r) as [n' Hn'].
  { rewrite L. by eapply lookup_lt_Some. }
  exists n'. split; [done|]. destruct (F r) as (E&_). unfold idOf in E.
  rewrite Hn, Hn' in E. congruence.
Qed.

Lemma map_get_member {V} (m : JsMap V) k v : map_get m k = Some v → v ∈ map_values m.
Proof.
  intros H. apply map_get_Some in H. apply list_elem_of_fmap. by exists (k, v).
Qed.

Lemma addConnection_wf h c fromId toId :
  wf_circuit h c → wf_circuit (addConnection h c fromId toId) c.
Proof.
  intros Hwf. unfold addConnection.
  destruct (map_get c fromId) as [from|] eqn:Hf; [|done].
  destruct (map_get c toId) as [to|] eqn:Ht; [|done].
  pose proof (map_get_member _ _ _ Hf) as Mf. pose proof (map_get_member _ _ _ Ht) as Mt.
  pose proof (member_live _ _ _ Hwf Mf) as Lf.
  pose proof (member_live _ _ _ Hwf Mt) as Lt.
  destruct Hwf as [Hk Hi Hc Hinv]. split.
  - done.
  - eapply same_but_edges_wf_ids; [apply addInput_same_but_edges | done].
  - intros a b He Hm. apply addInput_edge in He; [|done|done|apply Hinv].
    destruct He as [He|[-> ->]]; [by apply Hc | done].
  - by apply addInput_edge_inv.
Qed.

Lemma addConnection_edge h c fromId toId from to a b :
  wf_circuit h c → map_get c fromId = Some from → map_get c toId = Some to →
  edge (addConnection h c fromId toId) a b ↔ edge h a b ∨ (a = from ∧ b = to).
Proof.
  intros Hwf Hf Ht. unfold addConnection. rewrite Hf, Ht.
  apply addInput_edge.
  - eapply member_live; [done | by eapply map_get_member].
  - eapply member_live; [done | by eapply map_get_member].
  - apply (wf_edges _ _ Hwf).
Qed.

Lemma map_delete_elem_of_iff {V} (m : JsMap V) k k' v' :
  NoDup (map_keys m) → (k', v') ∈ map_delete m k ↔ (k', v') ∈ m ∧ k' ≠ k.
Proof.
  unfold map_keys. induction m as [|[k0 v0] m IH]; simpl; intros Hnd.
  - split; [intros H; by apply elem_of_nil in H | intros [H _]; by apply elem_of_nil in H].
  - apply NoDup_cons in Hnd as [Hk0 Hnd].
    destruct (String.eqb_spec k0 k) as [->|Hne]; rewrite !elem_of_cons.
    + split.
      * intros H. split; [by right|]. intros ->. apply Hk0.
        apply list_elem_of_fmap. by exists (k, v').
      * intros [[[= -> ->]|H] Hne]; done.
    + rewrite IH by done. split.
      * intros [[= -> ->]|[H ?]]; [split; [by left | done] | split; [by right | done]].
      * intros [[E|H] ?]; [by left | right; done].
Qed.

Lemma map_delete_keys {V} (m : JsMap V) k :
  NoDup (map_keys m) → NoDup (map_keys (map_delete m k)).
Proof.
  unfold map_keys. induction m as [|[k0 v0] m IH]; simpl; intros Hnd; [done|].
  apply NoDup_cons in Hnd as [Hk0 Hnd].
  destruct (String.eqb_spec k0 k) as [->|Hne]; [done|]. simpl.
  apply NoDup_cons. split; [|by apply IH].
  intros H. apply Hk0. apply list_elem_of_fmap in H as ([k1 v1] & -> & H).
  apply map_delete_elem_of in H. apply list_elem_of_fmap. by exists (k1, v1).
Qed.

Lemma map_get_delete {V} (m : JsMap V) k :
  NoDup (map_keys m) → map_get (map_delete m k) k = None.
Proof.
  intros Hnd. apply map_get_None. intros H.
  apply list_elem_of_fmap in H as ([k1 v1] & E & H). simpl in E. subst k1.
  apply map_delete_elem_of_iff in H; [|done]. by destruct H.
Qed.

Lemma removeNode_same_but_edges h c nodeId :
  same_but_edges h (removeNode h c nodeId).1.
Proof.
  unfold removeNode. destruct (map_get c nodeId) as [node|]; [|apply same_but_edges_refl].
  simpl.
  assert (F : ∀ A (f : heap → A → heap) (l : list A) h,
            (∀ h a, same_but_edges h (f h a)) → same_but_edges h (fold_left f l h)).
  { intros A f l. induction l as [|a l IH]; intros h0 Hf; simpl.
    - apply same_but_edges_refl.
    - eapply same_but_edges_trans; [apply Hf | by apply IH]. }
  eapply same_but_edges_trans; apply F; intros; apply removeInput_same_but_edges.
Qed.

Lemma removeNode_members h c nodeId node r :
  wf_circuit h c → map_get c nodeId = Some node →
  r ∈ map_values (removeNode h c nodeId).2 ↔ r ∈ map_values c ∧ r ≠ node.
Proof.
  intros Hwf Hget. unfold removeNode. rewrite Hget. simpl.
  pose proof (map_get_Some _ _ _ Hget) as Hin.
  unfold map_values. rewrite !list_elem_of_fmap. split.
  - intros ([k r'] & -> & H). apply map_delete_elem_of_iff in H as [H Hne];
      [|apply (wf_keys _ _ Hwf)].
    split; [by exists (k, r')|]. simpl. intros ->.
    destruct (wf_ids _ _ Hwf _ _ H) as (n1 & Hn1 & E1).
    destruct (wf_ids _ _ Hwf _ _ Hin) as (n2 & Hn2 & E2). congruence.
  - intros [([k r'] & -> & H) Hne]. exists (k, r'). split; [done|].
    apply map_delete_elem_of_iff; [apply (wf_keys _ _ Hwf)|]. split; [done|].
    intros ->. apply (map_get_elem_of _ _ _ (wf_keys _ _ Hwf)) in H. simpl in Hne. congruence.
Qed.

Lemma removeNode_wf h c nodeId :
  wf_circuit h c → wf_circuit (removeNode h c nodeId).1 (removeNode h c nodeId).2.
Proof.
  intros Hwf. destruct (map_get c nodeId) as [node|] eqn:Hget.
  2: { by rewrite removeNode_absent. }
  split.
  - unfold removeNode. rewrite Hget. simpl. apply map_delete_keys, (wf_keys _ _ Hwf).
  - intros k r Hin. eapply same_but_edges_wf_ids.
    + apply removeNode_same_but_edges.
    + apply (wf_ids _ _ Hwf).
    + unfold removeNode in Hin. rewrite Hget in Hin. simpl in Hin.
      by apply map_delete_elem_of in Hin.
  - intros a b He Hm.
    apply (removeNode_edge _ _ _ node) in He as (He & Ha & Hb);
      [|apply (wf_edges _ _ Hwf)|done].
    rewrite !(removeNode_members _ _ _ node) in Hm |- * by done.
    destruct (wf_closed _ _ Hwf a b He) as [? ?]; [tauto|]. done.
  - by apply (removeNode_spec h c nodeId node (wf_edges _ _ Hwf) Hget).
Qed.

Lemma alloc_addNode_wf h c i t px py l :
  wf_circuit h c → map_get c i = None →
  let h1 := (alloc h (newCircuitNode i t px py l)).1 in
  let node := (alloc h (newCircuitNode i t px py l)).2 in
  wf_circuit h1 (addNode h1 c node).
Proof.
  intros Hwf Hfresh h1 node. apply map_get_None in Hfresh.
  assert (Hid : idOf h1 node = i).
  { unfold idOf, h1, node. by rewrite alloc_lookup_new. }
  unfold addNode. rewrite Hid, map_set_fresh by done.
  assert (He : ∀ a b, edge h1 a b ↔ edge h a b).
  { intros a b. unfold edge, h1. by rewrite alloc_outputsOf. }
  split.
  - unfold map_keys. rewrite fmap_app. simpl. apply NoDup_app. split; [apply (wf_keys _ _ Hwf)|].
    split; [|apply NoDup_singleton]. intros k Hk Hk'. apply list_elem_of_singleton in Hk'.
    rewrite Hk' in Hk. by apply Hfresh.
  - intros k r Hin. apply elem_of_app in Hin as [Hin|Hin].
    + destruct (wf_ids _ _ Hwf _ _ Hin) as (n & Hn & E). exists n. split; [|done].
      by apply alloc_lookup_old.
    + apply list_elem_of_singleton in Hin as [= -> ->]. eexists. split; [apply alloc_lookup_new|done].
  - intros a b Hab. apply He in Hab. unfold map_values. rewrite fmap_app. simpl.
    rewrite !elem_of_app, !list_elem_of_singleton. intros Hm.
    assert (a ≠ node ∧ b ≠ node) as [Ha Hb].
    { split; intros ->.
      - apply outputsOf_live in Hab. unfold node in Hab. simpl in Hab. lia.
      - apply (wf_edges _ _ Hwf) in Hab. apply inputsOf_live in Hab.
        unfold node in Hab. simpl in Hab. lia. }
    destruct (wf_closed _ _ Hwf a b Hab) as [? ?]; [tauto|]. tauto.
  - apply alloc_edge_inv; [done | done | apply (wf_edges _ _ Hwf)].
Qed.

(** ** Closing a loop with [addConnection] *)

Lemma tc_extended {A} (R R' : relation A) (a b : A) :
  (∀ x y, R' x y → R x y ∨ (x = a ∧ y = b)) →
  ∀ x y, tc R' x y → tc R x y ∨ (rtc R x a ∧ rtc R b y).
Proof.
  intros HR x y Htc. induction Htc as [x y He|x y z He _ IH].
  - destruct (HR _ _ He) as [H|[-> ->]]; [left; by apply tc_once | right; done].
  - destruct (HR _ _ He) as [H|[-> ->]].
    + destruct IH as [IH|[I1 I2]]; [left; by eapply tc_l|].
      right. split; [by eapply rtc_l | done].
    + destruct IH as [IH|[I1 I2]]; right; (split; [done|]); [by apply tc_rtc | done].
Qed.

Lemma tc_mono_edges {A} (R R' : relation A) :
  (∀ x y, R x y → R' x y) → ∀ x y, tc R x y → tc R' x y.
Proof.
  intros HR x y Htc. induction Htc as [x y He|x y z He _ IH].
  - apply tc_once. by apply HR.
  - eapply tc_l; [by apply HR | done].
Qed.

Lemma addConnection_has_cycle h c fromId toId from to :
  wf_circuit h c → acyclic h c →
  map_get c fromId = Some from → map_get c toId = Some to →
  has_cycle (addConnection h c fromId toId) c ↔ rtc (edge h) to from.
Proof.
  intros Hwf Hac Hf Ht.
  pose proof (addConnection_edge h c fromId toId from to) as He.
  split.
  - intros (r & Hr & Hc).
    destruct (tc_extended (edge h) (edge (addConnection h c fromId toId)) from to) with r r
      as [H|[H1 H2]]; [|done| |].
    + intros x y Hxy. by apply He in Hxy.
    + exfalso. apply Hac. by exists r.
    + by etrans.
  - intros Hrtc. exists from. split; [by eapply map_get_member|].
    eapply tc_rtc_r; [apply tc_once|].
    + apply He; [done..|]. by right.
    + eapply rtc_subrel; [|done]. intros x y Hxy. apply He; [done..|]. by left.
Qed.

(** ** What [evaluate] writes *)

Lemma evalNode_inputs_kept h node r :
  typeOf h r = Some INPUT → valueOf (evalNode h node) r = valueOf h r.
Proof.
  intros Hty. unfold evalNode, isInputNode.
  destruct (decide (typeOf h node = Some INPUT)) as [Hn|Hn].
  - by rewrite bool_decide_eq_true_2.
  - rewrite bool_decide_eq_false_2 by done. destruct (h !! node) as [n|] eqn:E; [|done].
    unfold valueOf. rewrite list_lookup_insert_ne; [done|]. intros ->. congruence.
Qed.

Lemma evalNode_fold_inputs_kept (l : list ref) h r :
  typeOf h r = Some INPUT →
  valueOf (fold_left evalNode l h) r = valueOf h r.
Proof.
  revert h. induction l as [|u l IH]; intros h Hty; simpl; [done|].
  rewrite IH.
  - by apply evalNode_inputs_kept.
  - destruct (evalNode_same_but_values h u) as [_ F]. destruct (F r) as (_&->&_). done.
Qed.

Lemma evaluate_same_but_values h c : same_but_values h (evaluate h c).1.
Proof.
  unfold evaluate. destruct (getEvaluationOrder h c); simpl; try apply same_but_values_refl.
  apply fold_same_but_values. apply evalNode_same_but_values.
Qed.

Lemma evaluate_inputs_kept h c r :
  typeOf h r = Some INPUT → valueOf (evaluate h c).1 r = valueOf h r.
Proof.
  intros Hty. unfold evaluate. destruct (getEvaluationOrder h c); simpl; try done.
  by apply evalNode_fold_inputs_kept.
Qed.

Lemma evalNode_settled h c r :
  settled h c → r ∈ map_values c → evalNode h r = h.
Proof.
  intros Hset Hr. unfold evalNode, isInputNode.
  destruct (decide (typeOf h r = Some INPUT)) as [Hn|Hn].
  - by rewrite bool_decide_eq_true_2.
  - rewrite bool_decide_eq_false_2 by done. destruct (h !! r) as [n|] eqn:E; [|done].
    rewrite <- (Hset r n Hr E).
    + apply list_insert_id. rewrite E. by destruct n.
    + intros Ht. apply Hn. unfold typeOf. rewrite E. simpl. by rewrite Ht.
Qed.

Lemma evalNode_fold_settled h c (l : list ref) :
  settled h c → (∀ r, r ∈ l → r ∈ map_values c) → fold_left evalNode l h = h.
Proof.
  intros Hset. induction l as [|u l IH]; intros Hl; simpl; [done|].
  rewrite (evalNode_settled h c u Hset) by (apply Hl; by left).
  apply IH. intros r Hr. apply Hl. by right.
Qed.

Lemma evaluate_settled h c :
  wf_circuit h c → acyclic h c → settled h c → evaluate h c = (h, Ret tt).
Proof.
  intros Hwf Hac Hset.
  destruct (getEvaluationOrder_acyclic h c Hwf Hac) as (order & Ho & Hnd & Hel & Hbef).
  unfold evaluate. rewrite Ho. f_equal.
  apply (evalNode_fold_settled h c); [done|]. intros r Hr. by apply Hel.
Qed.

Lemma evaluate_twice h c h1 :
  wf_circuit h c → evaluate h c = (h1, Ret tt) → evaluate h1 c = (h1, Ret tt).
Proof.
  intros Hwf Hev.
  assert (Hac : acyclic h c).
  { unfold evaluate in Hev. destruct (getEvaluationOrder h c) as [order| |] eqn:Ho; try done.
    by eapply returned_order_acyclic. }
  destruct (evaluate_acyclic h c Hwf Hac) as (h' & Hev' & Hs & Hin & Hset).
  assert (h' = h1) by congruence. subst h'.
  apply evaluate_settled; [by eapply same_but_values_wf | by eapply same_but_values_acyclic | done].
Qed.

(** Two settled stores over the same circuit that agree on the INPUT
    nodes agree on every node. *)
Lemma settled_unique h c h1 h2 order :
  wf_circuit h c → same_but_values h h1 → same_but_values h h2 →
  NoDup order → (∀ r, r ∈ order ↔ r ∈ map_values c) →
  (∀ a b, a ∈ map_values c → edge h a b → before order a b) →
  settled h1 c → settled h2 c →
  (∀ r, r ∈ map_values c → typeOf h r = Some INPUT → valueOf h1 r = valueOf h2 r) →
  ∀ r, r ∈ map_values c → valueOf h1 r = valueOf h2 r.
Proof.
  intros Hwf Hs1 Hs2 Hnd Hel Hbef Hset1 Hset2 Hin.
  assert (Hj : ∀ j r, order !! j = Some r → valueOf h1 r = valueOf h2 r).
  { intros j. induction j as [j IH] using lt_wf_ind. intros r Hjr.
    assert (Hr : r ∈ map_values c) by (apply Hel; by eapply list_elem_of_lookup_2).
    pose proof (member_live _ _ _ Hwf Hr) as Hlive.
    destruct (lookup_lt_is_Some_2 h1 r) as [n1 E1]. { by rewrite (proj1 Hs1). }
    destruct (lookup_lt_is_Some_2 h2 r) as [n2 E2]. { by rewrite (proj1 Hs2). }
    destruct (proj2 Hs1 r) as (_ & T1 & I1 & _). destruct (proj2 Hs2 r) as (_ & T2 & I2 & _).
    unfold typeOf in T1, T2. unfold inputsOf in I1, I2. rewrite E1 in T1, I1. rewrite E2 in T2, I2.
    simpl in T1, T2.
    destruct (decide (type n1 = INPUT)) as [Hty|Hty].
    - apply Hin; [done|]. unfold typeOf. rewrite <- T1. by rewrite Hty.
    - assert (Hty2 : type n2 ≠ INPUT).
      { intros E. apply Hty. rewrite <- T2 in T1. rewrite E in T1. congruence. }
      unfold valueOf. rewrite E1, E2.
      rewrite (Hset1 r n1 Hr E1 Hty), (Hset2 r n2 Hr E2 Hty2).
      apply compute_ext; [congruence | congruence | done |].
      intros i Hi. rewrite I1 in Hi.
      assert (Hedge : edge h i r) by (by apply (wf_edges _ _ Hwf)).
      destruct (wf_closed _ _ Hwf i r Hedge) as [Hmi _]; [by right|].
      destruct (Hbef i r Hmi Hedge) as (a & b & Ha & Hb & Hab).
      assert (b = j) by (by eapply NoDup_lookup). subst b.
      by apply (IH a). }
  intros r Hr. apply Hel in Hr. apply list_elem_of_lookup_1 in Hr as [j Hjr]. by eapply Hj.
Qed.

Lemma evaluate_determined h c h0 :
  wf_circuit h c → acyclic h c → same_but_values h h0 →
  (∀ r, r ∈ map_values c → typeOf h r = Some INPUT → valueOf h0 r = valueOf h r) →
  ∀ r, r ∈ map_values c → valueOf (evaluate h0 c).1 r = valueOf (evaluate h c).1 r.
Proof.
  intros Hwf Hac Hs Hin.
  destruct (getEvaluationOrder_acyclic h c Hwf Hac) as (order & Ho & Hnd & Hel & Hbef).
  destruct (evaluate_acyclic h c Hwf Hac) as (h1 & E1 & S1 & I1 & F1).
  destruct (evaluate_acyclic h0 c) as (h2 & E2 & S2 & I2 & F2).
  { by eapply same_but_values_wf. } { by eapply same_but_values_acyclic. }
  rewrite E1, E2. simpl.
  apply (settled_unique h c h2 h1 order); try done.
  - by apply (same_but_values_trans h h0 h2).
  - intros r Hr Hty. rewrite I1 by done. rewrite I2; [by apply Hin|].
    destruct Hs as [_ F]. destruct (F r) as (_&->&_). done.
Qed.

(** ** Rows of the truth table *)

Lemma fold_assign_ext {V} (key key' : ref → string) (val val' : ref → V)
    (l : list ref) (m0 : gmap string V) :
  (∀ a, a ∈ l → key a = key' a ∧ val a = val' a) →
  fold_left (λ m a, js_assign m (key a) (val a)) l m0 =
  fold_left (λ m a, js_assign m (key' a) (val' a)) l m0.
Proof.
  revert m0. induction l as [|x l IH]; intros m0 H; simpl; [done|].
  destruct (H x) as [-> ->]; [by left|]. apply IH. intros a Ha. apply H. by right.
Qed.

Lemma recordRow_ext h1 h2 ins outs :
  (∀ r, r ∈ ins ++ outs →
        idOf h1 r = idOf h2 r ∧ valueOf h1 r = valueOf h2 r ∧ labelOf h1 r = labelOf h2 r) →
  recordRow h1 ins outs = recordRow h2 ins outs.
Proof.
  intros H. unfold recordRow. f_equal; apply fold_assign_ext; intros a Ha;
    (destruct (H a) as (? & ? & ?); [apply elem_of_app; auto | done]).
Qed.

Lemma evaluated_at_fresh h c ins i :
  wf_circuit h c → acyclic h c → NoDup ins →
  (∀ r, r ∈ ins → typeOf h r = Some INPUT ∧ r ∈ map_values c) →
  evaluated_at h c ins i (evaluate (setInputs h ins i) c).1.
Proof.
  intros Hwf Hac Hnd Hins.
  pose proof (setInputs_same_but_values h ins i) as Hs1.
  destruct (evaluate_acyclic (setInputs h ins i) c) as (h2 & E & Hs2 & Hin2 & Hfix).
  { by eapply same_but_values_wf. } { by eapply same_but_values_acyclic. }
  rewrite E. simpl. split; [by eapply same_but_values_trans|]. split; [|done].
  intros j inp Hj.
  assert (Hinm : inp ∈ ins) by (by eapply list_elem_of_lookup_2).
  destruct (Hins inp Hinm) as [Hty Hmem]. rewrite Hin2.
  - apply setInputs_valueOf; [done | | done]. intros r Hr.
    eapply member_live; [done|]. by apply Hins.
  - destruct Hs1 as [_ F]. destruct (F inp) as (_&->&_). done.
Qed.

Lemma evaluated_at_unique h c i h1 h2 :
  wf_circuit h c → acyclic h c →
  evaluated_at h c (getNodesByType h c INPUT) i h1 →
  evaluated_at h c (getNodesByType h c INPUT) i h2 →
  ∀ r, r ∈ map_values c → valueOf h1 r = valueOf h2 r.
Proof.
  intros Hwf Hac (S1 & V1 & F1) (S2 & V2 & F2).
  destruct (getEvaluationOrder_acyclic h c Hwf Hac) as (order & Ho & Hnd & Hel & Hbef).
  apply (settled_unique h c h1 h2 order); try done.
  intros r Hr Hty.
  assert (Hin : r ∈ getNodesByType h c INPUT) by (by apply getNodesByType_spec).
  apply list_elem_of_lookup_1 in Hin as [j Hj]. by rewrite (V1 j r Hj), (V2 j r Hj).
Qed.

Lemma getTruthTable_rows h c :
  wf_circuit h c → acyclic h c →
  (length (getNodesByType h c INPUT) ≤ 30)%nat →
  let ins := getNodesByType h c INPUT in
  let outs := getNodesByType h c OUTPUT in
  (getTruthTable h c).2 =
    Ret ((λ i, recordRow (evaluate (setInputs h ins (Z.of_nat i)) c).1 ins outs)
           <$> seq 0 (2 ^ length ins)).
Proof.
  intros Hwf Hac Hn ins outs. unfold getTruthTable. fold ins outs.
  rewrite js_shl_one by (unfold ins; lia).
  assert (Hpow : Z.to_nat (2 ^ Z.of_nat (length ins)) = (2 ^ length ins)%nat).
  { rewrite <- (Nat2Z.id (2 ^ length ins)). f_equal.
    rewrite Nat2Z.inj_pow. done. }
  rewrite Hpow.
  assert (Hins : ∀ r, r ∈ ins → typeOf h r = Some INPUT ∧ r ∈ map_values c).
  { intros r Hr. by apply getNodesByType_spec. }
  assert (Hnd : NoDup ins) by (by apply getNodesByType_NoDup).
  destruct (truthTableLoop_acyclic h c ins outs Hwf Hac Hnd Hins
              (2 ^ length ins)%nat 0 h [] (same_but_values_refl h))
    as (h' & rows & -> & Hlen & Hrows).
  simpl. f_equal. apply list_eq. intros k. rewrite list_lookup_fmap.
  destruct (rows !! k) as [row|] eqn:Hk.
  - apply lookup_lt_Some in Hk as Hlt. rewrite Hlen in Hlt.
    rewrite lookup_seq_lt by done. simpl.
    destruct (Hrows k row Hk) as (hk & Hev & ->). rewrite Z.add_0_l in Hev.
    f_equal. apply recordRow_ext. intros r Hr.
    pose proof (evaluated_at_fresh h c ins (Z.of_nat k) Hwf Hac Hnd Hins) as Hev'.
    assert (Hm : r ∈ map_values c).
    { apply elem_of_app in Hr as [Hr|Hr]; [by apply Hins|].
      by apply getNodesByType_spec in Hr as [_ ?]. }
    split; [|split].
    + destruct Hev as [[_ F] _], Hev' as [[_ F'] _].
      destruct (F r) as (->&_), (F' r) as (->&_). done.
    + by apply (evaluated_at_unique h c (Z.of_nat k)).
    + destruct Hev as [[_ F] _], Hev' as [[_ F'] _].
      destruct (F r) as (_&_&_&_&->), (F' r) as (_&_&_&_&->). done.
  - apply lookup_ge_None in Hk. rewrite Hlen in Hk.
    rewrite lookup_seq_ge by lia. done.
Qed.

(** The store that the loop of [getTruthTable] leaves behind is the one
    of its last iteration. *)
Lemma truthTableLoop_final h c ins outs :
  wf_circuit h c → acyclic h c → NoDup ins →
  (∀ r, r ∈ ins → typeOf h r = Some INPUT ∧ r ∈ map_values c) →
  ∀ todo i h0 results, same_but_values h h0 →
  evaluated_at h c ins (i + Z.of_nat todo)
               (truthTableLoop (S todo) i h0 c ins outs results).1.
Proof.
  intros Hwf Hac Hnd Hins. induction todo as [|todo IH]; intros i h0 results Hs0.
  - cbn [truthTableLoop].
    pose proof (setInputs_same_but_values h0 ins i) as Hs1.
    destruct (evaluate_acyclic (setInputs h0 ins i) c) as (h2 & E & Hs2 & Hin2 & Hfix).
    { eapply same_but_values_wf; [|done]. by apply (same_but_values_trans h h0). }
    { eapply same_but_values_acyclic; [|done]. by apply (same_but_values_trans h h0). }
    rewrite E. simpl. rewrite Z.add_0_r.
    split; [|split; [|done]].
    + apply (same_but_values_trans h h0); [done|].
      by apply (same_but_values_trans h0 (setInputs h0 ins i)).
    + intros j inp Hj.
      assert (Hinm : inp ∈ ins) by (by eapply list_elem_of_lookup_2).
      destruct (Hins inp Hinm) as [Hty Hmem]. rewrite Hin2.
      * apply setInputs_valueOf; [done | | done]. intros r Hr.
        destruct Hs0 as [-> _]. eapply member_live; [done|]. by apply Hins.
      * destruct Hs1 as [_ F1]. destruct (F1 inp) as (_&->&_).
        destruct Hs0 as [_ F0]. destruct (F0 inp) as (_&->&_). done.
  - remember (S todo) as k. cbn [truthTableLoop].
    pose proof (setInputs_same_but_values h0 ins i) as Hs1.
    destruct (evaluate_acyclic (setInputs h0 ins i) c) as (h2 & E & Hs2 & Hin2 & Hfix).
    { eapply same_but_values_wf; [|done]. by apply (same_but_values_trans h h0). }
    { eapply same_but_values_acyclic; [|done]. by apply (same_but_values_trans h h0). }
    rewrite E. subst k.
    replace (i + Z.of_nat (S todo)) with (i + 1 + Z.of_nat todo) by lia.
    apply IH. apply (same_but_values_trans h h0); [done|].
    by apply (same_but_values_trans h0 (setInputs h0 ins i)).
Qed.

Lemma jsBit_ones n j : (n ≤ 30)%nat → (j < n)%nat → jsBit (2 ^ Z.of_nat n - 1) j = true.
Proof.
  intros Hn Hj. rewrite js_bit.
  - replace (2 ^ Z.of_nat n - 1) with (Z.ones (Z.of_nat n)) by (rewrite Z.ones_equiv; lia).
    apply Z.ones_spec_low. lia.
  - split.
    + pose proof (Z.pow_pos_nonneg 2 (Z.of_nat n)). lia.
    + assert (2 ^ Z.of_nat n ≤ 2 ^ 30) by (apply Z.pow_le_mono_r; lia). lia.
  - lia.
Qed.

Lemma getTruthTable_final_store h c :
  wf_circuit h c → acyclic h c →
  (length (getNodesByType h c INPUT) ≤ 30)%nat →
  let h' := (getTruthTable h c).1 in
  same_but_values h h' ∧
  (∀ r, r ∈ getNodesByType h c INPUT → valueOf h' r = true) ∧
  settled h' c.
Proof.
  intros Hwf Hac Hn h'. unfold h', getTruthTable.
  set (ins := getNodesByType h c INPUT) in *.
  set (outs := getNodesByType h c OUTPUT).
  rewrite js_shl_one by lia.
  assert (Hpow : Z.to_nat (2 ^ Z.of_nat (length ins)) = S (2 ^ length ins - 1)).
  { assert (Z.to_nat (2 ^ Z.of_nat (length ins)) = (2 ^ length ins)%nat) as ->.
    { rewrite <- (Nat2Z.id (2 ^ length ins)). f_equal. rewrite Nat2Z.inj_pow. done. }
    assert (2 ^ length ins ≠ 0)%nat by (apply Nat.pow_nonzero; lia). lia. }
  rewrite Hpow.
  assert (Hins : ∀ r, r ∈ ins → typeOf h r = Some INPUT ∧ r ∈ map_values c).
  { intros r Hr. by apply getNodesByType_spec. }
  destruct (truthTableLoop_final h c ins outs Hwf Hac (getNodesByType_NoDup h c INPUT Hwf)
              Hins (2 ^ length ins - 1) 0 h [] (same_but_values_refl h))
    as (Hs & Hv & Hfix).
  split; [done|]. split; [|done].
  intros r Hr. apply list_elem_of_lookup_1 in Hr as [j Hj]. rewrite (Hv j r Hj).
  assert (E : 0 + Z.of_nat (2 ^ length ins - 1) = 2 ^ Z.of_nat (length ins) - 1).
  { assert (2 ^ length ins ≠ 0)%nat by (apply Nat.pow_nonzero; lia).
    rewrite Nat2Z.inj_sub by lia. rewrite Nat2Z.inj_pow. simpl. lia. }
  rewrite E. apply jsBit_ones; [done|]. by eapply lookup_lt_Some.
Qed.

(** ** The synthesized circuit against the table of the dialog *)

Lemma minterm_matches_row n row i :
  (n ≤ 31)%nat → Z.of_nat row < 2 ^ Z.of_nat n → Z.of_nat i < 2 ^ Z.of_nat n →
  minterm_matches n row (isOne n i) = true ↔ row = i.
Proof.
  intros Hn Hrow Hi.
  assert (H31 : 2 ^ Z.of_nat n ≤ 2 ^ 31) by (apply Z.pow_le_mono_r; lia).
  unfold minterm_matches. rewrite forallb_elem_of. split.
  - intros H. apply Nat2Z.inj. apply (low_bits_inj n); [lia | lia |].
    intros k Hk. specialize (H (n - 1 - k)%nat).
    rewrite !isOne_testbit in H by lia.
    replace (n - 1 - (n - 1 - k))%nat with k in H by lia.
    symmetry. apply Bool.eqb_prop, H. apply elem_of_seq. lia.
  - intros -> b Hb. apply Bool.eqb_reflx.
Qed.

Lemma sum_of_products_row n outs i :
  (n ≤ 31)%nat → (length outs ≤ 2 ^ n)%nat → (i < 2 ^ n)%nat →
  sum_of_products n (mintermsFrom outs 0) (isOne n i) = default false (outs !! i).
Proof.
  intros Hn Hlen Hi. apply Bool.eq_iff_eq_true.
  unfold sum_of_products. rewrite existsb_elem_of.
  assert (Hpow : Z.of_nat (2 ^ n) = 2 ^ Z.of_nat n) by (by rewrite Nat2Z.inj_pow).
  assert (Hbound : ∀ row, row ∈ mintermsFrom outs 0 → Z.of_nat row < 2 ^ Z.of_nat n).
  { intros row Hrow. apply mintermsFrom_elem in Hrow as (j & -> & Hj).
    apply lookup_lt_Some in Hj. lia. }
  split.
  - intros (row & Hrow & Hm). apply minterm_matches_row in Hm; [|done | by apply Hbound | lia].
    subst row. apply mintermsFrom_elem in Hrow as (j & -> & Hj). simpl. by rewrite Hj.
  - intros H. destruct (outs !! i) as [[|]|] eqn:E; try done.
    exists i. split.
    + apply mintermsFrom_elem. exists i. by split.
    + apply minterm_matches_row; [done | lia | lia | done].
Qed.

Lemma generateCircuit_input_types n outs b :
  (b < n)%nat → typeOf (generateCircuit n outs).1 b = Some INPUT.
Proof.
  intros Hb.
  assert (H : b ∈ getNodesByType (generateCircuit n outs).1 (generateCircuit n outs).2 INPUT).
  { rewrite generateCircuit_inputs. apply elem_of_seq. lia. }
  by apply getNodesByType_spec in H as [? _].
Qed.

Lemma generateCircuit_row n outs i h0 :
  (n ≤ 31)%nat → (length outs ≤ 2 ^ n)%nat → (i < 2 ^ n)%nat →
  same_but_values (generateCircuit n outs).1 h0 →
  (∀ j, (j < n)%nat →
        valueOf h0 j = js_truthy (synthesisCell (Z.of_nat n) (Z.of_nat i) (Z.of_nat j))) →
  ∃ t h',
    getNodesByType (generateCircuit n outs).1 (generateCircuit n outs).2 OUTPUT = [t] ∧
    evaluate h0 (generateCircuit n outs).2 = (h', Ret tt) ∧
    valueOf h' t = default false (outs !! i).
Proof.
  intros Hn Hlen Hi Hs Hin.
  pose proof (generateCircuit_built n outs) as Hb.
  destruct (generateCircuit_output n outs) as (t & Houts & Hval).
  destruct (evaluate_acyclic h0 (generateCircuit n outs).2) as (h' & E & Hs' & Hkept & Hfix).
  { eapply same_but_values_wf; [done | by apply built_wf]. }
  { eapply same_but_values_acyclic; [done | by apply built_acyclic]. }
  exists t, h'. split; [done|]. split; [done|].
  rewrite (Hval h'); [|by apply (same_but_values_trans _ h0) | done].
  rewrite (sum_of_products_ext n _ _ (isOne n i)); [by apply sum_of_products_row|].
  intros b Hb'. rewrite Hkept; [by apply Hin|].
  destruct Hs as [_ F]. destruct (F b) as (_&->&_). by apply generateCircuit_input_types.
Qed.

Lemma layer_le_4 h r : (layer h r ≤ 4)%nat.
Proof. unfold layer. destruct (typeOf h r) as [[]|]; lia. Qed.

Lemma layered_nsteps h k a b :
  layered h → nsteps (edge h) k a b → (layer h a + k ≤ layer h b)%nat.
Proof.
  intros Hl Hn. induction Hn as [|k a x b He _ IH]; [lia|].
  apply Hl in He. lia.
Qed.

(** ** The handlers of the canvas *)

Lemma updateSimulation_circuit st : circuit (updateSimulation st).2 = circuit st.2.
Proof.
  destruct st as [h cm]. unfold updateSimulation.
  destruct (evaluate h (circuit cm)) as [h' [[]|[]|]]; done.
Qed.

Lemma updateSimulation_store st :
  (updateSimulation st).1 = (evaluate st.1 (circuit st.2)).1.
Proof.
  destruct st as [h cm]. unfold updateSimulation. simpl.
  destruct (evaluate h (circuit cm)) as [h' [[]|[]|]]; done.
Qed.

Lemma updateSimulation_wf st :
  wf_circuit st.1 (circuit st.2) →
  wf_circuit (updateSimulation st).1 (circuit (updateSimulation st).2).
Proof.
  intros Hwf. rewrite updateSimulation_circuit, updateSimulation_store.
  eapply same_but_values_wf; [apply evaluate_same_but_values | done].
Qed.

(** Case analysis on the text of a tag, one character test at a time. *)
Ltac tag_cases :=
  match goal with
  | |- context [match ?s with EmptyString => _ | String _ _ => _ end] =>
      is_var s; destruct s as [|? ?]; cbv beta iota; tag_cases
  | |- context [match ?a with Ascii _ _ _ _ _ _ _ _ => _ end] =>
      is_var a; destruct a as [? ? ? ? ? ? ? ?]; cbv beta iota; tag_cases
  | |- context [if ?b then _ else _] =>
      is_var b; destruct b; cbv beta iota; tag_cases
  | _ => idtac
  end.

Lemma createNode_shape (uuid type : string) (px py : Z) :
  match
    match type with
    | "AND" => Some (AndGate uuid px py)
    | "OR" => Some (OrGate uuid px py)
    | "NOT" => Some (NotGate uuid px py)
    | "XOR" => Some (XorGate uuid px py)
    | "INPUT" => Some (InputNode uuid px py "INPUT")
    | "OUTPUT" => Some (OutputNode uuid px py)
    | _ => None
    end
  with
  | Some n => ∃ t l, n = newCircuitNode uuid t px py l
  | None => True
  end.
Proof. tag_cases; try exact I; eexists _, _; reflexivity. Qed.

Lemma createNode_inv st uuid type px py :
  wf_circuit st.1 (circuit st.2) → uuid ∉ map_keys (circuit st.2) →
  let st' := createNode st uuid type px py in
  wf_circuit st'.1 (circuit st'.2) ∧
  ∀ k, k ∈ map_keys (circuit st'.2) → k ∈ map_keys (circuit st.2) ∨ k = uuid.
Proof.
  destruct st as [h cm]. simpl. intros Hwf Hfresh.
  assert (Hnew : ∀ t l,
    let st' := (let '(h1, r) := alloc h (newCircuitNode uuid t px py l) in
                (h1, set_circuit cm (addNode h1 (circuit cm) r))) in
    wf_circuit st'.1 (circuit st'.2) ∧
    ∀ k, k ∈ map_keys (circuit st'.2) → k ∈ map_keys (circuit cm) ∨ k = uuid).
  { intros t l. simpl. split.
    - apply (alloc_addNode_wf h (circuit cm) uuid t px py l Hwf). by apply map_get_None.
    - intros k. unfold addNode.
      assert (idOf (h ++ [newCircuitNode uuid t px py l]) (length h) = uuid) as ->.
      { unfold idOf. rewrite lookup_app_r by lia. by rewrite Nat.sub_diag. }
      rewrite map_set_fresh by done. unfold map_keys. rewrite fmap_app. simpl.
      rewrite elem_of_app, list_elem_of_singleton. tauto. }
  pose proof (createNode_shape uuid type px py) as Hshape.
  unfold createNode.
  match type of Hshape with match ?d with Some _ => _ | None => _ end => destruct d as [n|] end.
  - destruct Hshape as (t & l & ->). apply Hnew.
  - split; [done | intros k Hk; by left].
Qed.

Lemma handleWireEnd_circuit st target : circuit (handleWireEnd st target).2 = circuit st.2.
Proof.
  destruct st as [h cm]. unfold handleWireEnd.
  destruct (wireStartNode cm) as [start|]; [|done].
  destruct (isDrawingWire cm && negb (start =? target)%nat); [|done].
  by rewrite updateSimulation_circuit.
Qed.

Lemma handleWireEnd_wf st target :
  wf_circuit st.1 (circuit st.2) →
  wf_circuit (handleWireEnd st target).1 (circuit (handleWireEnd st target).2).
Proof.
  destruct st as [h cm]. simpl. intros Hwf. unfold handleWireEnd.
  destruct (wireStartNode cm) as [start|]; [|done].
  destruct (isDrawingWire cm && negb (start =? target)%nat); [|done].
  apply updateSimulation_wf. simpl. by apply addConnection_wf.
Qed.

Lemma inputClick_circuit st node : circuit (inputClick st node).2 = circuit st.2.
Proof.
  destruct st as [h cm]. unfold inputClick.
  destruct (truthy_id (draggedNodeId cm)); [done|]. by rewrite updateSimulation_circuit.
Qed.

Lemma inputClick_wf st node :
  wf_circuit st.1 (circuit st.2) →
  wf_circuit (inputClick st node).1 (circuit (inputClick st node).2).
Proof.
  destruct st as [h cm]. simpl. intros Hwf. unfold inputClick.
  destruct (truthy_id (draggedNodeId cm)); [done|].
  apply updateSimulation_wf. simpl.
  eapply same_but_values_wf; [apply setValue_same_but_values | done].
Qed.

Lemma handle_inv st e :
  wf_circuit st.1 (circuit st.2) →
  (∀ k, k ∈ uuids [e] → k ∉ map_keys (circuit st.2)) →
  wf_circuit (handle st e).1 (circuit (handle st e).2) ∧
  ∀ k, k ∈ map_keys (circuit (handle st e).2) →
       k ∈ map_keys (circuit st.2) ∨ k ∈ uuids [e].
Proof.
  intros Hwf Hfresh. destruct e as [uuid type px py|node|node| |node]; simpl.
  - destruct (createNode_inv st uuid type px py Hwf) as [H1 H2].
    { apply Hfresh. simpl. by left. }
    split; [done|]. intros k Hk. destruct (H2 k Hk) as [?| ->]; [by left|].
    right. by left.
  - destruct (hasType st.1 node OUTPUT); (split; [done | by left]).
  - destruct (hasType st.1 node INPUT); [split; [done | by left]|].
    split; [by apply handleWireEnd_wf|]. rewrite handleWireEnd_circuit. by left.
  - split; [done | by left].
  - destruct (hasType st.1 node INPUT); [|split; [done | by left]].
    split; [by apply inputClick_wf|]. rewrite inputClick_circuit. by left.
Qed.

Lemma uuids_app evs evs' : uuids (evs ++ evs') = uuids evs ++ uuids evs'.
Proof. unfold uuids. by rewrite bind_app. Qed.

Lemma canvas_inv status evs :
  NoDup (uuids evs) →
  let st := fold_left handle evs (newCanvas status) in
  wf_circuit st.1 (circuit st.2) ∧
  ∀ k, k ∈ map_keys (circuit st.2) → k ∈ uuids evs.
Proof.
  induction evs as [|e evs IH] using rev_ind; intros Hnd.
  - simpl. split.
    + split; simpl.
      * apply NoDup_nil_2.
      * intros k r H. by apply elem_of_nil in H.
      * intros a b H. unfold edge, outputsOf in H. simpl in H. by apply elem_of_nil in H.
      * apply edge_inv_empty.
    + intros k H. by apply elem_of_nil in H.
  - rewrite uuids_app in Hnd. apply NoDup_app in Hnd as (Hnd & Hdisj & _).
    destruct (IH Hnd) as [Hwf Hkeys]. rewrite fold_left_app. cbn [fold_left].
    set (st := fold_left handle evs (newCanvas status)) in *.
    destruct (handle_inv st e Hwf) as [H1 H2].
    { intros k Hk Hin. apply (Hdisj k); [by apply Hkeys | done]. }
    split; [done|]. intros k Hk. rewrite uuids_app, elem_of_app.
    destruct (H2 k Hk); [left; by apply Hkeys | by right].
Qed.

Lemma member_lookup h c r :
  wf_circuit h c → r ∈ map_values c → map_get c (idOf h r) = Some r.
Proof.
  intros Hwf Hr. apply (map_get_elem_of _ _ _ (wf_keys _ _ Hwf)).
  by apply (member_entry h c Hwf).
Qed.

Lemma updateSimulation_status h cm s0 :
  wf_circuit h (circuit cm) → statusMsg cm = Some s0 →
  (has_cycle h (circuit cm) →
   statusMsg (updateSimulation (h, cm)).2 = Some "Error: Feedback Loop Detected!") ∧
  (acyclic h (circuit cm) → statusMsg (updateSimulation (h, cm)).2 = Some EmptyString).
Proof.
  intros Hwf Hst. unfold updateSimulation. split.
  - intros Hc. rewrite evaluate_cyclic by done. simpl. by rewrite Hst.
  - intros Hac. destruct (evaluate_acyclic h (circuit cm) Hwf Hac) as (h' & -> & _).
    simpl. by rewrite Hst.
Qed.

Lemma handleWireEnd_status h cm s0 a b :
  wf_circuit h (circuit cm) → acyclic h (circuit cm) → statusMsg cm = Some s0 →
  isDrawingWire cm = true → wireStartNode cm = Some a → a ≠ b →
  a ∈ map_values (circuit cm) → b ∈ map_values (circuit cm) →
  let st' := handleWireEnd (h, cm) b in
  edge st'.1 a b ∧
  (rtc (edge h) b a → statusMsg st'.2 = Some "Error: Feedback Loop Detected!") ∧
  (¬ rtc (edge h) b a → statusMsg st'.2 = Some EmptyString).
Proof.
  intros Hwf Hac Hst Hd Hw Hne Ha Hb. unfold handleWireEnd. rewrite Hw, Hd.
  destruct (Nat.eqb_spec a b) as [|_]; [done|]. cbn [negb andb].
  pose proof (member_lookup _ _ _ Hwf Ha) as Ga.
  pose proof (member_lookup _ _ _ Hwf Hb) as Gb.
  set (h1 := addConnection h (circuit cm) (idOf h a) (idOf h b)).
  assert (Hwf1 : wf_circuit h1 (circuit cm)) by (by apply addConnection_wf).
  destruct (updateSimulation_status h1 cm s0 Hwf1 Hst) as [Hcyc Hok].
  pose proof (addConnection_has_cycle h (circuit cm) _ _ a b Hwf Hac Ga Gb) as Hiff.
  split; [|split].
  - rewrite updateSimulation_store. simpl.
    apply (same_but_values_edge h1); [apply evaluate_same_but_values|].
    apply (addConnection_edge h (circuit cm) _ _ a b a b Hwf Ga Gb). by right.
  - intros Hr. apply Hcyc. by apply Hiff.
  - intros Hr. apply Hok. intros Hc. apply Hr. by apply Hiff.
Qed.

Lemma handleWireEnd_twice h cm a b c' :
  wf_circuit h (circuit cm) →
  a ∈ map_values (circuit cm) → b ∈ map_values (circuit cm) →
  c' ∈ map_values (circuit cm) → a ≠ b → a ≠ c' →
  let st' := handleWireEnd (handleWireEnd (handleWireStart (h, cm) a) b) c' in
  edge st'.1 a b ∧ edge st'.1 a c' ∧
  isDrawingWire st'.2 = true ∧ wireStartNode st'.2 = Some a.
Proof.
  intros Hwf Ha Hb Hc Hab Hac.
  assert (Hstep : ∀ h0 cm0 t,
    wf_circuit h0 (circuit cm0) → circuit cm0 = circuit cm →
    isDrawingWire cm0 = true → wireStartNode cm0 = Some a →
    t ∈ map_values (circuit cm) → a ≠ t →
    let st1 := handleWireEnd (h0, cm0) t in
    wf_circuit st1.1 (circuit st1.2) ∧ circuit st1.2 = circuit cm ∧
    isDrawingWire st1.2 = true ∧ wireStartNode st1.2 = Some a ∧
    edge st1.1 a t ∧ ∀ x y, edge h0 x y → edge st1.1 x y).
  { intros h0 cm0 t Hwf0 Hc0 Hd0 Hw0 Ht Hat st1.
    pose proof (handleWireEnd_wf (h0, cm0) t Hwf0) as Hwf1.
    pose proof (handleWireEnd_circuit (h0, cm0) t) as Hc1. fold st1 in Hwf1, Hc1.
    split; [done|]. split; [by rewrite Hc1|].
    unfold st1, handleWireEnd in *. rewrite Hw0, Hd0 in *.
    destruct (Nat.eqb_spec a t) as [|_]; [done|]. cbn [negb andb] in *.
    rewrite Hc0 in *.
    pose proof (member_lookup _ _ _ Hwf0 Ha) as Ga.
    pose proof (member_lookup _ _ _ Hwf0 Ht) as Gt.
    assert (Hkeep : ∀ x y, edge (addConnection h0 (circuit cm) (idOf h0 a) (idOf h0 t)) x y →
              edge (updateSimulation
                      (addConnection h0 (circuit cm) (idOf h0 a) (idOf h0 t), cm0)).1 x y).
    { intros x y Hxy. rewrite updateSimulation_store. simpl.
      by apply (same_but_values_edge _ _ x y (evaluate_same_but_values _ _)). }
    split; [|split; [|split]].
    - destruct (updateSimulation _) as [h2 cm2] eqn:E.
      unfold updateSimulation in E. rewrite Hc0 in E.
      destruct (evaluate _ _) as [h3 [[]|[]|]]; injection E as <- <-; done.
    - destruct (updateSimulation _) as [h2 cm2] eqn:E.
      unfold updateSimulation in E. rewrite Hc0 in E.
      destruct (evaluate _ _) as [h3 [[]|[]|]]; injection E as <- <-; done.
    - apply Hkeep. apply (addConnection_edge h0 (circuit cm) _ _ a t a t Hwf0 Ga Gt). by right.
    - intros x y Hxy. apply Hkeep.
      apply (addConnection_edge h0 (circuit cm) _ _ a t x y Hwf0 Ga Gt). by left. }
  destruct (Hstep h (set_wire cm true (Some a)) b) as (W1 & C1 & D1 & S1 & E1 & K1);
    try done.
  change (handleWireStart (h, cm) a) with (h, set_wire cm true (Some a)).
  destruct (handleWireEnd (h, set_wire cm true (Some a)) b) as [h1 cm1] eqn:Est1.
  simpl in W1, C1, D1, S1, E1, K1.
  destruct (Hstep h1 cm1 c') as (W2 & C2 & D2 & S2 & E2 & K2); try done.
  split; [by apply K2|]. done.
Qed.

(** ** The keys of a row *)

Lemma fold_insert_None {V} (key : ref → string) (val : ref → V)
    (l : list ref) (m0 : gmap string V) k :
  m0 !! k = None → (∀ a, a ∈ l → key a ≠ k) →
  fold_left (λ m a, <[key a := val a]> m) l m0 !! k = None.
Proof.
  revert m0. induction l as [|x l IH]; intros m0 H0 Hl; simpl; [done|].
  apply IH.
  - rewrite lookup_insert_ne; [done|]. apply Hl. by left.
  - intros a Ha. apply Hl. by right.
Qed.

(** ** Replacing and removing nodes *)

Lemma map_set_size {V} (m : JsMap V) k v :
  map_size (map_set m k v) =
    match map_get m k with Some _ => map_size m | None => S (map_size m) end.
Proof.
  unfold map_size. induction m as [|[k0 v0] m IH]; simpl; [done|].
  destruct (String.eqb_spec k0 k) as [->|Hne]; simpl; [done|].
  rewrite IH. by destruct (map_get m k).
Qed.

Lemma map_set_keys_present {V} (m : JsMap V) k v :
  is_Some (map_get m k) → map_keys (map_set m k v) = map_keys m.
Proof.
  unfold map_keys. induction m as [|[k0 v0] m IH]; simpl; intros Hs.
  - by destruct Hs.
  - destruct (String.eqb_spec k0 k) as [->|Hne]; simpl; [done|]. f_equal. by apply IH.
Qed.

Lemma removeNode_acyclic h c nodeId :
  wf_circuit h c → acyclic h c →
  acyclic (removeNode h c nodeId).1 (removeNode h c nodeId).2.
Proof.
  intros Hwf Hac. destruct (map_get c nodeId) as [node|] eqn:Hget.
  2: { by rewrite removeNode_absent. }
  intros (r & Hr & Hc). apply Hac. exists r. split.
  - by apply (removeNode_members h c nodeId node r Hwf Hget) in Hr as [? _].
  - eapply tc_mono_edges; [|done]. intros x y Hxy.
    by apply (removeNode_edge h c nodeId node x y (wf_edges _ _ Hwf) Hget) in Hxy as [? _].
Qed.

Lemma fold_insert_keys {V} (key : ref → string) (val : ref → V) (l : list ref) :
  NoDup l → (∀ a b, a ∈ l → b ∈ l → key a = key b → a = b) →
  (map_to_list (fold_left (λ m a, <[key a := val a]> m) l (∅ : gmap string V))).*1
    ≡ₚ key <$> l.
Proof.
  intros Hnd Hinj. apply NoDup_Permutation.
  - apply NoDup_fst_map_to_list.
  - by apply NoDup_fmap_2_strong.
  - intros k. rewrite !list_elem_of_fmap. split.
    + intros ([k' v] & -> & Hkv). apply elem_of_map_to_list in Hkv. simpl.
      destruct (decide (k' ∈ key <$> l)) as [Hin|Hnin].
      * apply list_elem_of_fmap in Hin as (a & -> & Ha). by exists a.
      * rewrite fold_insert_None in Hkv; [done | done |].
        intros a Ha E. apply Hnin. apply list_elem_of_fmap. by exists a.
    + intros (a & -> & Ha). exists (key a, val a). split; [done|].
      apply elem_of_map_to_list. by apply fold_insert_lookup.
Qed.

Lemma units_leb_total u v : units_leb u v = true ∨ units_leb v u = true.
Proof.
  revert v. induction u as [|a u IH]; intros [|b v]; simpl; auto.
  destruct (N.ltb_spec a b), (N.ltb_spec b a); auto.
Qed.

Global Instance string_le_total : Total string_le.
Proof. intros a b. apply units_leb_total. Qed.

Lemma sortedKeys_spec {V} (o : gmap string V) :
  sortedKeys o ≡ₚ (map_to_list o).*1 ∧ Sorted string_le (sortedKeys o).
Proof.
  unfold sortedKeys. split; [apply merge_sort_Permutation | apply Sorted_merge_sort, _].
Qed.

Lemma recordRow_keys h c hk ins outs :
  wf_circuit h c → same_but_values h hk → NoDup ins → NoDup outs →
  (∀ r, r ∈ ins ++ outs → r ∈ map_values c) →
  sortedKeys (row_inputs (recordRow hk ins outs))
    ≡ₚ idOf h <$> filter (λ r, idOf h r ≠ "__proto__") ins ∧
  sortedKeys (row_outputs (recordRow hk ins outs))
    ≡ₚ idOf h <$> filter (λ r, idOf h r ≠ "__proto__") outs.
Proof.
  intros Hwf Hs Hni Hno Hm.
  assert (Hid : ∀ r, idOf hk r = idOf h r).
  { intros r. destruct Hs as [_ F]. by destruct (F r) as (->&_). }
  assert (Hinj : ∀ a b, a ∈ ins ++ outs → b ∈ ins ++ outs → idOf hk a = idOf hk b → a = b).
  { intros a b Ha Hb. rewrite !Hid. apply (idOf_inj h c Hwf); by apply Hm. }
  assert (Hf : ∀ l : list ref, filter (λ r, idOf hk r ≠ "__proto__") l
                    = filter (λ r, idOf h r ≠ "__proto__") l).
  { intros l. apply list_filter_iff. intros r. by rewrite Hid. }
  unfold recordRow. simpl. split.
  - rewrite (proj1 (sortedKeys_spec _)), fold_assign_insert, fold_insert_keys.
    + by rewrite Hf, (list_fmap_ext _ _ _ (λ _ r _, Hid r)).
    + by apply NoDup_filter.
    + intros a b Ha Hb. apply list_elem_of_filter in Ha as [_ Ha], Hb as [_ Hb].
      apply Hinj; apply elem_of_app; auto.
  - rewrite (proj1 (sortedKeys_spec _)), fold_assign_insert, fold_insert_keys.
    + by rewrite Hf, (list_fmap_ext _ _ _ (λ _ r _, Hid r)).
    + by apply NoDup_filter.
    + intros a b Ha Hb. apply list_elem_of_filter in Ha as [_ Ha], Hb as [_ Hb].
      apply Hinj; apply elem_of_app; auto.
Qed.

Lemma getTruthTable_acyclic_rows h c :
  wf_circuit h c → acyclic h c → (length (getNodesByType h c INPUT) ≤ 30)%nat →
  ∃ rows, (getTruthTable h c).2 = Ret rows ∧
    length rows = (2 ^ length (getNodesByType h c INPUT))%nat ∧
    ∀ row, row ∈ rows →
      ∃ hk, same_but_values h hk ∧
        row = recordRow hk (getNodesByType h c INPUT) (getNodesByType h c OUTPUT).
Proof.
  intros Hwf Hac Hn.
  set (ins := getNodesByType h c INPUT) in *.
  set (outs := getNodesByType h c OUTPUT).
  assert (Hins : ∀ r, r ∈ ins → typeOf h r = Some INPUT ∧ r ∈ map_values c).
  { intros r Hr. by apply getNodesByType_spec. }
  assert (Hnd : NoDup ins) by (by apply getNodesByType_NoDup).
  unfold getTruthTable. fold ins outs. rewrite js_shl_one by lia.
  assert (Hpow : Z.to_nat (2 ^ Z.of_nat (length ins)) = (2 ^ length ins)%nat).
  { rewrite <- (Nat2Z.id (2 ^ length ins)). f_equal. rewrite Nat2Z.inj_pow. done. }
  rewrite Hpow.
  destruct (truthTableLoop_acyclic h c ins outs Hwf Hac Hnd Hins
              (2 ^ length ins)%nat 0 h [] (same_but_values_refl h))
    as (h' & rows & -> & Hlen & Hr).
  exists rows. split; [done|]. split; [done|]. intros row Hrow.
  apply list_elem_of_lookup_1 in Hrow as [k Hk].
  destruct (Hr k row Hk) as (hk & (Hs & _) & ->). by exists hk.
Qed.

Lemma truth_table_dialog_acyclic h c :
  wf_circuit h c → acyclic h c → (length (getNodesByType h c INPUT) ≤ 30)%nat →
  ∃ rows inputKeys outputKeys body,
    (getTruthTable h c).2 = Ret rows ∧
    generateTruthTableHTML rows =
      Elem "div" [] EmptyString
        [Elem "table" ["truth-table"] EmptyString
           [Elem "thead" [] EmptyString
              [Elem "tr" [] EmptyString
                 (((λ k, Elem "th" [] (js_substring 0 4 k) []) <$> inputKeys) ++
                  ((λ k, Elem "th" ["output-col"] "OUT" []) <$> outputKeys))];
            Elem "tbody" [] EmptyString body]] ∧
    inputKeys ≡ₚ idOf h <$> filter (λ r, idOf h r ≠ "__proto__")
                                   (getNodesByType h c INPUT) ∧
    Sorted string_le inputKeys ∧
    outputKeys ≡ₚ idOf h <$> filter (λ r, idOf h r ≠ "__proto__")
                                    (getNodesByType h c OUTPUT) ∧
    Sorted string_le outputKeys ∧
    length body = (2 ^ length (getNodesByType h c INPUT))%nat ∧
    ∀ tr, tr ∈ body →
      ∃ cells, tr = Elem "tr" [] EmptyString cells ∧
        length cells = (length inputKeys + length outputKeys)%nat.
Proof.
  intros Hwf Hac Hn.
  destruct (getTruthTable_acyclic_rows h c Hwf Hac Hn) as (rows & Hret & Hlen & Hr).
  destruct rows as [|firstRow rows].
  { simpl in Hlen.
    assert (2 ^ length (getNodesByType h c INPUT) ≠ 0)%nat by (apply Nat.pow_nonzero; lia).
    lia. }
  destruct (Hr firstRow) as (hk & Hs & Hfirst); [by left|].
  destruct (recordRow_keys h c hk (getNodesByType h c INPUT) (getNodesByType h c OUTPUT)
              Hwf Hs) as [Hki Hko].
  { by apply getNodesByType_NoDup. } { by apply getNodesByType_NoDup. }
  { intros r Hr'. apply elem_of_app in Hr' as [Hr'|Hr'];
      by apply getNodesByType_spec in Hr' as [_ ?]. }
  rewrite <- Hfirst in Hki, Hko.
  eexists _, (sortedKeys (row_inputs firstRow)), (sortedKeys (row_outputs firstRow)), _.
  split; [done|]. split; [reflexivity|].
  split; [done|]. split; [apply sortedKeys_spec|].
  split; [done|]. split; [apply sortedKeys_spec|].
  split; [by rewrite length_fmap|].
  intros tr Htr. apply list_elem_of_fmap in Htr as (row & -> & _).
  eexists. split; [reflexivity|]. by rewrite length_app, !length_fmap.
Qed.

(** ** Two clicks *)

Lemma updateSimulation_dragged st :
  draggedNodeId (updateSimulation st).2 = draggedNodeId st.2.
Proof.
  destruct st as [h cm]. unfold updateSimulation.
  destruct (evaluate h (circuit cm)) as [h' [[]|[]|]]; done.
Qed.

Lemma inputClick_twice h cm r :
  wf_circuit h (circuit cm) → acyclic h (circuit cm) →
  truthy_id (draggedNodeId cm) = false →
  r ∈ map_values (circuit cm) → typeOf h r = Some INPUT →
  ∀ x, x ∈ map_values (circuit cm) →
    valueOf (inputClick (inputClick (h, cm) r) r).1 x =
    valueOf (evaluate h (circuit cm)).1 x.
Proof.
  intros Hwf Hac Hd Hr Hty x Hx.
  pose proof (member_live _ _ _ Hwf Hr) as Hlive.
  unfold inputClick at 2. rewrite Hd.
  set (h0 := setValue h r (negb (valueOf h r))).
  destruct (updateSimulation (h0, cm)) as [h1 cm1] eqn:E1.
  assert (Hh1 : h1 = (evaluate h0 (circuit cm)).1).
  { pose proof (updateSimulation_store (h0, cm)) as H. by rewrite E1 in H. }
  assert (Hc1 : circuit cm1 = circuit cm).
  { pose proof (updateSimulation_circuit (h0, cm)) as H. by rewrite E1 in H. }
  assert (Hd1 : draggedNodeId cm1 = draggedNodeId cm).
  { pose proof (updateSimulation_dragged (h0, cm)) as H. by rewrite E1 in H. }
  unfold inputClick. rewrite Hd1, Hd, updateSimulation_store. cbn [fst snd]. rewrite Hc1.
  assert (Hs0 : same_but_values h h0) by apply setValue_same_but_values.
  assert (Hs1 : same_but_values h h1).
  { rewrite Hh1. apply (same_but_values_trans h h0); [done | apply evaluate_same_but_values]. }
  assert (Hty0 : ∀ y, typeOf h0 y = typeOf h y).
  { intros y. destruct Hs0 as [_ F]. by destruct (F y) as (_&->&_). }
  assert (Hv1 : ∀ y, typeOf h y = Some INPUT → valueOf h1 y = valueOf h0 y).
  { intros y Hy. rewrite Hh1. apply evaluate_inputs_kept. by rewrite Hty0. }
  assert (Hr1 : valueOf h1 r = negb (valueOf h r)).
  { rewrite Hv1 by done. unfold h0. by apply valueOf_setValue_eq. }
  rewrite Hr1, Bool.negb_involutive.
  apply (evaluate_determined h (circuit cm)); try done.
  - apply (same_but_values_trans h h1); [done | apply setValue_same_but_values].
  - intros y Hy Hyt. destruct (decide (y = r)) as [->|Hne].
    + apply valueOf_setValue_eq. destruct Hs1 as [-> _]. done.
    + rewrite valueOf_setValue_ne by done. rewrite Hv1 by done.
      unfold h0. by rewrite valueOf_setValue_ne.
Qed.

(** ** Termination *)

Lemma evaluate_total h c : (evaluate h c).2 ≠ OutOfFuel.
Proof.
  unfold evaluate. pose proof (getEvaluationOrder_total h c) as H.
  destruct (getEvaluationOrder h c); done.
Qed.

Lemma truthTableLoop_total todo i h c ins outs results :
  (truthTableLoop todo i h c ins outs results).2 ≠ OutOfFuel.
Proof.
  revert i h results. induction todo as [|todo IH]; intros i h results; [done|].
  cbn [truthTableLoop]. pose proof (evaluate_total (setInputs h ins i) c) as H.
  destruct (evaluate (setInputs h ins i) c) as [h2 [[]|e|]]; [apply IH | done | done].
Qed.

(** ** A thrown error and the cycle behind it *)

Lemma getEvaluationOrder_throw_has_cycle h c :
  wf_circuit h c → getEvaluationOrder h c = Throw CycleDetectedError → has_cycle h c.
Proof.
  intros Hwf Hthrow. destruct (kahn_sorted h c Hwf) as (sorted & Hpq & Hd).
  unfold getEvaluationOrder in Hthrow. rewrite Hpq in Hthrow.
  destruct (Nat.eqb_spec (length sorted) (map_size c)) as [|Hlen]; [done|].
  destruct (decide (Forall (λ v, v ∈ sorted) (map_values c))) as [Hall|Hnot].
  - exfalso. apply Hlen. unfold map_size. rewrite <- (length_fmap snd c).
    apply NoDup_same_elements_length; [apply Hd | by apply members_NoDup with h|].
    intros a. split; [apply Hd|]. rewrite Forall_forall in Hall. apply Hall.
  - apply not_Forall_Exists in Hnot; [|apply _].
    apply Exists_exists in Hnot as (v & Hv & Hvs).
    destruct (cycle_of_no_source (edge h) (filter (λ u, u ∉ sorted) (map_values c)))
      as (r & Hr & Hcyc).
    + intros E.
      assert (Hin : v ∈ filter (λ u, u ∉ sorted) (map_values c))
        by (by apply list_elem_of_filter).
      rewrite E in Hin. by apply elem_of_nil in Hin.
    + intros w Hw. apply list_elem_of_filter in Hw as [Hws Hw].
      destruct (pending_pred h c sorted w) as (u & Hu & Hus & He).
      * intros E. apply Hws. by apply (kd_zero _ _ _ Hd).
      * exists u. split; [by apply list_elem_of_filter | done].
    + apply list_elem_of_filter in Hr as [_ Hr]. by exists r.
Qed.

(** ** The number of rows *)

Lemma js_shl_one_wrap n :
  0 ≤ n → js_shl 1 n = if n mod 32 =? 31 then - 2 ^ 31 else 2 ^ (n mod 32).
Proof.
  intros Hn. pose proof (Z.mod_pos_bound n 32 ltac:(lia)) as Hm.
  assert (E : js_shl 1 n = js_shl 1 (n mod 32)).
  { unfold js_shl. by rewrite Z.mod_mod. }
  rewrite E. destruct (Z.eqb_spec (n mod 32) 31) as [->|Hne]; [reflexivity|].
  apply js_shl_one. lia.
Qed.

Lemma getTruthTable_row_count h c :
  wf_circuit h c → acyclic h c →
  let n := length (getNodesByType h c INPUT) in
  ∃ rows, (getTruthTable h c).2 = Ret rows ∧
    length rows = if (n mod 32 =? 31)%nat then 0%nat else (2 ^ (n mod 32))%nat.
Proof.
  intros Hwf Hac n. unfold getTruthTable.
  set (ins := getNodesByType h c INPUT) in *.
  set (outs := getNodesByType h c OUTPUT).
  assert (Hins : ∀ r, r ∈ ins → typeOf h r = Some INPUT ∧ r ∈ map_values c).
  { intros r Hr. by apply getNodesByType_spec. }
  destruct (truthTableLoop_acyclic h c ins outs Hwf Hac
              (getNodesByType_NoDup h c INPUT Hwf) Hins
              (Z.to_nat (js_shl 1 (Z.of_nat (length ins)))) 0 h []
              (same_but_values_refl h))
    as (h' & rows & -> & Hlen & _).
  exists rows. split; [done|]. rewrite Hlen, js_shl_one_wrap by lia. fold n.
  assert (Hmod : Z.of_nat n mod 32 = Z.of_nat (n mod 32)).
  { by rewrite Nat2Z.inj_mod. }
  rewrite Hmod.
  destruct (Nat.eqb_spec (n mod 32) 31) as [E|Hne].
  - rewrite E. reflexivity.
  - destruct (Z.eqb_spec (Z.of_nat (n mod 32)) 31) as [E|_]; [lia|].
    rewrite <- (Nat2Z.id (2 ^ (n mod 32))). f_equal. by rewrite Nat2Z.inj_pow.
Qed.

(** ** The identifiers of a synthesized circuit *)

(** Synthesis only appends objects and connects objects that exist:
    the identifiers handed out so far stay where they are. *)
Lemma addConnection_ids h c fromId toId :
  id <$> addConnection h c fromId toId = id <$> h.
Proof.
  unfold addConnection. destruct (map_get c fromId); [|done].
  destruct (map_get c toId); [|done].
  apply same_but_edges_ids, addInput_same_but_edges.
Qed.

Lemma connectBit_ids n ins row m g st bit :
  ∃ l, id <$> (connectBit n ins row m g st bit).1 = (id <$> st.1) ++ l.
Proof.
  destruct st as [h c]. unfold connectBit.
  destruct (ins !! bit) as [inputNode|]; [|exists []; by rewrite app_nil_r].
  destruct (js_truthy _).
  - exists []. simpl. by rewrite addConnection_ids, app_nil_r.
  - simpl. eexists. rewrite !addConnection_ids, fmap_app. done.
Qed.

Lemma fold_ids {A} (f : heap * Circuit → A → heap * Circuit) (l : list A) st :
  (∀ st a, ∃ k, id <$> (f st a).1 = (id <$> st.1) ++ k) →
  ∃ k, id <$> (fold_left f l st).1 = (id <$> st.1) ++ k.
Proof.
  intros Hf. revert st. induction l as [|a l IH]; intros st; simpl.
  - exists []. by rewrite app_nil_r.
  - destruct (IH (f st a)) as [k2 E2]. destruct (Hf st a) as [k1 E1].
    exists (k1 ++ k2). by rewrite E2, E1, app_assoc.
Qed.

Lemma createMinterm_ids n ins st p :
  ∃ k, id <$> (createMinterm n ins st p).1.1 = (id <$> st.1.1) ++ k.
Proof.
  destruct st as [[h c] andGates], p as [mIdx rowIdx]. unfold createMinterm.
  simpl.
  match goal with
  | |- context [fold_left ?f ?l ?s] =>
      destruct (fold_ids f l s) as [k E]; [intros; apply connectBit_ids|];
      destruct (fold_left f l s) as [h2 c2]
  end.
  simpl in *. eexists. rewrite E, fmap_app, <- app_assoc. done.
Qed.

Lemma createMinterms_ids n ins (l : list (nat * nat)) st :
  ∃ k, id <$> (fold_left (createMinterm n ins) l st).1.1 = (id <$> st.1.1) ++ k.
Proof.
  revert st. induction l as [|a l IH]; intros st; simpl.
  - exists []. by rewrite app_nil_r.
  - destruct (IH (createMinterm n ins st a)) as [k2 E2].
    destruct (createMinterm_ids n ins st a) as [k1 E1].
    exists (k1 ++ k2). by rewrite E2, E1, app_assoc.
Qed.

Lemma orGate_ids (L : list ref) c o h :
  id <$> fold_left (λ h g, addConnection h c (idOf h g) (idOf h o)) L h = id <$> h.
Proof.
  revert h. induction L as [|g L IH]; intros h; simpl; [done|].
  by rewrite IH, addConnection_ids.
Qed.

Lemma generateCircuit_ids n outs :
  ∃ k, id <$> (generateCircuit n outs).1 = (inputId <$> seq 0 n) ++ k.
Proof.
  unfold generateCircuit. rewrite createInputs_result.
  destruct (length (mintermsFrom outs 0) =? 0)%nat.
  - simpl. eexists. rewrite fmap_app, inputNodes_ids. done.
  - destruct (createMinterms_ids n (seq 0 n) (imap pair (mintermsFrom outs 0))
                (inputNodes n, circuit_of (inputNodes n), [])) as [k E].
    destruct (fold_left _ _ _) as [[h1 c1] andGates]. simpl in E.
    simpl. eexists.
    rewrite addConnection_ids, fmap_app, orGate_ids, fmap_app, E, inputNodes_ids.
    rewrite <- !app_assoc. done.
Qed.

Lemma generateCircuit_input_ids n outs j :
  (j < n)%nat →
  idOf (generateCircuit n outs).1 j = inputId j ∧
  map_get (generateCircuit n outs).2 (inputId j) = Some j.
Proof.
  intros Hj. destruct (generateCircuit_ids n outs) as [k E].
  assert (Hid : idOf (generateCircuit n outs).1 j = inputId j).
  { assert (H : (id <$> (generateCircuit n outs).1) !! j = Some (inputId j)).
    { rewrite E. apply lookup_app_l_Some. rewrite list_lookup_fmap.
      by rewrite lookup_seq_lt. }
    rewrite list_lookup_fmap in H. unfold idOf.
    destruct ((generateCircuit n outs).1 !! j); simpl in H; congruence. }
  split; [done|]. rewrite <- Hid.
  pose proof (generateCircuit_built n outs) as Hb.
  rewrite (b_circuit _ _ Hb). apply map_get_circuit_of; [apply (b_ids _ _ Hb)|].
  assert (H : (j < length (id <$> (generateCircuit n outs).1))%nat).
  { rewrite E, length_app, length_fmap, length_seq. lia. }
  by rewrite length_fmap in H.
Qed.

Lemma generateCircuit_output_id n outs t :
  getNodesByType (generateCircuit n outs).1 (generateCircuit n outs).2 OUTPUT = [t] →
  idOf (generateCircuit n outs).1 t =
    match mintermsFrom outs 0 with [] => "OUTPUT_FINAL" | _ => "OUTPUT" end ∧
  map_get (generateCircuit n outs).2 (idOf (generateCircuit n outs).1 t) = Some t.
Proof.
  intros Ht. pose proof (generateCircuit_built n outs) as Hb. split.
  - by apply generateCircuit_output_idOf.
  - rewrite (b_circuit _ _ Hb). apply map_get_circuit_of; [apply (b_ids _ _ Hb)|].
    assert (Hm : t ∈ getNodesByType (generateCircuit n outs).1
                       (generateCircuit n outs).2 OUTPUT) by (rewrite Ht; by left).
    apply getNodesByType_spec in Hm as [_ Hm].
    by apply (member_live _ _ _ (built_wf _ _ Hb)).
Qed.

(** ** The store after a table that came out empty *)



(** * Further properties *)

(** ** Edges and the node mapping *)

(** [X1] Connecting a pair that is already connected changes nothing:
    a second [addInput] with the same arguments leaves the store as the
    first one left it, on every store. *)
Theorem addInput_twice_is_once (h : heap) (this node : ref) :
  addInput (addInput h this node) this node = addInput h this node.
Proof. apply addInput_idempotent_aux. Qed.

(** [X2] [removeInput] undoes [addInput]: when the two objects exist and
    the edge is on neither list beforehand, adding it and removing it
    again gives back the store, entry for entry and in the same
    order. *)
Theorem removeInput_undoes_addInput (h : heap) (this node : ref) :
  (this < length h)%nat → (node < length h)%nat →
  node ∉ inputsOf h this → this ∉ outputsOf h node →
  removeInput (addInput h this node) this node = h.
Proof. apply removeInput_addInput_aux. Qed.

Lemma removeInput_undoes_addInput_witness :
  removeInput (addInput (run_ops chain_ops).1 2 0) 2 0 = (run_ops chain_ops).1.
Proof.
  apply (removeInput_undoes_addInput (run_ops chain_ops).1 2 0).
  - vm_compute. lia.
  - vm_compute. lia.
  - apply (bool_decide_unpack _). vm_compute. exact I.
  - apply (bool_decide_unpack _). vm_compute. exact I.
Defined.

(** [X3] Under the edge invariant [removeInput] removes the edge from
    [node] to [this] from both lists and no other edge; when there is
    no such edge the store is left as it is. *)
Theorem removeInput_removes_exactly_the_edge (h : heap) (this node : ref) :
  edge_inv h →
  (∀ a b, edge (removeInput h this node) a b ↔
          edge h a b ∧ ¬ (a = node ∧ b = this)) ∧
  edge_inv (removeInput h this node) ∧
  (node ∉ inputsOf h this → removeInput h this node = h).
Proof.
  intros Hinv. split; [intros a b; by apply removeInput_edge|].
  split; [by apply removeInput_edge_inv|].
  intros Hn. apply removeInput_absent. by apply indexOf_None.
Qed.

Lemma removeInput_removes_exactly_the_edge_witness :
  let h := (run_ops chain_ops).1 in
  (∀ a b, edge (removeInput h 1 0) a b ↔ edge h a b ∧ ¬ (a = 0%nat ∧ b = 1%nat)) ∧
  edge_inv (removeInput h 1 0) ∧
  (0%nat ∉ inputsOf h 1 → removeInput h 1 0 = h).
Proof.
  apply (removeInput_removes_exactly_the_edge (run_ops chain_ops).1 1 0).
  apply (wf_edges _ (run_ops chain_ops).2).
  apply wf_circuitb_sound. vm_compute. reflexivity.
Defined.

(** [X4] [addNode] files the node under its own id: looking that id up
    afterwards gives the node, every other id is found as before, and
    when the id was already taken the earlier node is replaced in place
    (same keys in the same order, same size), otherwise the circuit
    grows by one. *)
Theorem addNode_same_id_replaces (h : heap) (c : Circuit) (node : ref) :
  map_get (addNode h c node) (idOf h node) = Some node ∧
  (∀ k, k ≠ idOf h node → map_get (addNode h c node) k = map_get c k) ∧
  map_size (addNode h c node) =
    match map_get c (idOf h node) with
    | Some _ => map_size c
    | None => S (map_size c)
    end ∧
  (∀ old, map_get c (idOf h node) = Some old →
          map_keys (addNode h c node) = map_keys c).
Proof.
  unfold addNode. split; [apply map_get_set_eq|]. split.
  - intros k Hk. apply map_get_set_ne. congruence.
  - split; [apply map_set_size|]. intros old Hold. by apply map_set_keys_present.
Qed.

(** [X5] [removeNode] on a well-formed circuit leaves a well-formed
    circuit: the id is no longer found, the other nodes stay, exactly
    the edges that touch the removed node are gone, and an acyclic
    circuit stays acyclic. *)
Theorem removeNode_keeps_circuit_well_formed (h : heap) (c : Circuit)
    (nodeId : string) (node : ref) :
  wf_circuit h c → map_get c nodeId = Some node →
  let h' := (removeNode h c nodeId).1 in
  let c' := (removeNode h c nodeId).2 in
  wf_circuit h' c' ∧ map_get c' nodeId = None ∧
  (∀ r, r ∈ map_values c' ↔ r ∈ map_values c ∧ r ≠ node) ∧
  (∀ a b, edge h' a b ↔ edge h a b ∧ a ≠ node ∧ b ≠ node) ∧
  (acyclic h c → acyclic h' c').
Proof.
  intros Hwf Hget h' c'. split; [by apply removeNode_wf|]. split.
  - unfold c', removeNode. rewrite Hget. simpl. apply map_get_delete, (wf_keys _ _ Hwf).
  - split; [intros r; by apply removeNode_members|]. split.
    + intros a b. apply removeNode_edge; [apply (wf_edges _ _ Hwf) | done].
    + by apply removeNode_acyclic.
Qed.

Lemma removeNode_keeps_circuit_well_formed_witness :
  let h := (run_ops chain_ops).1 in
  let c := (run_ops chain_ops).2 in
  let h' := (removeNode h c "n").1 in
  let c' := (removeNode h c "n").2 in
  wf_circuit h' c' ∧ map_get c' "n" = None ∧
  (∀ r, r ∈ map_values c' ↔ r ∈ map_values c ∧ r ≠ 1%nat) ∧
  (∀ a b, edge h' a b ↔ edge h a b ∧ a ≠ 1%nat ∧ b ≠ 1%nat) ∧
  (acyclic h c → acyclic h' c').
Proof.
  apply (removeNode_keeps_circuit_well_formed
           (run_ops chain_ops).1 (run_ops chain_ops).2 "n" 1).
  - apply wf_circuitb_sound. vm_compute. reflexivity.
  - vm_compute. reflexivity.
Defined.

(** [X6] [addConnection] keeps a well-formed circuit well-formed; when
    both ids are found it adds the edge from the first node to the
    second and no other, and when one of them is not found the store is
    left as it is. *)
Theorem addConnection_keeps_circuit_well_formed (h : heap) (c : Circuit)
    (fromId toId : string) :
  wf_circuit h c →
  wf_circuit (addConnection h c fromId toId) c ∧
  (∀ from to, map_get c fromId = Some from → map_get c toId = Some to →
     ∀ a b, edge (addConnection h c fromId toId) a b ↔
            edge h a b ∨ (a = from ∧ b = to)) ∧
  (map_get c fromId = None ∨ map_get c toId = None →
   addConnection h c fromId toId = h).
Proof.
  intros Hwf. split; [by apply addConnection_wf|]. split.
  - intros from to Hf Ht a b. by apply addConnection_edge.
  - unfold addConnection. intros [->| ->]; [done|]. by destruct (map_get c fromId).
Qed.

Lemma addConnection_keeps_circuit_well_formed_witness :
  let h := (run_ops chain_ops).1 in
  let c := (run_ops chain_ops).2 in
  wf_circuit (addConnection h c "i" "o") c ∧
  (∀ from to, map_get c "i" = Some from → map_get c "o" = Some to →
     ∀ a b, edge (addConnection h c "i" "o") a b ↔
            edge h a b ∨ (a = from ∧ b = to)) ∧
  (map_get c "i" = None ∨ map_get c "o" = None → addConnection h c "i" "o" = h).
Proof.
  apply (addConnection_keeps_circuit_well_formed
           (run_ops chain_ops).1 (run_ops chain_ops).2 "i" "o").
  apply wf_circuitb_sound. vm_compute. reflexivity.
Defined.

(** [X7] On a well-formed acyclic circuit, a connection from A to B
    makes the circuit unsimulable exactly when A could already be
    reached from B (in zero or more steps, so a node wired to itself
    counts): then [evaluate] throws [CycleDetectedError] and writes
    nothing; otherwise it still returns. *)
Theorem addConnection_cycle_iff_reachable (h : heap) (c : Circuit)
    (fromId toId : string) (from to : ref) :
  wf_circuit h c → acyclic h c →
  map_get c fromId = Some from → map_get c toId = Some to →
  let h' := addConnection h c fromId toId in
  (rtc (edge h) to from → evaluate h' c = (h', Throw CycleDetectedError)) ∧
  (¬ rtc (edge h) to from → ∃ h'', evaluate h' c = (h'', Ret tt)).
Proof.
  intros Hwf Hac Hf Ht h'.
  pose proof (addConnection_wf h c fromId toId Hwf) as Hwf'.
  pose proof (addConnection_has_cycle h c fromId toId from to Hwf Hac Hf Ht) as Hiff.
  split.
  - intros Hr. apply evaluate_cyclic; [done | by apply Hiff].
  - intros Hr. destruct (evaluate_acyclic h' c Hwf') as (h'' & E & _).
    + intros Hc. apply Hr. by apply Hiff.
    + by exists h''.
Qed.

Lemma addConnection_cycle_iff_reachable_witness :
  let h := (run_ops chain_ops).1 in
  let c := (run_ops chain_ops).2 in
  let h' := addConnection h c "o" "i" in
  (rtc (edge h) 0%nat 2%nat → evaluate h' c = (h', Throw CycleDetectedError)) ∧
  (¬ rtc (edge h) 0%nat 2%nat → ∃ h'', evaluate h' c = (h'', Ret tt)).
Proof.
  apply (addConnection_cycle_iff_reachable
           (run_ops chain_ops).1 (run_ops chain_ops).2 "o" "i" 2 0).
  - apply wf_circuitb_sound. vm_compute. reflexivity.
  - apply (returned_order_acyclic _ _ [0; 1; 2]%nat).
    + apply wf_circuitb_sound. vm_compute. reflexivity.
    + vm_compute. reflexivity.
  - vm_compute. reflexivity.
  - vm_compute. reflexivity.
Defined.

(** ** Evaluation *)

(** [X8] The [while] loop of [getEvaluationOrder] comes to an end on
    every store, well-formed or not: the call returns a sequence or
    throws [CycleDetectedError], and so [evaluate] and [getTruthTable]
    come to an end as well. *)
Theorem getEvaluationOrder_terminates (h : heap) (c : Circuit) :
  ((∃ order, getEvaluationOrder h c = Ret order) ∨
   getEvaluationOrder h c = Throw CycleDetectedError) ∧
  (evaluate h c).2 ≠ OutOfFuel ∧ (getTruthTable h c).2 ≠ OutOfFuel.
Proof.
  split; [|split; [apply evaluate_total | apply truthTableLoop_total]].
  pose proof (getEvaluationOrder_total h c) as H.
  destruct (getEvaluationOrder h c) as [order|[]|]; [left; by exists order | by right | done].
Qed.

(** [X9] [CycleDetectedError] is never a false alarm: when
    [getEvaluationOrder] throws on a well-formed circuit, some node of
    the circuit lies on a directed cycle. *)
Theorem cycle_error_is_never_a_false_alarm (h : heap) (c : Circuit) :
  wf_circuit h c → getEvaluationOrder h c = Throw CycleDetectedError →
  has_cycle h c.
Proof. apply getEvaluationOrder_throw_has_cycle. Qed.

Lemma cycle_error_is_never_a_false_alarm_witness :
  has_cycle (run_ops ring_ops).1 (run_ops ring_ops).2.
Proof.
  apply (cycle_error_is_never_a_false_alarm (run_ops ring_ops).1 (run_ops ring_ops).2).
  - apply wf_circuitb_sound. vm_compute. reflexivity.
  - vm_compute. reflexivity.
Defined.

(** [X10] One pass is enough: on a well-formed acyclic circuit
    [evaluate] returns, and afterwards every node of the circuit that
    is not an INPUT node holds the value that its own [compute] gives
    on the values its inputs hold now. *)
Theorem evaluate_settles_every_gate (h : heap) (c : Circuit) :
  wf_circuit h c → acyclic h c →
  ∃ h', evaluate h c = (h', Ret tt) ∧ settled h' c.
Proof.
  intros Hwf Hac. destruct (evaluate_acyclic h c Hwf Hac) as (h' & E & _ & _ & Hset).
  by exists h'.
Qed.

Lemma evaluate_settles_every_gate_witness :
  ∃ h', evaluate (run_ops chain_ops).1 (run_ops chain_ops).2 = (h', Ret tt) ∧
        settled h' (run_ops chain_ops).2.
Proof.
  apply (evaluate_settles_every_gate (run_ops chain_ops).1 (run_ops chain_ops).2).
  - apply wf_circuitb_sound. vm_compute. reflexivity.
  - apply (returned_order_acyclic _ _ [0; 1; 2]%nat).
    + apply wf_circuitb_sound. vm_compute. reflexivity.
    + vm_compute. reflexivity.
Defined.

(** [X11] Whatever the circuit, [evaluate] writes nothing but values of
    nodes that are not INPUT nodes: identifiers, kinds, labels and both
    edge lists of every object are as before, and so is the value of
    every INPUT node. *)
Theorem evaluate_writes_values_only (h : heap) (c : Circuit) :
  same_but_values h (evaluate h c).1 ∧
  ∀ r, typeOf h r = Some INPUT → valueOf (evaluate h c).1 r = valueOf h r.
Proof. split; [apply evaluate_same_but_values | apply evaluate_inputs_kept]. Qed.

(** [X12] [evaluate] is idempotent: on a well-formed circuit, a second
    call right after one that returned also returns and leaves the
    store exactly as the first call left it. *)
Theorem evaluate_is_idempotent (h : heap) (c : Circuit) (h1 : heap) :
  wf_circuit h c → evaluate h c = (h1, Ret tt) → evaluate h1 c = (h1, Ret tt).
Proof. apply evaluate_twice. Qed.

Lemma evaluate_is_idempotent_witness :
  let h := (run_ops chain_ops).1 in
  let c := (run_ops chain_ops).2 in
  evaluate (evaluate h c).1 c = ((evaluate h c).1, Ret tt).
Proof.
  apply (evaluate_is_idempotent (run_ops chain_ops).1 (run_ops chain_ops).2).
  - apply wf_circuitb_sound. vm_compute. reflexivity.
  - vm_compute. reflexivity.
Defined.

(** [X13] The circuit is combinational: on a well-formed acyclic
    circuit the values that [evaluate] leaves on the nodes depend on
    the values of the INPUT nodes only.  Two stores that hold the same
    objects and edges and agree on the INPUT nodes of the circuit
    agree on every node of the circuit after [evaluate], whatever the
    gates held before. *)
Theorem evaluate_depends_on_inputs_only (h : heap) (c : Circuit) (h0 : heap) :
  wf_circuit h c → acyclic h c → same_but_values h h0 →
  (∀ r, r ∈ map_values c → typeOf h r = Some INPUT → valueOf h0 r = valueOf h r) →
  ∀ r, r ∈ map_values c → valueOf (evaluate h0 c).1 r = valueOf (evaluate h c).1 r.
Proof. apply evaluate_determined. Qed.

Lemma evaluate_depends_on_inputs_only_witness :
  let h := (run_ops chain_ops).1 in
  let c := (run_ops chain_ops).2 in
  valueOf (evaluate (setValue h 1 true) c).1 2 = valueOf (evaluate h c).1 2.
Proof.
  apply (evaluate_depends_on_inputs_only
           (run_ops chain_ops).1 (run_ops chain_ops).2
           (setValue (run_ops chain_ops).1 1 true)).
  - apply wf_circuitb_sound. vm_compute. reflexivity.
  - apply (returned_order_acyclic _ _ [0; 1; 2]%nat).
    + apply wf_circuitb_sound. vm_compute. reflexivity.
    + vm_compute. reflexivity.
  - apply setValue_same_but_values.
  - intros r _ Hty. destruct (decide (r = 1%nat)) as [->|Hne].
    + vm_compute in Hty. discriminate Hty.
    + by apply valueOf_setValue_ne.
  - apply member_check. vm_compute. reflexivity.
Defined.

(** ** The truth table *)

(** [X14] The rows of the table do not depend on one another: on a
    well-formed acyclic circuit with at most 30 INPUT nodes, row i is
    the row that one evaluation of the circuit as it was before the
    call, with the inputs set to assignment i, would record; what
    earlier rows left on the gates does not show. *)
Theorem truth_table_rows_are_independent (h : heap) (c : Circuit) :
  wf_circuit h c → acyclic h c →
  (length (getNodesByType h c INPUT) ≤ 30)%nat →
  let ins := getNodesByType h c INPUT in
  let outs := getNodesByType h c OUTPUT in
  (getTruthTable h c).2 =
    Ret ((λ i, recordRow (evaluate (setInputs h ins (Z.of_nat i)) c).1 ins outs)
           <$> seq 0 (2 ^ length ins)).
Proof. apply getTruthTable_rows. Qed.

Lemma truth_table_rows_are_independent_witness :
  let h := (run_ops chain_ops).1 in
  let c := (run_ops chain_ops).2 in
  let ins := getNodesByType h c INPUT in
  let outs := getNodesByType h c OUTPUT in
  (getTruthTable h c).2 =
    Ret ((λ i, recordRow (evaluate (setInputs h ins (Z.of_nat i)) c).1 ins outs)
           <$> seq 0 (2 ^ length ins)).
Proof.
  apply (truth_table_rows_are_independent (run_ops chain_ops).1 (run_ops chain_ops).2).
  - apply wf_circuitb_sound. vm_compute. reflexivity.
  - apply (returned_order_acyclic _ _ [0; 1; 2]%nat).
    + apply wf_circuitb_sound. vm_compute. reflexivity.
    + vm_compute. reflexivity.
  - vm_compute. lia.
Defined.

(** [X15] [getTruthTable] does not put the inputs back: after the call
    on a well-formed acyclic circuit with at most 30 INPUT nodes every
    INPUT node holds true (the last assignment), every gate holds the
    value computed from that, and nothing but values has changed. *)
Theorem truth_table_leaves_inputs_true (h : heap) (c : Circuit) :
  wf_circuit h c → acyclic h c →
  (length (getNodesByType h c INPUT) ≤ 30)%nat →
  let h' := (getTruthTable h c).1 in
  same_but_values h h' ∧
  (∀ r, r ∈ getNodesByType h c INPUT → valueOf h' r = true) ∧
  settled h' c.
Proof. apply getTruthTable_final_store. Qed.

Lemma truth_table_leaves_inputs_true_witness :
  let h := (run_ops chain_ops).1 in
  let c := (run_ops chain_ops).2 in
  let h' := (getTruthTable h c).1 in
  same_but_values h h' ∧
  (∀ r, r ∈ getNodesByType h c INPUT → valueOf h' r = true) ∧
  settled h' c.
Proof.
  apply (truth_table_leaves_inputs_true (run_ops chain_ops).1 (run_ops chain_ops).2).
  - apply wf_circuitb_sound. vm_compute. reflexivity.
  - apply (returned_order_acyclic _ _ [0; 1; 2]%nat).
    + apply wf_circuitb_sound. vm_compute. reflexivity.
    + vm_compute. reflexivity.
  - vm_compute. lia.
Defined.

(** [X16] With exactly 31 INPUT nodes the row count [1 << 31] is
    negative as a 32-bit integer: [getTruthTable] returns the empty
    table without touching the store, cycle or no cycle. *)
Theorem truth_table_empty_at_31_inputs (h : heap) (c : Circuit) :
  length (getNodesByType h c INPUT) = 31%nat → getTruthTable h c = (h, Ret []).
Proof. intros E. unfold getTruthTable. rewrite E. reflexivity. Qed.

Lemma truth_table_empty_at_31_inputs_witness :
  getTruthTable (run_ops (inputs_ops 31)).1 (run_ops (inputs_ops 31)).2
    = ((run_ops (inputs_ops 31)).1, Ret []).
Proof.
  apply (truth_table_empty_at_31_inputs
           (run_ops (inputs_ops 31)).1 (run_ops (inputs_ops 31)).2).
  vm_compute. reflexivity.
Defined.

(** [X17] The number of rows of the table of a well-formed acyclic
    circuit with n INPUT nodes is [1 << n] as a 32-bit integer: 2^(n
    mod 32) rows, and no row at all when n mod 32 is 31. *)
Theorem truth_table_row_count (h : heap) (c : Circuit) :
  wf_circuit h c → acyclic h c →
  let n := length (getNodesByType h c INPUT) in
  ∃ rows, (getTruthTable h c).2 = Ret rows ∧
    length rows = if (n mod 32 =? 31)%nat then 0%nat else (2 ^ (n mod 32))%nat.
Proof. apply getTruthTable_row_count. Qed.

Lemma truth_table_row_count_witness :
  let h := (run_ops (inputs_ops 33)).1 in
  let c := (run_ops (inputs_ops 33)).2 in
  let n := length (getNodesByType h c INPUT) in
  ∃ rows, (getTruthTable h c).2 = Ret rows ∧
    length rows = if (n mod 32 =? 31)%nat then 0%nat else (2 ^ (n mod 32))%nat.
Proof.
  apply (truth_table_row_count (run_ops (inputs_ops 33)).1 (run_ops (inputs_ops 33)).2).
  - apply wf_circuitb_sound. vm_compute. reflexivity.
  - apply (returned_order_acyclic _ _ (seq 0 33)).
    + apply wf_circuitb_sound. vm_compute. reflexivity.
    + vm_compute. reflexivity.
Defined.



(** ** Synthesis *)

(** [X18] Whatever the arguments, [generateCircuit] returns a
    well-formed circuit: the node ids are pairwise distinct and each
    node is filed under its own id, every edge joins two nodes of the
    circuit, and the edge lists are symmetric and free of
    duplicates. *)
Theorem generateCircuit_is_well_formed (inputCount : nat) (outs : list bool) :
  wf_circuit (generateCircuit inputCount outs).1 (generateCircuit inputCount outs).2.
Proof. apply built_wf, generateCircuit_built. Qed.

(** [X19] The synthesized circuit computes the table it was entered
    in.  The synthesis dialog shows, in row i and column j, the digit
    [(i >> (count - 1 - j)) & 1]; for at most 31 variables and a vector
    of at most 2^count entries, when the node with id [INPUT_j] holds
    the digit of row i for every j, [evaluate] returns and the OUTPUT
    node (id [OUTPUT], or [OUTPUT_FINAL] when the vector has no true
    entry) holds entry i of the vector (false when the vector has no
    entry i), whatever the gates held before. *)
Theorem synthesis_computes_entered_row (n : nat) (outs : list bool) (i : nat)
    (h0 : heap) :
  let h := (generateCircuit n outs).1 in
  let c := (generateCircuit n outs).2 in
  (n ≤ 31)%nat → (length outs ≤ 2 ^ n)%nat → (i < 2 ^ n)%nat →
  same_but_values h h0 →
  (∀ j r, (j < n)%nat → map_get c (inputId j) = Some r →
     valueOf h0 r = js_truthy (synthesisCell (Z.of_nat n) (Z.of_nat i) (Z.of_nat j))) →
  (∀ j, (j < n)%nat →
     ∃ r, map_get c (inputId j) = Some r ∧ typeOf h r = Some INPUT) ∧
  ∃ t h',
    map_get c (match mintermsFrom outs 0 with
               | [] => "OUTPUT_FINAL"
               | _ => "OUTPUT"
               end) = Some t ∧
    getNodesByType h c OUTPUT = [t] ∧
    evaluate h0 c = (h', Ret tt) ∧
    valueOf h' t = default false (outs !! i).
Proof.
  intros h c Hn Hlen Hi Hs Hin. split.
  - intros j Hj. exists j. split; [by apply generateCircuit_input_ids|].
    by apply generateCircuit_input_types.
  - destruct (generateCircuit_row n outs i h0 Hn Hlen Hi Hs) as (t & h' & Ht & E & Hv).
    { intros j Hj. apply (Hin j j Hj). by apply generateCircuit_input_ids. }
    exists t, h'. destruct (generateCircuit_output_id n outs t Ht) as [Hid Hget].
    split; [by rewrite <- Hid|]. done.
Qed.

Lemma synthesis_computes_entered_row_witness :
  let h := (generateCircuit 2 [false; true; false; false]).1 in
  let c := (generateCircuit 2 [false; true; false; false]).2 in
  (∀ j, (j < 2)%nat →
     ∃ r, map_get c (inputId j) = Some r ∧ typeOf h r = Some INPUT) ∧
  ∃ t h',
    map_get c "OUTPUT" = Some t ∧
    getNodesByType h c OUTPUT = [t] ∧
    evaluate (setValue h 1 true) c = (h', Ret tt) ∧
    valueOf h' t = default false ([false; true; false; false] !! 1%nat).
Proof.
  apply (synthesis_computes_entered_row 2 [false; true; false; false] 1
           (setValue (generateCircuit 2 [false; true; false; false]).1 1 true)).
  - lia.
  - vm_compute. lia.
  - vm_compute. lia.
  - apply setValue_same_but_values.
  - intros [|[|j]] r Hj Hr; [| |lia]; vm_compute in Hr; injection Hr as <-;
      vm_compute; reflexivity.
Defined.

(** [X20] The synthesized circuit has two levels of logic: a path
    along its edges has at most four edges (INPUT, NOT, AND, OR,
    OUTPUT). *)
Theorem synthesized_paths_are_short (inputCount : nat) (outs : list bool)
    (k : nat) (a b : ref) :
  nsteps (edge (generateCircuit inputCount outs).1) k a b → (k ≤ 4)%nat.
Proof.
  intros Hp.
  pose proof (layered_nsteps _ k a b (b_layers _ _ (generateCircuit_built inputCount outs)) Hp).
  pose proof (layer_le_4 (generateCircuit inputCount outs).1 b). lia.
Qed.

Lemma synthesized_paths_are_short_witness : (4 ≤ 4)%nat.
Proof.
  apply (synthesized_paths_are_short 1 [true; false] 4 0 4).
  apply (nsteps_l _ _ 0%nat 2%nat); [apply edge_check; vm_compute; reflexivity|].
  apply (nsteps_l _ _ 2%nat 1%nat); [apply edge_check; vm_compute; reflexivity|].
  apply (nsteps_l _ _ 1%nat 3%nat); [apply edge_check; vm_compute; reflexivity|].
  apply (nsteps_l _ _ 3%nat 4%nat); [apply edge_check; vm_compute; reflexivity|].
  apply nsteps_O.
Defined.

(** ** The user interface *)

(** [X21] The truth-table button on a circuit with a feedback loop:
    the table that [getTruthTable] hands to [generateTruthTableHTML]
    is empty, and the dialog shows the text about missing inputs and
    outputs, not a table and not the cycle error. *)
Theorem truth_table_dialog_on_cycle (h : heap) (c : Circuit) :
  wf_circuit h c → has_cycle h c →
  ∃ rows, (getTruthTable h c).2 = Ret rows ∧
    generateTruthTableHTML rows =
      Markup "div" "<h3>No inputs/outputs found to generate a table.</h3>".
Proof.
  intros Hwf Hcyc. exists []. split; [|done]. unfold getTruthTable.
  rewrite truthTableLoop_cyclic by done. by destruct (Z.to_nat _).
Qed.

Lemma truth_table_dialog_on_cycle_witness :
  ∃ rows, (getTruthTable (run_ops ring_ops).1 (run_ops ring_ops).2).2 = Ret rows ∧
    generateTruthTableHTML rows =
      Markup "div" "<h3>No inputs/outputs found to generate a table.</h3>".
Proof.
  apply (truth_table_dialog_on_cycle (run_ops ring_ops).1 (run_ops ring_ops).2).
  - apply wf_circuitb_sound. vm_compute. reflexivity.
  - apply ring_has_cycle.
Defined.

(** [X22] The truth-table button on a well-formed acyclic circuit with
    at most 30 INPUT nodes shows a table, also when the circuit has no
    INPUT or no OUTPUT node: one header cell per INPUT node whose id is
    not [__proto__], showing the first four UTF-16 code units of the
    id, then one cell OUT per OUTPUT node whose id is not [__proto__];
    a node with the id [__proto__] gets no column, since the row
    objects record nothing under that key.  The columns of either
    group stand in ascending order of the code units of the node ids,
    not in the order of the circuit; the body has 2^n rows, n the
    number of all INPUT nodes, of one cell per column. *)
Theorem truth_table_dialog_on_acyclic (h : heap) (c : Circuit) :
  wf_circuit h c → acyclic h c → (length (getNodesByType h c INPUT) ≤ 30)%nat →
  ∃ rows inputKeys outputKeys body,
    (getTruthTable h c).2 = Ret rows ∧
    generateTruthTableHTML rows =
      Elem "div" [] EmptyString
        [Elem "table" ["truth-table"] EmptyString
           [Elem "thead" [] EmptyString
              [Elem "tr" [] EmptyString
                 (((λ k, Elem "th" [] (js_substring 0 4 k) []) <$> inputKeys) ++
                  ((λ k, Elem "th" ["output-col"] "OUT" []) <$> outputKeys))];
            Elem "tbody" [] EmptyString body]] ∧
    inputKeys ≡ₚ idOf h <$> filter (λ r, idOf h r ≠ "__proto__")
                                   (getNodesByType h c INPUT) ∧
    Sorted string_le inputKeys ∧
    outputKeys ≡ₚ idOf h <$> filter (λ r, idOf h r ≠ "__proto__")
                                    (getNodesByType h c OUTPUT) ∧
    Sorted string_le outputKeys ∧
    length body = (2 ^ length (getNodesByType h c INPUT))%nat ∧
    ∀ tr, tr ∈ body →
      ∃ cells, tr = Elem "tr" [] EmptyString cells ∧
        length cells = (length inputKeys + length outputKeys)%nat.
Proof. apply truth_table_dialog_acyclic. Qed.

Lemma truth_table_dialog_on_acyclic_witness :
  let h := (run_ops chain_ops).1 in
  let c := (run_ops chain_ops).2 in
  ∃ rows inputKeys outputKeys body,
    (getTruthTable h c).2 = Ret rows ∧
    generateTruthTableHTML rows =
      Elem "div" [] EmptyString
        [Elem "table" ["truth-table"] EmptyString
           [Elem "thead" [] EmptyString
              [Elem "tr" [] EmptyString
                 (((λ k, Elem "th" [] (js_substring 0 4 k) []) <$> inputKeys) ++
                  ((λ k, Elem "th" ["output-col"] "OUT" []) <$> outputKeys))];
            Elem "tbody" [] EmptyString body]] ∧
    inputKeys ≡ₚ idOf h <$> filter (λ r, idOf h r ≠ "__proto__")
                                   (getNodesByType h c INPUT) ∧
    Sorted string_le inputKeys ∧
    outputKeys ≡ₚ idOf h <$> filter (λ r, idOf h r ≠ "__proto__")
                                    (getNodesByType h c OUTPUT) ∧
    Sorted string_le outputKeys ∧
    length body = (2 ^ length (getNodesByType h c INPUT))%nat ∧
    ∀ tr, tr ∈ body →
      ∃ cells, tr = Elem "tr" [] EmptyString cells ∧
        length cells = (length inputKeys + length outputKeys)%nat.
Proof.
  apply (truth_table_dialog_on_acyclic (run_ops chain_ops).1 (run_ops chain_ops).2).
  - apply wf_circuitb_sound. vm_compute. reflexivity.
  - apply (returned_order_acyclic _ _ [0; 1; 2]%nat).
    + apply wf_circuitb_sound. vm_compute. reflexivity.
    + vm_compute. reflexivity.
  - vm_compute. lia.
Defined.

(** [X23] Every circuit that can be put together on the canvas is
    well-formed: starting from the empty canvas, after any sequence of
    drops from the sidebar, wire starts and ends, window mouse-ups and
    clicks on input nodes, the circuit of the manager is well-formed,
    provided the identifiers that [crypto.randomUUID()] returned were
    pairwise distinct. *)
Theorem canvas_circuit_is_well_formed (status : option string) (evs : list event) :
  NoDup (uuids evs) →
  let st := fold_left handle evs (newCanvas status) in
  wf_circuit st.1 (circuit st.2).
Proof. intros Hnd. by apply canvas_inv. Qed.

Lemma canvas_circuit_is_well_formed_witness :
  let st := fold_left handle loop_events (newCanvas (Some EmptyString)) in
  wf_circuit st.1 (circuit st.2).
Proof.
  apply (canvas_circuit_is_well_formed (Some EmptyString) loop_events).
  apply (bool_decide_unpack _). vm_compute. exact I.
Defined.

(** [X24] Drawing a wire from A to the input pin of another node B, on
    a well-formed acyclic circuit and a page with a status line: the
    edge is made, and the status line reads "Error: Feedback Loop
    Detected!" when A could be reached from B before, and is empty
    otherwise. *)
Theorem wire_closing_loop_is_reported (h : heap) (cm : CanvasManager)
    (s0 : string) (a b : ref) :
  wf_circuit h (circuit cm) → acyclic h (circuit cm) → statusMsg cm = Some s0 →
  isDrawingWire cm = true → wireStartNode cm = Some a → a ≠ b →
  a ∈ map_values (circuit cm) → b ∈ map_values (circuit cm) →
  let st' := handleWireEnd (h, cm) b in
  edge st'.1 a b ∧
  (rtc (edge h) b a → statusMsg st'.2 = Some "Error: Feedback Loop Detected!") ∧
  (¬ rtc (edge h) b a → statusMsg st'.2 = Some EmptyString).
Proof. apply handleWireEnd_status. Qed.

Lemma wire_closing_loop_is_reported_witness :
  let st := fold_left handle loop_events (newCanvas (Some EmptyString)) in
  let st' := handleWireEnd (st.1, st.2) 0 in
  edge st'.1 1 0 ∧
  (rtc (edge st.1) 0%nat 1%nat →
   statusMsg st'.2 = Some "Error: Feedback Loop Detected!") ∧
  (¬ rtc (edge st.1) 0%nat 1%nat → statusMsg st'.2 = Some EmptyString).
Proof.
  apply (wire_closing_loop_is_reported
           (fold_left handle loop_events (newCanvas (Some EmptyString))).1
           (fold_left handle loop_events (newCanvas (Some EmptyString))).2
           EmptyString 1 0).
  - apply wf_circuitb_sound. vm_compute. reflexivity.
  - apply (returned_order_acyclic _ _ [0; 1]%nat).
    + apply wf_circuitb_sound. vm_compute. reflexivity.
    + vm_compute. reflexivity.
  - vm_compute. reflexivity.
  - vm_compute. reflexivity.
  - vm_compute. reflexivity.
  - lia.
  - apply member_check. vm_compute. reflexivity.
  - apply member_check. vm_compute. reflexivity.
Defined.

(** [X25] [handleWireEnd] does not end the drawing of a wire: called
    for a second node while the manager has not seen the window's
    mouse-up, it connects the same start node again.  After
    [handleWireStart] at A and [handleWireEnd] at B and then at C, both
    edges A → B and A → C exist and the manager is still drawing from
    A. *)
Theorem second_wire_end_reuses_start (h : heap) (cm : CanvasManager)
    (a b c' : ref) :
  wf_circuit h (circuit cm) →
  a ∈ map_values (circuit cm) → b ∈ map_values (circuit cm) →
  c' ∈ map_values (circuit cm) → a ≠ b → a ≠ c' →
  let st' := handleWireEnd (handleWireEnd (handleWireStart (h, cm) a) b) c' in
  edge st'.1 a b ∧ edge st'.1 a c' ∧
  isDrawingWire st'.2 = true ∧ wireStartNode st'.2 = Some a.
Proof. apply handleWireEnd_twice. Qed.

Lemma second_wire_end_reuses_start_witness :
  let st := fold_left handle fan_events (newCanvas None) in
  let st' := handleWireEnd (handleWireEnd (handleWireStart (st.1, st.2) 0) 1) 2 in
  edge st'.1 0 1 ∧ edge st'.1 0 2 ∧
  isDrawingWire st'.2 = true ∧ wireStartNode st'.2 = Some 0%nat.
Proof.
  apply (second_wire_end_reuses_start
           (fold_left handle fan_events (newCanvas None)).1
           (fold_left handle fan_events (newCanvas None)).2 0 1 2).
  - apply wf_circuitb_sound. vm_compute. reflexivity.
  - apply member_check. vm_compute. reflexivity.
  - apply member_check. vm_compute. reflexivity.
  - apply member_check. vm_compute. reflexivity.
  - lia.
  - lia.
Defined.

(** [X26] Clicking an input node twice brings the circuit back: on a
    well-formed acyclic circuit, with no drag under way, after two
    clicks on the same INPUT node every node of the circuit holds the
    value that one evaluation of the circuit as it was would give
    it. *)
Theorem input_clicked_twice_restores (h : heap) (cm : CanvasManager) (r : ref) :
  wf_circuit h (circuit cm) → acyclic h (circuit cm) →
  truthy_id (draggedNodeId cm) = false →
  r ∈ map_values (circuit cm) → typeOf h r = Some INPUT →
  ∀ x, x ∈ map_values (circuit cm) →
    valueOf (inputClick (inputClick (h, cm) r) r).1 x =
    valueOf (evaluate h (circuit cm)).1 x.
Proof. apply inputClick_twice. Qed.

Lemma input_clicked_twice_restores_witness :
  let st := fold_left handle fan_events (newCanvas None) in
  valueOf (inputClick (inputClick (st.1, st.2) 0) 0).1 1 =
  valueOf (evaluate st.1 (circuit st.2)).1 1.
Proof.
  apply (input_clicked_twice_restores
           (fold_left handle fan_events (newCanvas None)).1
           (fold_left handle fan_events (newCanvas None)).2 0).
  - apply wf_circuitb_sound. vm_compute. reflexivity.
  - apply (returned_order_acyclic _ _ [0; 1; 2]%nat).
    + apply wf_circuitb_sound. vm_compute. reflexivity.
    + vm_compute. reflexivity.
  - vm_compute. reflexivity.
  - apply member_check. vm_compute. reflexivity.
  - vm_compute. reflexivity.
  - apply member_check. vm_compute. reflexivity.
Defined.
